(** * MultiTaxiDomain: task allocation, grid graph and social detours

    A shallow embedding of [TaskAllocator.py] and
    [SocailTaxi/SocailTaxiWrapper.py].  Python integers are [Z], numpy
    [int64] cells are [Z] with the wrap-around written out, Python
    dictionaries are insertion-ordered association lists, exceptions are an
    error monad. *)

From Stdlib Require Import ZArith Lia String Ascii Permutation Sorted.
From stdpp Require Import base tactics option list list_numbers strings sets sorting.

Set Warnings "-clear-no-such-hyp".

(** ** Python runtime model *)

Module Py.

(** The exceptions that the modelled code can raise. *)
Inductive exn : Type :=
  | IndexError | KeyError | ValueError | AssertionError | TypeError
  | ZeroDivisionError | RuntimeError | NodeNotFound | NetworkXNoPath
  | NetworkXError.

Inductive result (A : Type) : Type :=
  | Ok (a : A)
  | Raise (e : exn).
Arguments Ok {A} a.
Arguments Raise {A} e.

#[export] Instance result_ret : MRet result := fun _ a => Ok a.
#[export] Instance result_bind : MBind result := fun _ _ f m =>
  match m with Ok a => f a | Raise e => Raise e end.

Definition is_Ok {A} (r : result A) : Prop := ∃ a, r = Ok a.

(** [l[i]] for a non-negative index: [IndexError] when out of range. *)
Definition getitem {A} (l : list A) (i : nat) : result A :=
  match l !! i with Some a => Ok a | None => Raise IndexError end.

(** [assert b]. *)
Definition py_assert (b : bool) : result unit :=
  if b then Ok tt else Raise AssertionError.

(** [for x in l: acc = body(acc, x)] where the body may raise. *)
Fixpoint for_each {A S} (body : S → A → result S) (l : list A) (s : S) : result S :=
  match l with
  | [] => Ok s
  | x :: l' => s' ← body s x; for_each body l' s'
  end.

(** [[f(x) for x in l]] where [f] may raise. *)
Fixpoint map_result {A B} (f : A → result B) (l : list A) : result (list B) :=
  match l with
  | [] => Ok []
  | x :: l' => y ← f x; ys ← map_result f l'; Ok (y :: ys)
  end.

(** *** Dictionaries

    A [dict] keeps its keys in insertion order, and iteration follows that
    order; keys are unique. *)
Abbreviation dict K V := (list (K * V)) (only parsing).

Section dict.
Context {K V : Type} `{EqDecision K}.

Definition dict_keys (d : dict K V) : list K := d.*1.

(** [d.get(k)] *)
Fixpoint dict_get (k : K) (d : dict K V) : option V :=
  match d with
  | [] => None
  | (k', v) :: d' => if decide (k' = k) then Some v else dict_get k d'
  end.

(** [k in d] *)
Definition dict_mem (k : K) (d : dict K V) : bool := bool_decide (k ∈ dict_keys d).

(** [d[k] = v]: an existing key keeps its position, a new key goes last. *)
Fixpoint dict_setitem (k : K) (v : V) (d : dict K V) : dict K V :=
  match d with
  | [] => [(k, v)]
  | (k', v') :: d' =>
      if decide (k' = k) then (k', v) :: d' else (k', v') :: dict_setitem k v d'
  end.

(** [d.pop(k)]: [KeyError] when the key is absent. *)
Fixpoint dict_pop (k : K) (d : dict K V) : result (V * dict K V) :=
  match d with
  | [] => Raise KeyError
  | (k', v) :: d' =>
      if decide (k' = k) then Ok (v, d')
      else '(w, d'') ← dict_pop k d'; Ok (w, (k', v) :: d'')
  end.

(** [{k: v for (k, v) in l}] *)
Definition dict_of_pairs (l : list (K * V)) : dict K V :=
  foldl (λ d kv, dict_setitem kv.1 kv.2 d) [] l.

End dict.

(** [min(d, key=d.get)] over integer values: the keys are visited in
    insertion order and the running best is replaced only by a strictly
    smaller value, so the first key holding the minimum is returned;
    [ValueError] on an empty dictionary. *)
Fixpoint min_loop {K} (best : K) (bestval : Z) (d : dict K Z) : K :=
  match d with
  | [] => best
  | (k, v) :: d' =>
      if (v <? bestval)%Z then min_loop k v d' else min_loop best bestval d'
  end.

Definition dict_min_key {K} (d : dict K Z) : result K :=
  match d with
  | [] => Raise ValueError
  | (k, v) :: d' => Ok (min_loop k v d')
  end.

(** numpy [int64] arithmetic wraps around. *)
Definition wrap64 (z : Z) : Z := ((z + 2 ^ 63) mod 2 ^ 64 - 2 ^ 63)%Z.
Definition int64_add (a b : Z) : Z := wrap64 (a + b).

(** [itertools.permutations(pool)]: the tuples come in the lexicographic
    order of the positions of the pool; each position is taken as the head
    in turn, followed by the permutations of the other positions. *)
Fixpoint selections {A} (l : list A) : list (A * list A) :=
  match l with
  | [] => []
  | x :: l' => (x, l') :: (prod_map id (cons x) <$> selections l')
  end.

Fixpoint permutations_upto {A} (r : nat) (pool : list A) : list (list A) :=
  match r with
  | 0 => [[]]
  | S r' => '(x, rest) ← selections pool; (cons x) <$> permutations_upto r' rest
  end.

Definition permutations {A} (pool : list A) : list (list A) :=
  permutations_upto (length pool) pool.

End Py.
Import Py.


(** ** TaskAllocator.py *)

Module TaskAllocator.

(** The fields of [TaskAllocator] that the allocation methods read: the two
    counts of the environment and the [distances] array, a numpy [int64]
    matrix of shape [(num_taxis, num_passengers)]. *)
Record t : Type := {
  num_taxis : nat;
  num_passengers : nat;
  distances : list (list Z);
}.

(** An allocation as the code builds it: a tuple of [(taxi, passenger)]. *)
Abbreviation allocation := (list (nat * nat)) (only parsing).

(** [self.distances[taxi_passenger]] *)
Definition distances_at (self : t) (taxi_passenger : nat * nat) : result Z :=
  row ← getitem (distances self) taxi_passenger.1; getitem row taxi_passenger.2.

(** The inner loop of [passengers_allocations_cost]: the running total
    starts at 0 and each cell is added with numpy's [int64] addition. *)
Definition allocation_total (self : t) (alloc : allocation) : result Z :=
  for_each (λ allocation_total_distance taxi_passenger,
              d ← distances_at self taxi_passenger;
              Ok (int64_add allocation_total_distance d))
           alloc 0%Z.

Definition passengers_allocations_cost (self : t) : result (dict allocation Z) :=
  let passengers_permutations := permutations (seq 0 (num_passengers self)) in
  let taxis_indices := seq 0 (num_taxis self) in
  let allocations := (λ passenger_perm, zip taxis_indices passenger_perm)
                       <$> passengers_permutations in
  for_each (λ allocations_total_distances alloc,
              allocation_total_distance ← allocation_total self alloc;
              Ok (dict_setitem alloc allocation_total_distance
                    allocations_total_distances))
           allocations [].

Definition optimal_allocation_minimal_value
    (allocations : dict allocation Z) : result (dict nat nat) :=
  optimal_allocation ← dict_min_key allocations;
  Ok (dict_of_pairs optimal_allocation).

(** The exhaustive solver, as every caller chains the two methods. *)
Definition optimal_assignment (self : t) : result (dict nat nat) :=
  true_allocations_cost ← passengers_allocations_cost self;
  optimal_allocation_minimal_value true_allocations_cost.

(** The allocations in the order of the loop, and the value the loop
    stores for one of them. *)
Definition allocations_of (self : t) : list allocation :=
  (λ passenger_perm, zip (seq 0 (num_taxis self)) passenger_perm)
    <$> permutations (seq 0 (num_passengers self)).

Definition total_of (self : t) (alloc : allocation) : Z :=
  match allocation_total self alloc with Ok z => z | Raise _ => 0%Z end.

(** Every pair of the allocation indexes a cell of the matrix. *)
Definition in_range (self : t) (alloc : allocation) : Prop :=
  Forall (λ tp, tp.1 < num_taxis self ∧ tp.2 < num_passengers self) alloc.

(** *** The auction

    [biddings] is a list of references to dictionary objects, and the
    dictionaries live in a store: [pop] changes the caller's objects, so
    the store is threaded through and returned with the allocation. *)
Abbreviation ref := nat (only parsing).
Abbreviation store := (list (list (nat * Z))) (only parsing).

(** [for taxi_ind in allocations: bids_on_passenger.pop(taxi_ind)] *)
Definition pop_allocated (allocations : dict nat nat) (bids : dict nat Z)
    : result (dict nat Z) :=
  for_each (λ b taxi_ind, '(_, b') ← dict_pop taxi_ind b; Ok b')
           (dict_keys allocations) bids.

Definition auction_round (self : t) (biddings : list ref)
    (st : dict nat nat * store) (passenger_ind : nat)
    : result (dict nat nat * store) :=
  let '(allocations, h) := st in
  bids_on_passenger ← getitem biddings passenger_ind;
  bids ← getitem h bids_on_passenger;
  _ ← py_assert (bool_decide (length bids = num_taxis self));
  bids ← pop_allocated allocations bids;
  let h := <[bids_on_passenger := bids]> h in
  winning_taxi_ind ← dict_min_key bids;
  Ok (dict_setitem winning_taxi_ind passenger_ind allocations, h).

Definition taxis_auction_allocation (self : t) (biddings : list ref) (h : store)
    : result (dict nat nat * store) :=
  '(allocations, h) ← for_each (auction_round self biddings)
                         (seq 0 (num_passengers self)) ([], h);
  _ ← py_assert (bool_decide (length allocations = num_passengers self));
  Ok (allocations, h).

(** The dictionaries of [get_taxis_bids]: one per row of the bid matrix,
    [{taxi_ind: taxi_bid for (taxi_ind, taxi_bid) in enumerate(bids)}]. *)
Definition bids_dict (bids : list Z) : dict nat Z :=
  dict_of_pairs (zip (seq 0 (length bids)) bids).

End TaskAllocator.

(** ** SocailTaxiWrapper.py: EnvGraph *)

Module EnvGraph.

Local Open Scope Z_scope.

(** A networkx [Graph]: every node with its neighbours, both in insertion
    order. *)
Abbreviation graph := (list (Z * list Z)) (only parsing).

Definition has_node (g : graph) (u : Z) : bool := dict_mem u g.

Definition neighbors (g : graph) (u : Z) : list Z := default [] (dict_get u g).

Definition add_node (u : Z) (g : graph) : graph :=
  if has_node g u then g else g ++ [(u, [])].

Definition add_neighbor (u v : Z) (g : graph) : graph :=
  let nbrs := neighbors g u in
  dict_setitem u (if bool_decide (v ∈ nbrs) then nbrs else nbrs ++ [v]) g.

(** [G.add_edge(u, v)]: missing end points are added as nodes. *)
Definition add_edge (u v : Z) (g : graph) : graph :=
  add_neighbor v u (add_neighbor u v (add_node v (add_node u g))).

(** The graph with the nodes [range(n)] and no edge. *)
Definition nodes_graph (n : Z) : graph := (λ i, (i, [])) <$> seqZ 0 n.

(** [nx.empty_graph(n)]: the nodes [range(n)] and no edge; a negative
    number of nodes raises [NetworkXError]. *)
Definition empty_graph (n : Z) : result graph :=
  if bool_decide (n < 0) then Raise NetworkXError else Ok (nodes_graph n).

(** [l[i]] for any integer index: a negative index counts from the end. *)
Definition getitemZ {A} (l : list A) (i : Z) : result A :=
  let n := Z.of_nat (length l) in
  if bool_decide (0 ≤ i < n) then getitem l (Z.to_nat i)
  else if bool_decide (- n ≤ i < 0) then getitem l (Z.to_nat (n + i))
  else Raise IndexError.

(** [desc[r][c]] on a list of strings. *)
Definition desc_at (desc : list string) (r c : Z) : result ascii :=
  row ← getitemZ desc r; getitemZ (list_ascii_of_string row) c.

Record t : Type := {
  rows : Z;
  cols : Z;
  the_graph : graph;
}.

Definition node_to_cors_with (cols : Z) (node : Z) : result (list Z) :=
  if bool_decide (cols = 0) then Raise ZeroDivisionError
  else Ok [node `div` cols; node `mod` cols].

Definition cors_to_node_with (cols : Z) (row col : Z) : Z := row * cols + col.

Definition node_to_cors (self : t) (node : Z) : result (list Z) :=
  node_to_cors_with (cols self) node.

Definition cors_to_node (self : t) (row col : Z) : Z :=
  cors_to_node_with (cols self) row col.

(** One turn of the loop of [__init__] over [self.graph.nodes].  The loop
    iterates over the node dictionary itself: when an edge has added a
    node, the next step of the iterator raises [RuntimeError]. *)
Definition init_node (desc : list string) (cols : Z) (g : graph) (i : Z)
    : result graph :=
  let size := length g in
  rc ← node_to_cors_with cols i;
  match rc with
  | [row; col] =>
      south ← desc_at desc (row + 2) (col * 2 + 1);
      let g := if bool_decide (south ≠ "-"%char)
               then add_edge i (cors_to_node_with cols (row + 1) col) g else g in
      east ← desc_at desc (row + 1) (col * 2 + 2);
      let g := if bool_decide (east = ":"%char)
               then add_edge i (cors_to_node_with cols row (col + 1)) g else g in
      if bool_decide (length g = size) then Ok g else Raise RuntimeError
  | _ => Raise TypeError
  end.

(** [EnvGraph.__init__] *)
Definition init (desc : list string) : result t :=
  let rows := Z.of_nat (length desc) - 2 in
  row0 ← getitemZ desc 0;
  let cols := Z.of_nat (String.length row0) `div` 2 in
  g ← empty_graph (rows * cols);
  g ← for_each (init_node desc cols) (dict_keys g) g;
  Ok {| rows := rows; cols := cols; the_graph := g |}.

(** The chain of comparisons that turns the difference of two consecutive
    path nodes into an action. *)
Definition delta_action (cols : Z) (delta : Z) : Z :=
  if bool_decide (delta = -1) then 3        (* West *)
  else if bool_decide (delta = 1) then 2    (* East *)
  else if bool_decide (delta = - cols) then 1  (* North *)
  else 0.                                   (* South *)

(** [for node in range(len(path) - 1): ... actions.append(...)] *)
Definition path_actions (cols : Z) (path : list Z) : result (list Z) :=
  for_each (λ actions node,
              b ← getitem path (node + 1)%nat;
              a ← getitem path node;
              Ok (actions ++ [delta_action cols (b - a)]))
           (seq 0 (length path - 1)%nat) [].

(** [self.cors_to_node( *origin )]: the coordinate must unpack to two
    arguments. *)
Definition cors_to_node_unpack (self : t) (cor : list Z) : result Z :=
  match cor with
  | [row; col] => Ok (cors_to_node self row col)
  | _ => Raise TypeError
  end.

(** The same loop by recursion on the path. *)
Fixpoint decode (cols : Z) (path : list Z) : list Z :=
  match path with
  | a :: (b :: _) as rest => delta_action cols (b - a) :: decode cols rest
  | _ => []
  end.

(** Two nodes that are next to each other on a grid of [cols] columns:
    one row apart in the same column, or one column apart in the same
    row. *)
Definition grid_adjacent (cols : Z) (u v : Z) : Prop :=
  v = u + cols ∨ u = v + cols ∨
  (v = u + 1 ∧ u `mod` cols + 1 < cols) ∨
  (u = v + 1 ∧ v `mod` cols + 1 < cols).

(** The last character of every row of the map is not an open passage. *)
Definition right_border_closed (desc : list string) (cols : Z) : Prop :=
  ∀ r, desc_at desc r (2 * cols) ≠ Ok ":"%char.

(** The coordinate names a cell of the grid. *)
Definition in_grid (self : t) (cor : list Z) : Prop :=
  ∃ row col, cor = [row; col] ∧ 0 ≤ row < rows self ∧ 0 ≤ col < cols self.

(** What [__init__] tests at the cell of node [i]: the character below
    the cell is not ['-'], the character to its right is [':']. *)
Definition south_open (desc : list string) (cols : Z) (i : Z) : Prop :=
  ∃ c, desc_at desc (i `div` cols + 2) (i `mod` cols * 2 + 1) = Ok c ∧
       c ≠ "-"%char.

Definition east_open (desc : list string) (cols : Z) (i : Z) : Prop :=
  desc_at desc (i `div` cols + 1) (i `mod` cols * 2 + 2) = Ok ":"%char.

(** The edges that the turn of node [u] asks for. *)
Definition map_edge (desc : list string) (cols : Z) (u v : Z) : Prop :=
  (v = u + cols ∧ south_open desc cols u) ∨ (v = u + 1 ∧ east_open desc cols u).

(** Every row of the map reaches past the last cell of a grid of [cols]
    columns, and the row under the grid is a closed border. *)
Definition rows_cover (desc : list string) (cols : Z) : Prop :=
  Forall (λ row, 2 * cols < Z.of_nat (String.length row)) desc.

Definition bottom_border_closed (desc : list string) (rows cols : Z) : Prop :=
  ∀ col, 0 ≤ col < cols → desc_at desc (rows + 1) (col * 2 + 1) = Ok "-"%char.

Section get_path.

(** [nx.shortest_path] is library code: the embedding takes it as a
    parameter. *)
Variable shortest_path : graph → Z → Z → result (list Z).

Definition get_path (self : t) (origin target : list Z)
    : result (list (list Z) * list Z) :=
  node_origin ← cors_to_node_unpack self origin;
  node_target ← cors_to_node_unpack self target;
  if bool_decide (node_origin = node_target) then Ok ([], [])
  else
    path ← shortest_path (the_graph self) node_origin node_target;
    cord_path ← map_result (node_to_cors self) path;
    actions ← path_actions (cols self) path;
    Ok (drop 1 cord_path, actions).

End get_path.

End EnvGraph.

(** ** networkx: shortest paths without weights *)

Module Networkx.

Import EnvGraph.

(** *** A search from the source alone

    Breadth-first search by levels, each frontier entry carrying its node
    and the reversed path that led to it. *)

Fixpoint visit_neighbors (u : Z) (before : list Z) (nbrs : list Z)
    (visited : list Z) (next : list (Z * list Z))
    : list Z * list (Z * list Z) :=
  match nbrs with
  | [] => (visited, next)
  | v :: nbrs' =>
      if bool_decide (v ∈ visited)
      then visit_neighbors u before nbrs' visited next
      else visit_neighbors u before nbrs' (v :: visited) (next ++ [(v, u :: before)])
  end.

Fixpoint next_level (g : graph) (frontier : list (Z * list Z))
    (visited : list Z) (next : list (Z * list Z))
    : list Z * list (Z * list Z) :=
  match frontier with
  | [] => (visited, next)
  | (u, before) :: frontier' =>
      let '(visited, next) :=
        visit_neighbors u before (neighbors g u) visited next in
      next_level g frontier' visited next
  end.

Fixpoint bfs (fuel : nat) (g : graph) (target : Z)
    (frontier : list (Z * list Z)) (visited : list Z) : result (list Z) :=
  match fuel with
  | O => Raise NetworkXNoPath
  | S fuel' =>
      match List.find (λ e, bool_decide (e.1 = target)) frontier with
      | Some (u, before) => Ok (reverse (u :: before))
      | None =>
          match frontier with
          | [] => Raise NetworkXNoPath
          | _ :: _ =>
              let '(visited, next) := next_level g frontier visited [] in
              bfs fuel' g target next visited
          end
      end
  end.

(** It follows the adjacency lists forwards only, so it finds shortest
    paths also where the lists are not symmetric. *)
Definition bfs_shortest_path (g : graph) (source target : Z) : result (list Z) :=
  if has_node g source && has_node g target
  then bfs (2 + length (concat g.*2)) g target [(source, [])] [source]
  else Raise NodeNotFound.

(** *** [nx.shortest_path(G, source, target)]

    Without weights networkx answers with [bidirectional_shortest_path]:
    two searches, one from each end, that take turns level by level, the
    one with the shorter fringe first and the forward one on a tie.  The
    dictionaries [pred] and [succ] map a node to the node it was reached
    from, the end points to [None]. *)
Abbreviation links := (list (Z * option Z)) (only parsing).

(** [for w in G.adj[v]]: [mine] is the dictionary of the direction that
    searches, [other] the one of the opposite direction.  The result is
    the new fringe and dictionary, or the node where the searches met. *)
Fixpoint scan_neighbors (v : Z) (nbrs : list Z) (fringe : list Z)
    (mine other : links) : (list Z * links) + (links * Z) :=
  match nbrs with
  | [] => inl (fringe, mine)
  | w :: nbrs' =>
      let '(fringe, mine) :=
        if dict_mem w mine then (fringe, mine)
        else (fringe ++ [w], dict_setitem w (Some v) mine) in
      if dict_mem w other then inr (mine, w)
      else scan_neighbors v nbrs' fringe mine other
  end.

(** [for v in this_level] *)
Fixpoint scan_level (g : graph) (this_level : list Z) (fringe : list Z)
    (mine other : links) : (list Z * links) + (links * Z) :=
  match this_level with
  | [] => inl (fringe, mine)
  | v :: this_level' =>
      match scan_neighbors v (neighbors g v) fringe mine other with
      | inl (fringe, mine) => scan_level g this_level' fringe mine other
      | inr found => inr found
      end
  end.

(** [while forward_fringe and reverse_fringe].  A turn that does not end
    the search adds a node to one of the dictionaries or empties a fringe,
    so the loop ends within the turns given by [search_fuel]. *)
Fixpoint search_loop (fuel : nat) (g : graph) (pred succ : links)
    (forward_fringe reverse_fringe : list Z) : result (links * links * Z) :=
  match fuel with
  | O => Raise NetworkXNoPath
  | S fuel' =>
      match forward_fringe, reverse_fringe with
      | [], _ | _, [] => Raise NetworkXNoPath
      | _ :: _, _ :: _ =>
          if bool_decide (length forward_fringe ≤ length reverse_fringe)
          then
            match scan_level g forward_fringe [] pred succ with
            | inl (fringe, pred) => search_loop fuel' g pred succ fringe reverse_fringe
            | inr (pred, w) => Ok (pred, succ, w)
            end
          else
            match scan_level g reverse_fringe [] succ pred with
            | inl (fringe, succ) => search_loop fuel' g pred succ forward_fringe fringe
            | inr (succ, w) => Ok (pred, succ, w)
            end
      end
  end.

Definition search_fuel (g : graph) : nat := 2 * length (concat g.*2) + 4.

(** [_bidirectional_pred_succ] *)
Definition bidirectional_pred_succ (g : graph) (source target : Z)
    : result (links * links * Z) :=
  if bool_decide (target = source)
  then Ok ([(target, None)], [(source, None)], source)
  else search_loop (search_fuel g) g [(source, None)] [(target, None)]
         [source] [target].

(** [while w is not None: path.append(w); w = d[w]].  A chain without a
    repeated node is no longer than the dictionary. *)
Fixpoint follow (fuel : nat) (d : links) (w : option Z) : result (list Z) :=
  match w with
  | None => Ok []
  | Some w =>
      match fuel with
      | O => Raise RuntimeError
      | S fuel' =>
          match dict_get w d with
          | Some next => path ← follow fuel' d next; Ok (w :: path)
          | None => Raise KeyError
          end
      end
  end.

(** [bidirectional_shortest_path] *)
Definition bidirectional_shortest_path (g : graph) (source target : Z)
    : result (list Z) :=
  if has_node g source && has_node g target
  then
    '(pred, succ, w) ← bidirectional_pred_succ g source target;
    path ← follow (length pred) pred (Some w);
    let path := reverse path in
    match last path with
    | Some u =>
        match dict_get u succ with
        | Some next => rest ← follow (length succ) succ next; Ok (path ++ rest)
        | None => Raise KeyError
        end
    | None => Raise IndexError
    end
  else Raise NodeNotFound.

Definition shortest_path (g : graph) (source target : Z) : result (list Z) :=
  bidirectional_shortest_path g source target.

(** What the wrapper relies on from [nx.shortest_path].  A path is a
    list of nodes, consecutive ones joined by an edge. *)
Definition is_path (g : graph) (s t : Z) (p : list Z) : Prop :=
  head p = Some s ∧ last p = Some t ∧
  ∀ i u v, p !! i = Some u → p !! S i = Some v → v ∈ neighbors g u.

(** A walk of [n] edges from [s]. *)
Inductive walk (g : graph) (s : Z) : nat → Z → Prop :=
  | walk_here : walk g s 0 s
  | walk_step n u v : walk g s n u → v ∈ neighbors g u → walk g s (S n) v.

(** The state of the search when it starts on level [k]: the frontier
    holds paths of [k] edges, every node within [k] edges is marked, the
    marked nodes outside the frontier have all their neighbours marked,
    and the target was not met on an earlier level. *)
Definition bfs_invariant (g : graph) (s t : Z) (k : nat)
    (frontier : list (Z * list Z)) (visited : list Z) : Prop :=
  (∀ u before, (u, before) ∈ frontier →
     is_path g s u (reverse (u :: before)) ∧ length before = k) ∧
  (∀ n v, n ≤ k → walk g s n v → v ∈ visited) ∧
  (∀ v, v ∈ visited →
     v ∈ frontier.*1 ∨ ∀ w, w ∈ neighbors g v → w ∈ visited) ∧
  (∀ n, walk g s n t → k ≤ n) ∧
  (∀ v, v ∈ visited → v ∈ frontier.*1 ∨ v ≠ t) ∧
  NoDup visited ∧
  visited ⊆ s :: concat g.*2 ∧
  (frontier ≠ [] → k < length visited).

Definition shortest_path_spec (sp : graph → Z → Z → result (list Z)) : Prop :=
  ∀ g s t q,
    has_node g s = true → has_node g t = true → is_path g s t q →
    ∃ p, sp g s t = Ok p ∧ is_path g s t p ∧
         ∀ q', is_path g s t q' → length p ≤ length q'.

(** The adjacency of a networkx [Graph] is symmetric: [add_edge] enters
    both directions. *)
Definition undirected (g : graph) : Prop :=
  Forall (λ u, Forall (λ v, u ∈ neighbors g v) (neighbors g u)) (dict_keys g).

#[export] Instance undirected_dec (g : graph) : Decision (undirected g) :=
  ltac:(unfold undirected; apply _).

(** The chain of a node in a search dictionary: the node, the node it was
    reached from, and so on up to the end point of the search. *)
Inductive chain (d : links) : Z → list Z → Prop :=
  | chain_end w : dict_get w d = Some None → chain d w [w]
  | chain_step w v l :
      dict_get w d = Some (Some v) → chain d v l → chain d w (w :: l).

(** A node of a search dictionary lies within [k] edges of the end point
    along its chain. *)
Definition reached (d : links) (k : nat) (w : Z) : Prop :=
  ∃ l, chain d w l ∧ length l ≤ S k ∧ length l ≤ length d.

(** The dictionary of the search from the end point [r]: only [r] maps
    to [None], every other node was met among the neighbours of the node
    it maps to, and lies within [k] edges of [r]. *)
Definition search_tree (g : graph) (r : Z) (k : nat) (d : links) : Prop :=
  NoDup (dict_keys d) ∧
  dict_keys d ⊆ r :: concat g.*2 ∧
  (∀ w, dict_get w d = Some None → w = r) ∧
  (∀ w v, dict_get w d = Some (Some v) → w ∈ neighbors g v) ∧
  (∀ w, w ∈ dict_keys d → reached d k w).

(** One direction of the search when it starts on level [k]: the
    dictionary holds every node within [k] edges of the end point, and
    its nodes outside the fringe have all their neighbours in it. *)
Definition search_invariant (g : graph) (r : Z) (k : nat) (d : links)
    (fringe : list Z) : Prop :=
  search_tree g r k d ∧
  fringe ⊆ dict_keys d ∧
  (∀ n v, n ≤ k → walk g r n v → v ∈ dict_keys d) ∧
  (∀ v, v ∈ dict_keys d →
     v ∈ fringe ∨ ∀ w, w ∈ neighbors g v → w ∈ dict_keys d).

(** The searching direction in the middle of level [k]: the nodes of
    the level lie within [k] edges, the new ones within [k + 1]; the
    dictionary holds the nodes it had when the level started ([keys]) and
    then the new fringe, and none of them is in the dictionary of the
    opposite direction. *)
Definition scan_invariant (g : graph) (r : Z) (k : nat) (other : links)
    (level keys fringe : list Z) (mine : links) : Prop :=
  search_tree g r (S k) mine ∧
  (∀ v, v ∈ level → reached mine k v) ∧
  (∀ v, v ∈ dict_keys mine → v ∉ dict_keys other) ∧
  dict_keys mine = keys ++ fringe.

(** [nx.shortest_path] on every networkx graph.  An adjacency list that
    is not symmetric is no networkx graph: there the two-sided search,
    which takes the neighbours of a node for its predecessors, has no
    meaning, and the search from the source completes the routine.  The
    theorems on [get_path] are used with this routine; on the graph of a
    map it is [shortest_path]. *)
Definition graph_shortest_path (g : graph) (source target : Z)
    : result (list Z) :=
  if decide (undirected g) then shortest_path g source target
  else bfs_shortest_path g source target.

End Networkx.

(** ** SocailTaxiWrapper.py: SocialTaxi *)

Module SocialTaxi.

Local Open Scope Z_scope.

(** The environment as the wrapper reads it: the map, the two counts and
    the components of [state] at [TAXIS_LOCATIONS],
    [PASSENGERS_START_LOCATION], [PASSENGERS_DESTINATIONS] and
    [PASSENGERS_STATUS]. *)
Record TaxiEnv : Type := {
  desc : list string;
  num_taxis : nat;
  num_passengers : nat;
  taxis_locations : list (list Z);
  passengers_start_locations : list (list Z);
  passengers_destinations : list (list Z);
  passengers_status : list Z;
}.

Record t : Type := {
  taxi_env : TaxiEnv;
  taxi_index : nat;
  passenger_index : option nat;
  path_cords : list (list Z);
  path_actions : list Z;
  env_graph : EnvGraph.t;
  action_cor_dict : dict (list Z) (list Z);
  action_counter : nat;
}.

Definition set_path (self : t) (cords : list (list Z)) (actions : list Z) : t :=
  {| taxi_env := taxi_env self; taxi_index := taxi_index self;
     passenger_index := passenger_index self;
     path_cords := cords; path_actions := actions;
     env_graph := env_graph self; action_cor_dict := action_cor_dict self;
     action_counter := action_counter self |}.

Definition set_passenger (self : t) (passenger_index : option nat) : t :=
  {| taxi_env := taxi_env self; taxi_index := taxi_index self;
     passenger_index := passenger_index;
     path_cords := path_cords self; path_actions := path_actions self;
     env_graph := env_graph self; action_cor_dict := action_cor_dict self;
     action_counter := action_counter self |}.

(** [SocialTaxi.__init__] *)
Definition init (taxi_env : TaxiEnv) (taxi_index : nat)
    (passenger_index : option nat) : result t :=
  env_graph ← EnvGraph.init (desc taxi_env);
  _ ← getitem (taxis_locations taxi_env) taxi_index;
  Ok {| taxi_env := taxi_env; taxi_index := taxi_index;
        passenger_index := passenger_index;
        path_cords := []; path_actions := [];
        env_graph := env_graph; action_cor_dict := [];
        action_counter := 0 |}.

(** Truth value of a destination argument ([None] and the empty list are
    false) and of a passenger index ([None] and [0] are false). *)
Definition dest_truthy (dest : option (list Z)) : bool :=
  match dest with Some (_ :: _) => true | _ => false end.

Definition index_truthy (i : option nat) : bool :=
  match i with Some (S _) => true | _ => false end.

(** [env_state[...][self.passenger_index]]: [None] is not an index. *)
Definition index_by {A} (l : list A) (i : option nat) : result A :=
  match i with Some i => getitem l i | None => Raise TypeError end.

Section with_shortest_path.

Variable shortest_path : EnvGraph.graph → Z → Z → result (list Z).

Definition get_path (self : t) (origin target : list Z)
    : result (list (list Z) * list Z) :=
  EnvGraph.get_path shortest_path (env_graph self) origin target.

Definition get_taxi_location (self : t) : result (list Z) :=
  getitem (taxis_locations (taxi_env self)) (taxi_index self).

Definition compute_shortest_path (self : t) (dest : option (list Z)) : result t :=
  current_location ← getitem (taxis_locations (taxi_env self)) (taxi_index self);
  let go (dest : list Z) :=
    '(cord_path, actions) ← get_path self current_location dest;
    Ok (set_path self cord_path actions) in
  if negb (dest_truthy dest) then
    if index_truthy (passenger_index self) then
      dest ← index_by (passengers_destinations (taxi_env self)) (passenger_index self);
      go dest
    else Ok (set_path self [] [])
  else go (default [] dest).

Definition compute_optimal_path (self : t) : result (list (list Z) * list Z) :=
  current_location ← get_taxi_location self;
  passenger_start_location ←
    index_by (passengers_start_locations (taxi_env self)) (passenger_index self);
  passenger_destination ←
    index_by (passengers_destinations (taxi_env self)) (passenger_index self);
  '(optimal_path_cor_to_passenger, optimal_actions_to_passenger) ←
    get_path self current_location passenger_start_location;
  '(optimal_path_cor_to_destination, optimal_actions_to_destination) ←
    get_path self passenger_start_location passenger_destination;
  Ok (optimal_path_cor_to_passenger ++ optimal_path_cor_to_destination,
      optimal_actions_to_passenger ++ optimal_actions_to_destination).

(** [len(self.env_graph.get_path(cor, passenger_destination)[0])] *)
Definition path_length (self : t) (cor passenger_destination : list Z) : result nat :=
  '(cords, _) ← get_path self cor passenger_destination; Ok (length cords).

(** The loop of [get_optimal_socail_drop_off] over the optimal path. *)
Definition drop_off_step (self : t) (passenger_destination : list Z)
    (best : list Z * nat) (cor : list Z) : result (list Z * nat) :=
  path_length ← path_length self cor passenger_destination;
  if bool_decide (path_length ≤ best.2)%nat then Ok (cor, path_length) else Ok best.

Definition get_optimal_socail_drop_off (self : t) (other_passengers_index : nat)
    : result (list Z * nat) :=
  passenger_destination ←
    getitem (passengers_destinations (taxi_env self)) other_passengers_index;
  '(optimal_path_cor, optimal_path_actions) ← compute_optimal_path self;
  last_cor ← match last optimal_path_cor with
             | Some c => Ok c
             | None => Raise IndexError
             end;
  best_path_length ← path_length self last_cor passenger_destination;
  for_each (drop_off_step self passenger_destination)
           optimal_path_cor (last_cor, best_path_length).

(** The result of [get_close_passengers]:
    [(pick_up_cor, drop_off_cor, social_passenger_index)]. *)
Abbreviation opportunity :=
  (option (list Z) * option (list Z) * option nat)%type (only parsing).

(** The loop of [get_close_passengers] over
    [range(self.taxi_env.num_passengers)], from the passenger indices still
    to visit and the current values of the three local variables; [return]
    and [break] both leave the loop. *)
Fixpoint scan_passengers (self : t) (current_cor : list Z) (threshold : Z)
    (others : list nat) (found : opportunity) : result opportunity :=
  match others with
  | [] => Ok found
  | other_passenger_index :: others' =>
      let '(pick_up_cor, drop_off_cor, social_passenger_index) := found in
      waiting ←
        (if bool_decide (Some other_passenger_index ≠ passenger_index self) then
           status ← getitem (passengers_status (taxi_env self)) other_passenger_index;
           Ok (bool_decide (status = 2))
         else Ok false);
      if waiting : bool then
        social_passenger_location ←
          getitem (passengers_start_locations (taxi_env self)) other_passenger_index;
        social_passenger_destination ←
          getitem (passengers_destinations (taxi_env self)) other_passenger_index;
        let social_passenger_index := Some other_passenger_index in
        '(cor_path, actions_path) ←
          get_path self current_cor social_passenger_location;
        social_passengers_current_distance_to_destination ←
          path_length self social_passenger_location social_passenger_destination;
        if bool_decide (Z.of_nat (length actions_path) ≤ threshold) then
          let pick_up_cor := Some social_passenger_location in
          '(drop_off_cor, distance_from_drop_off) ←
            get_optimal_socail_drop_off self other_passenger_index;
          if bool_decide (social_passengers_current_distance_to_destination
                          ≤ distance_from_drop_off)%nat
          then Ok (None, None, None)
          else Ok (pick_up_cor, Some drop_off_cor, social_passenger_index)
        else
          scan_passengers self current_cor threshold others'
            (pick_up_cor, drop_off_cor, social_passenger_index)
      else
        scan_passengers self current_cor threshold others' found
  end.

Definition get_close_passengers (self : t) (current_cor : list Z) (threshold : Z)
    : result opportunity :=
  scan_passengers self current_cor threshold
    (seq 0 (num_passengers (taxi_env self))) (None, None, None).

(** The passenger [j] is one the loop of [get_close_passengers] passes
    over without stopping: the taxi's own passenger, a passenger who is
    not waiting, or a waiting passenger whose pick-up is further than the
    threshold. *)
Definition passed_over (self : t) (current_cor : list Z) (threshold : Z)
    (j : nat) : Prop :=
  Some j = passenger_index self ∨
  (∃ status, passengers_status (taxi_env self) !! j = Some status ∧ status ≠ 2) ∨
  (Some j ≠ passenger_index self ∧
   passengers_status (taxi_env self) !! j = Some 2 ∧
   ∃ loc dest cords actions base,
     passengers_start_locations (taxi_env self) !! j = Some loc ∧
     passengers_destinations (taxi_env self) !! j = Some dest ∧
     get_path self current_cor loc = Ok (cords, actions) ∧
     path_length self loc dest = Ok base ∧
     threshold < Z.of_nat (length actions)).

(** The passenger [i] is a candidate: another passenger, waiting at [loc]
    for [dest], [base] steps away from it, whose pick-up is within the
    threshold. *)
Definition candidate (self : t) (current_cor : list Z) (threshold : Z)
    (i : nat) (loc dest : list Z) (base : nat) : Prop :=
  Some i ≠ passenger_index self ∧
  passengers_status (taxi_env self) !! i = Some 2 ∧
  passengers_start_locations (taxi_env self) !! i = Some loc ∧
  passengers_destinations (taxi_env self) !! i = Some dest ∧
  path_length self loc dest = Ok base ∧
  ∃ cords actions,
    get_path self current_cor loc = Ok (cords, actions) ∧
    Z.of_nat (length actions) ≤ threshold.

End with_shortest_path.

(** [self.previous_coordinate] and [self.previous_action], the two fields
    that only [get_next_step] writes.  [__init__] sets them to the taxi's
    location and to [None]. *)
Record history : Type := {
  previous_coordinate : list Z;
  previous_action : option Z;
}.

(** [get_next_step]: the object after the call and the value returned,
    [None] when one of the two lists is empty. *)
Definition get_next_step (self : t) (prev : history)
    : t * history * option (list Z * Z) :=
  match path_cords self, path_actions self with
  | next_coordinate :: cords, next_action :: actions =>
      (set_path self cords actions,
       {| previous_coordinate := next_coordinate;
          previous_action := Some next_action |},
       Some (next_coordinate, next_action))
  | _, _ => (self, prev, None)
  end.

(** [n] calls of [get_next_step] in a row, with the values returned. *)
Fixpoint next_steps (n : nat) (self : t) (prev : history)
    : t * history * list (option (list Z * Z)) :=
  match n with
  | O => (self, prev, [])
  | S n' =>
      let '(self, prev, step) := get_next_step self prev in
      let '(self, prev, steps) := next_steps n' self prev in
      (self, prev, step :: steps)
  end.

Definition set_action_cor_dict (self : t) (d : dict (list Z) (list Z)) : t :=
  {| taxi_env := taxi_env self; taxi_index := taxi_index self;
     passenger_index := passenger_index self;
     path_cords := path_cords self; path_actions := path_actions self;
     env_graph := env_graph self; action_cor_dict := d;
     action_counter := action_counter self |}.

(** [add_action_to_cor]: the key is [tuple(cor)]; the list of an existing
    key is appended to, a new key gets a list of its own. *)
Definition add_action_to_cor (self : t) (cor : list Z) (action : Z) : t :=
  let d := action_cor_dict self in
  if dict_mem cor d
  then set_action_cor_dict self
         (dict_setitem cor (default [] (dict_get cor d) ++ [action]) d)
  else set_action_cor_dict self (dict_setitem cor [action] d).


End SocialTaxi.

(** ** Vocabulary of the statements *)

(** The cost of an assignment, read off the matrix over the unbounded
    integers, and the lexicographic order of index tuples. *)
(** ** TaskAllocator.py: the distance matrix and the hand-over to the taxis *)

Module TaskAllocatorEnv.

Import SocialTaxi.

Section with_get_path.

(** The graph of [TaskAllocator] is built by the [EnvGraph] of
    [TaxiWrapper.taxi_wrapper], which is not among the sources: the
    [get_path] of [self.env_graph] is a parameter. *)
Variable get_path : list Z → list Z → result (list (list Z) * list Z).
Variable taxi_env : TaxiEnv.

Definition compute_shortest_path_length (start_point dest_point : list Z)
    : result nat :=
  '(cord_path, _actions) ← get_path start_point dest_point;
  Ok (length cord_path).

Definition compute_total_taxi_travel_distance (taxi_ind passenger_ind : nat)
    : result nat :=
  taxi_location ← getitem (taxis_locations taxi_env) taxi_ind;
  passenger_start_location ←
    getitem (passengers_start_locations taxi_env) passenger_ind;
  passenger_dest ← getitem (passengers_destinations taxi_env) passenger_ind;
  taxi_to_passenger_distance ←
    compute_shortest_path_length taxi_location passenger_start_location;
  passenger_start_to_dest_distance ←
    compute_shortest_path_length passenger_start_location passenger_dest;
  Ok (taxi_to_passenger_distance + passenger_start_to_dest_distance)%nat.

(** [distances[taxi_ind, passenger_ind] = total_distance] on the array
    that [np.full((num_taxis, num_passengers), 0)] made; the loops only
    visit cells of the array.  The value is a sum of two list lengths,
    which fits a cell. *)
Definition matrix_set (distances : list (list Z)) (taxi_ind passenger_ind : nat)
    (total_distance : nat) : list (list Z) :=
  alter (λ row, <[passenger_ind := Z.of_nat total_distance]> row)
        taxi_ind distances.

Definition distances_to_all_passengers : result (list (list Z)) :=
  for_each
    (λ distances passenger_ind,
       passenger_start_loc ←
         getitem (passengers_start_locations taxi_env) passenger_ind;
       passenger_dest_loc ←
         getitem (passengers_destinations taxi_env) passenger_ind;
       passenger_start_to_dest_distance ←
         compute_shortest_path_length passenger_start_loc passenger_dest_loc;
       for_each
         (λ distances taxi_ind,
            taxi_initial_loc ← getitem (taxis_locations taxi_env) taxi_ind;
            taxi_to_passenger_distance ←
              compute_shortest_path_length taxi_initial_loc passenger_start_loc;
            let total_distance :=
              (taxi_to_passenger_distance + passenger_start_to_dest_distance)%nat in
            Ok (matrix_set distances taxi_ind passenger_ind total_distance))
         (seq 0 (num_taxis taxi_env)) distances)
    (seq 0 (num_passengers taxi_env))
    (replicate (num_taxis taxi_env) (replicate (num_passengers taxi_env) 0%Z)).

End with_get_path.

(** [allocate_passengers] writes into the taxi objects of the caller:
    [taxis] is a list of references into a store of taxis, and the store
    comes back with the outcome, also when the loop stops on a missing
    key. *)
Fixpoint allocate_loop (allocation : dict nat nat) (taxis : list nat)
    (indices : list nat) (h : list SocialTaxi.t)
    : list SocialTaxi.t * result unit :=
  match indices with
  | [] => (h, Ok tt)
  | taxi_ind :: indices' =>
      match dict_get taxi_ind allocation with
      | None => (h, Raise KeyError)
      | Some passenger_ind =>
          match taxis !! taxi_ind with
          | None => (h, Raise IndexError)
          | Some r =>
              allocate_loop allocation taxis indices'
                (alter (λ taxi, set_passenger taxi (Some passenger_ind)) r h)
          end
      end
  end.

Definition allocate_passengers (allocation : dict nat nat) (taxis : list nat)
    (h : list SocialTaxi.t) : list SocialTaxi.t * result unit :=
  allocate_loop allocation taxis (seq 0 (length taxis)) h.

End TaskAllocatorEnv.

Module Assignment.

Definition cost_at (M : list (list Z)) (tp : nat * nat) : Z :=
  default 0%Z (M !! tp.1 ≫= (.!! tp.2)).

Definition pairs_cost (M : list (list Z)) (alloc : list (nat * nat)) : Z :=
  foldr (λ tp acc, (cost_at M tp + acc)%Z) 0%Z alloc.

(** Total cost of giving passenger [sigma[t]] to taxi [t]. *)
Definition total_cost (M : list (list Z)) (sigma : list nat) : Z :=
  pairs_cost M (zip (seq 0 (length sigma)) sigma).

Inductive lex_lt : list nat → list nat → Prop :=
  | lex_lt_nil y l : lex_lt [] (y :: l)
  | lex_lt_head x y l1 l2 : x < y → lex_lt (x :: l1) (y :: l2)
  | lex_lt_tail x l1 l2 : lex_lt l1 l2 → lex_lt (x :: l1) (x :: l2).

(** The matrix has [nt] rows of [np] cells. *)
Definition shape (nt np : nat) (M : list (list Z)) : Prop :=
  length M = nt ∧ Forall (λ row, length row = np) M.

(** Every cell is a distance between [0] and [B]. *)
Definition bounded (B : Z) (M : list (list Z)) : Prop :=
  Forall (Forall (λ c, 0 ≤ c ≤ B)%Z) M.

End Assignment.

(** Modelled from the spec: the moves of the environment, which is not part
    of the wrapper (action vocabulary: 0 south, 1 north, 2 east, 3 west),
    and the replay of a list of actions from a coordinate. *)
Module Replay.

Local Open Scope Z_scope.

Definition apply_action (cor : list Z) (action : Z) : list Z :=
  match cor with
  | [row; col] =>
      if bool_decide (action = 0) then [row + 1; col]
      else if bool_decide (action = 1) then [row - 1; col]
      else if bool_decide (action = 2) then [row; col + 1]
      else if bool_decide (action = 3) then [row; col - 1]
      else cor
  | _ => cor
  end.

Fixpoint replay (cor : list Z) (actions : list Z) : list (list Z) :=
  match actions with
  | [] => []
  | a :: actions' =>
      let cor' := apply_action cor a in cor' :: replay cor' actions'
  end.

End Replay.

(** The auction, in the words of the specification: the winner of a
    passenger is a taxi no earlier passenger was given, whose bid is the
    lowest among such taxis, and the lowest index among those that bid as
    low. *)
Module Auction.

(** The bid of taxi [t] on passenger [p] in the store the caller passes. *)
Definition bid_of (h : TaskAllocator.store) (biddings : list TaskAllocator.ref)
    (p t : nat) : Z :=
  match biddings !! p with
  | Some r => match h !! r with
              | Some d => default 0%Z (dict_get t d)
              | None => 0%Z
              end
  | None => 0%Z
  end.

Definition lowest_free_bid (n : nat) (bid : nat → Z) (assigned : list nat)
    (w : nat) : Prop :=
  w < n ∧ (w ∉ assigned) ∧
  ∀ t, t < n → (t ∉ assigned) → (bid w < bid t)%Z ∨ (bid w = bid t ∧ w ≤ t).

(** The input that [get_taxis_bids] builds: one dictionary object of its
    own per passenger, each with the taxis [0..n-1] as keys, in that
    order. *)
Definition wellformed (n : nat) (biddings : list TaskAllocator.ref)
    (h : TaskAllocator.store) : Prop :=
  length biddings = n ∧ NoDup biddings ∧
  ∀ p r, biddings !! p = Some r → ∃ d, h !! r = Some d ∧ dict_keys d = seq 0 n.

(** The same with [m] passengers and [n] taxis. *)
Definition wellformed_bids (m n : nat) (biddings : list TaskAllocator.ref)
    (h : TaskAllocator.store) : Prop :=
  length biddings = m ∧ NoDup biddings ∧
  ∀ p r, biddings !! p = Some r → ∃ d, h !! r = Some d ∧ dict_keys d = seq 0 n.

(** The last loop of [get_taxis_bids]: one new dictionary per row of the
    bid matrix, appended to the list that is returned. *)
Definition bids_on_passengers (taxis_biddings : list (list Z))
    : list TaskAllocator.ref * TaskAllocator.store :=
  (seq 0 (length taxis_biddings), TaskAllocator.bids_dict <$> taxis_biddings).


End Auction.

(** ** Small maps and scenes on which the code is run *)

Module Scenarios.

Local Open Scope Z_scope.

(** One row of five cells, three rows of three cells, and one column of
    two cells, all without inner walls. *)
Definition row_map : list string :=
  ["+---------+"; "| : : : : |"; "+---------+"]%string.

Definition square_map : list string :=
  ["+-----+"; "| : : |"; "| : : |"; "| : : |"; "+-----+"]%string.

Definition column_map : list string :=
  ["+-+"; "| |"; "| |"; "+-+"]%string.

Definition no_graph : EnvGraph.t :=
  {| EnvGraph.rows := 0; EnvGraph.cols := 0; EnvGraph.the_graph := [] |}.

Definition graph_of (desc : list string) : EnvGraph.t :=
  match EnvGraph.init desc with Ok g => g | Raise _ => no_graph end.

(** The taxi that [SocialTaxi(taxi_env, taxi_index, passenger_index)]
    builds. *)
Definition taxi (taxi_env : SocialTaxi.TaxiEnv) (taxi_index : nat)
    (passenger_index : option nat) : SocialTaxi.t :=
  {| SocialTaxi.taxi_env := taxi_env; SocialTaxi.taxi_index := taxi_index;
     SocialTaxi.passenger_index := passenger_index;
     SocialTaxi.path_cords := []; SocialTaxi.path_actions := [];
     SocialTaxi.env_graph := graph_of (SocialTaxi.desc taxi_env);
     SocialTaxi.action_cor_dict := []; SocialTaxi.action_counter := 0 |}.

(** On the row: the taxi at the west end, its passenger next to it, and a
    second passenger waiting at the east end, four steps away. *)
Definition far_env : SocialTaxi.TaxiEnv :=
  {| SocialTaxi.desc := row_map;
     SocialTaxi.num_taxis := 1; SocialTaxi.num_passengers := 2;
     SocialTaxi.taxis_locations := [[0; 0]];
     SocialTaxi.passengers_start_locations := [[0; 1]; [0; 4]];
     SocialTaxi.passengers_destinations := [[0; 2]; [0; 3]];
     SocialTaxi.passengers_status := [2; 2] |}.

(** On the row: the taxi at [(0,0)] takes its passenger from [(0,1)] to
    [(0,3)]; a second passenger waits at [(0,2)] for [(0,4)]. *)
Definition near_env : SocialTaxi.TaxiEnv :=
  {| SocialTaxi.desc := row_map;
     SocialTaxi.num_taxis := 1; SocialTaxi.num_passengers := 2;
     SocialTaxi.taxis_locations := [[0; 0]];
     SocialTaxi.passengers_start_locations := [[0; 1]; [0; 2]];
     SocialTaxi.passengers_destinations := [[0; 3]; [0; 4]];
     SocialTaxi.passengers_status := [2; 2] |}.

(** The same scene once the taxi stands on the pick-up of the second
    passenger. *)
Definition near_env_at_pick_up : SocialTaxi.TaxiEnv :=
  {| SocialTaxi.desc := row_map;
     SocialTaxi.num_taxis := 1; SocialTaxi.num_passengers := 2;
     SocialTaxi.taxis_locations := [[0; 2]];
     SocialTaxi.passengers_start_locations := [[0; 1]; [0; 2]];
     SocialTaxi.passengers_destinations := [[0; 3]; [0; 4]];
     SocialTaxi.passengers_status := [2; 2] |}.

(** On the square: the taxi at [(0,0)] takes its passenger from [(0,2)]
    to [(2,2)], along the north and east sides; a second passenger waits
    at [(1,0)] for the centre [(1,1)]. *)
Definition corner_env : SocialTaxi.TaxiEnv :=
  {| SocialTaxi.desc := square_map;
     SocialTaxi.num_taxis := 1; SocialTaxi.num_passengers := 2;
     SocialTaxi.taxis_locations := [[0; 0]];
     SocialTaxi.passengers_start_locations := [[0; 2]; [1; 0]];
     SocialTaxi.passengers_destinations := [[2; 2]; [1; 1]];
     SocialTaxi.passengers_status := [2; 2] |}.

(** On the row: the taxi stands on its passenger, whose destination is
    that same cell; a second passenger waits next to them. *)
Definition spot_env : SocialTaxi.TaxiEnv :=
  {| SocialTaxi.desc := row_map;
     SocialTaxi.num_taxis := 1; SocialTaxi.num_passengers := 2;
     SocialTaxi.taxis_locations := [[0; 0]];
     SocialTaxi.passengers_start_locations := [[0; 0]; [0; 1]];
     SocialTaxi.passengers_destinations := [[0; 0]; [0; 3]];
     SocialTaxi.passengers_status := [2; 2] |}.

(** On the square: two taxis in opposite corners and two passengers. *)
Definition pair_env : SocialTaxi.TaxiEnv :=
  {| SocialTaxi.desc := square_map;
     SocialTaxi.num_taxis := 2; SocialTaxi.num_passengers := 2;
     SocialTaxi.taxis_locations := [[0; 0]; [2; 2]];
     SocialTaxi.passengers_start_locations := [[0; 2]; [1; 0]];
     SocialTaxi.passengers_destinations := [[2; 2]; [1; 1]];
     SocialTaxi.passengers_status := [2; 2] |}.

(** The taxis that [create_taxis_list(env, 2)] builds on it, as the
    objects of a store. *)
Definition pair_taxis : list SocialTaxi.t :=
  [taxi pair_env 0 None; taxi pair_env 1 None].

End Scenarios.
(** * Proofs *)

(** ** The runtime model *)

Section py_lemmas.
Context {K V : Type} `{EqDecision K}.
Implicit Types (d : dict K V) (k : K) (v : V).

Lemma bind_Ok {A B} (m : result A) (f : A → result B) b :
  m ≫= f = Ok b ↔ ∃ a, m = Ok a ∧ f a = Ok b.
Proof. destruct m; simpl; split; [eauto | intros (?&[= ->]&?); done | done | intros (?&?&?); done]. Qed.

Lemma getitem_Ok {A} (l : list A) i a : getitem l i = Ok a ↔ l !! i = Some a.
Proof. unfold getitem. destruct (l !! i); naive_solver. Qed.

Lemma getitem_lt {A} (l : list A) i : i < length l → ∃ a, getitem l i = Ok a ∧ l !! i = Some a.
Proof.
  intros [a Ha]%lookup_lt_is_Some. exists a. by rewrite getitem_Ok.
Qed.

Lemma for_each_app {A S} (body : S → A → result S) l1 l2 s :
  for_each body (l1 ++ l2) s = for_each body l1 s ≫= for_each body l2.
Proof.
  revert s. induction l1 as [|x l1 IH]; intros s; simpl; [done|].
  destruct (body s x); simpl; auto.
Qed.

(** A loop whose body never raises on the elements it visits is a fold. *)
Lemma for_each_foldl {A S} (body : S → A → result S) (step : S → A → S) l s :
  (∀ s x, x ∈ l → body s x = Ok (step s x)) →
  for_each body l s = Ok (foldl step s l).
Proof.
  revert s. induction l as [|x l IH]; intros s Hb; simpl; [done|].
  rewrite Hb by left. simpl. apply IH. intros. apply Hb. by right.
Qed.

Lemma dict_keys_setitem k v d :
  dict_keys (dict_setitem k v d) =
  if decide (k ∈ dict_keys d) then dict_keys d else dict_keys d ++ [k].
Proof.
  unfold dict_keys. induction d as [|[k' v'] d IH]; csimpl.
  - done.
  - destruct (decide (k' = k)) as [->|Hne]; csimpl.
    + by rewrite decide_True by left.
    + rewrite IH. destruct (decide (k ∈ d.*1)) as [Hk|Hk].
      * by rewrite decide_True by (by right).
      * rewrite decide_False; [done|]. rewrite elem_of_cons. by intros [->|?].
Qed.

Lemma dict_setitem_fresh k v d :
  k ∉ dict_keys d → dict_setitem k v d = d ++ [(k, v)].
Proof.
  unfold dict_keys. induction d as [|[k' v'] d IH]; csimpl; [done|].
  rewrite not_elem_of_cons. intros [Hne Hnin].
  rewrite decide_False by done. by rewrite IH.
Qed.

Lemma dict_setitem_NoDup k v d :
  NoDup (dict_keys d) → NoDup (dict_keys (dict_setitem k v d)).
Proof.
  intros Hd. rewrite dict_keys_setitem. case_decide; [done|].
  apply NoDup_app. split_and!; [done| |apply NoDup_singleton].
  intros x Hx ->%list_elem_of_singleton. done.
Qed.

Lemma dict_setitem_nonempty k v d : dict_setitem k v d ≠ [].
Proof. destruct d as [|[??]?]; simpl; [done|]. by case_decide. Qed.

(** A comprehension over pairs with distinct keys is the list of pairs. *)
Lemma dict_of_pairs_NoDup (l : list (K * V)) :
  NoDup l.*1 → dict_of_pairs l = l.
Proof.
  unfold dict_of_pairs. intros Hl.
  cut (∀ d0 : dict K V, NoDup (d0 ++ l).*1 →
         foldl (λ d kv, dict_setitem kv.1 kv.2 d) d0 l = d0 ++ l).
  { intros Hc. apply (Hc []). done. }
  clear Hl. induction l as [|[k v] l IH]; intros d0 Hnd; simpl.
  - by rewrite app_nil_r.
  - rewrite dict_setitem_fresh.
    + rewrite IH; rewrite <-app_assoc; done.
    + rewrite fmap_app in Hnd. apply NoDup_app in Hnd as (_ & Hd & _).
      intros Hk. apply (Hd k Hk). simpl. left.
Qed.

Lemma dict_keys_of_pairs_subseteq (l : list (K * V)) d0 :
  dict_keys (foldl (λ d kv, dict_setitem kv.1 kv.2 d) d0 l) ⊆ dict_keys d0 ++ l.*1.
Proof.
  revert d0. induction l as [|[k v] l IH]; intros d0; simpl.
  - by rewrite app_nil_r.
  - etrans; [apply IH|]. rewrite dict_keys_setitem. simpl.
    case_decide; set_solver.
Qed.

Lemma dict_of_pairs_nonempty (l : list (K * V)) :
  l ≠ [] → dict_of_pairs l ≠ [].
Proof.
  destruct l as [|x l _] using rev_ind; [done|]. intros _.
  unfold dict_of_pairs. rewrite foldl_snoc. apply dict_setitem_nonempty.
Qed.

End py_lemmas.

(** [min] returns the first key that holds the least value. *)
Lemma min_loop_spec {K} (best : K) (bv : Z) (d : dict K Z) :
  (min_loop best bv d = best ∧ Forall (λ e, bv ≤ e.2)%Z d) ∨
  (∃ d1 v d2, d = d1 ++ (min_loop best bv d, v) :: d2 ∧ (v < bv)%Z ∧
     Forall (λ e, v < e.2)%Z d1 ∧ Forall (λ e, v ≤ e.2)%Z d2).
Proof.
  revert best bv. induction d as [|[k v] d IH]; intros best bv; simpl.
  - left. split; [done|constructor].
  - destruct (Z.ltb_spec v bv) as [Hlt|Hge].
    + right. destruct (IH k v) as [[Hk Hall]|(d1 & w & d2 & Hd & Hw & H1 & H2)].
      * exists [], v, d. rewrite Hk. split_and!; [done|done|constructor|done].
      * exists ((k, v) :: d1), w, d2. split_and!.
        -- simpl. by rewrite <-Hd.
        -- lia.
        -- constructor; [simpl; lia|done].
        -- done.
    + destruct (IH best bv) as [[Hk Hall]|(d1 & w & d2 & Hd & Hw & H1 & H2)].
      * left. split; [done|]. constructor; [simpl; lia|done].
      * right. exists ((k, v) :: d1), w, d2. split_and!.
        -- simpl. by rewrite <-Hd.
        -- done.
        -- constructor; [simpl; lia|done].
        -- done.
Qed.

Lemma dict_min_key_spec {K} (d : dict K Z) :
  d ≠ [] →
  ∃ k d1 v d2, dict_min_key d = Ok k ∧ d = d1 ++ (k, v) :: d2 ∧
    Forall (λ e, v < e.2)%Z d1 ∧ Forall (λ e, v ≤ e.2)%Z d2.
Proof.
  destruct d as [|[k v] d]; [done|]. intros _. simpl.
  destruct (min_loop_spec k v d) as [[Hk Hall]|(d1 & w & d2 & Hd & Hw & H1 & H2)].
  - exists k, [], v, d. rewrite Hk. split_and!; [done|done|constructor|done].
  - eexists _, ((k, v) :: d1), w, d2. split_and!; [done| | |done].
    + simpl. by rewrite <-Hd.
    + constructor; [simpl; lia|done].
Qed.

(** ** [itertools.permutations] *)

Section permutations.
Context {A : Type}.
Implicit Types (l pool rest : list A).

Lemma elem_of_selections x rest l :
  (x, rest) ∈ selections l ↔ ∃ l1 l2, l = l1 ++ x :: l2 ∧ rest = l1 ++ l2.
Proof.
  revert rest. induction l as [|y l IH]; intros rest; csimpl.
  - split; [by intros ?%elem_of_nil|]. intros (l1 & l2 & Hl & _). by destruct l1.
  - rewrite elem_of_cons, list_elem_of_fmap. split.
    + intros [[= -> ->]|([x' r'] & [= -> ->] & Hin)].
      * by exists [], l.
      * apply IH in Hin as (l1 & l2 & -> & ->). by exists (y :: l1), l2.
    + intros (l1 & l2 & Hl & ->). destruct l1 as [|z l1]; simplify_eq/=.
      * by left.
      * right. exists (x, l1 ++ l2). split; [done|]. apply IH. eauto.
Qed.

Lemma elem_of_permutations_upto_S r pool sigma :
  sigma ∈ permutations_upto (S r) pool ↔
  ∃ x rest sigma', (x, rest) ∈ selections pool ∧
    sigma' ∈ permutations_upto r rest ∧ sigma = x :: sigma'.
Proof.
  csimpl. rewrite list_elem_of_bind. split.
  - intros ([x rest] & Hs & Hsel). apply list_elem_of_fmap in Hs as (s' & -> & Hs').
    eauto 6.
  - intros (x & rest & s' & Hsel & Hs' & ->). exists (x, rest). split; [|done].
    apply list_elem_of_fmap. eauto.
Qed.

(** Every tuple that is produced is a rearrangement of the pool. *)
Lemma permutations_upto_Permutation r pool sigma :
  r = length pool → sigma ∈ permutations_upto r pool → sigma ≡ₚ pool.
Proof.
  revert pool sigma. induction r as [|r IH]; intros pool sigma Hr.
  - destruct pool; [|done]. by intros ->%list_elem_of_singleton.
  - intros (x & rest & s' & Hsel & Hs' & ->)%elem_of_permutations_upto_S.
    apply elem_of_selections in Hsel as (l1 & l2 & -> & ->).
    rewrite <-Permutation_middle. f_equiv. apply IH; [|done].
    rewrite length_app in *. simpl in Hr. lia.
Qed.

(** Every rearrangement of the pool is produced. *)
Lemma permutations_complete pool sigma :
  sigma ≡ₚ pool → sigma ∈ permutations pool.
Proof.
  unfold permutations. revert pool.
  induction sigma as [|x sigma IH]; intros pool Hp.
  - apply Permutation_nil_l in Hp as <-. by apply list_elem_of_singleton.
  - assert (x ∈ pool) as (l1 & l2 & ->)%list_elem_of_split.
    { rewrite <-Hp. left. }
    rewrite <-Permutation_middle in Hp. apply (inj (cons x)) in Hp.
    rewrite length_app. simpl. rewrite Nat.add_succ_r, <-length_app.
    apply elem_of_permutations_upto_S. exists x, (l1 ++ l2), sigma.
    split_and!; [|by apply IH|done].
    apply elem_of_selections. eauto.
Qed.

Lemma permutations_nonempty pool : permutations pool ≠ [].
Proof.
  intros Hnil. pose proof (permutations_complete pool pool (reflexivity _)) as Hin.
  rewrite Hnil in Hin. by apply elem_of_nil in Hin.
Qed.

End permutations.

Import Assignment.

Lemma lex_lt_irrefl sigma : ¬ lex_lt sigma sigma.
Proof. induction sigma; inversion 1; subst; [lia|auto]. Qed.

Lemma StronglySorted_bind {A B} (R : relation B) (S : relation A)
    (f : A → list B) (l : list A) :
  StronglySorted S l →
  (∀ x, x ∈ l → StronglySorted R (f x)) →
  (∀ x y a b, S x y → a ∈ f x → b ∈ f y → R a b) →
  StronglySorted R (l ≫= f).
Proof.
  intros Hl Hf HR. induction Hl as [|x l Hl IH Hx]; csimpl; [constructor|].
  apply StronglySorted_app. split_and!.
  - intros a b Ha (y & Hb & Hy)%list_elem_of_bind.
    eapply HR; [|done..]. rewrite Forall_forall in Hx. by apply Hx.
  - apply Hf. left.
  - apply IH. intros y Hy. apply Hf. by right.
Qed.

Lemma selections_sorted (l : list nat) :
  StronglySorted lt l →
  StronglySorted (λ a b : nat * list nat, a.1 < b.1) (selections l).
Proof.
  induction 1 as [|y l Hl IH Hy]; csimpl; constructor.
  - eapply StronglySorted_fmap; [|done]. by intros [??] [??].
  - rewrite Forall_fmap. apply Forall_forall. intros [x rest] Hin. simpl.
    apply elem_of_selections in Hin as (l1 & l2 & -> & _).
    rewrite Forall_forall in Hy. apply Hy. set_solver.
Qed.

Lemma selections_rest_sorted (l : list nat) x rest :
  StronglySorted lt l → (x, rest) ∈ selections l → StronglySorted lt rest.
Proof.
  intros Hl (l1 & l2 & -> & ->)%elem_of_selections.
  apply StronglySorted_app in Hl as (H12 & H1 & H2).
  apply StronglySorted_app. split_and!; [|done|].
  - intros a b Ha Hb. apply H12; [done|]. by right.
  - by apply StronglySorted_cons in H2 as [_ ?].
Qed.

(** The tuples of an increasing pool come out in increasing lexicographic
    order. *)
Lemma permutations_upto_sorted r (pool : list nat) :
  r = length pool → StronglySorted lt pool →
  StronglySorted lex_lt (permutations_upto r pool).
Proof.
  revert pool. induction r as [|r IH]; intros pool Hr Hpool; csimpl.
  - repeat constructor.
  - eapply StronglySorted_bind.
    + by apply selections_sorted.
    + intros [x rest] Hsel. eapply StronglySorted_fmap.
      * intros s1 s2. apply lex_lt_tail.
      * apply IH; [|by eapply selections_rest_sorted].
        apply elem_of_selections in Hsel as (l1 & l2 & -> & ->).
        rewrite length_app in *. simpl in Hr. lia.
    + intros [x r1] [y r2] a b Hxy (a' & -> & _)%list_elem_of_fmap
        (b' & -> & _)%list_elem_of_fmap. by apply lex_lt_head.
Qed.

Lemma seq_sorted start n : StronglySorted lt (seq start n).
Proof.
  revert start. induction n as [|n IH]; intros start; simpl; constructor; [done|].
  apply Forall_forall. intros x Hx%elem_of_seq. lia.
Qed.

Lemma permutations_seq_sorted n :
  StronglySorted lex_lt (permutations (seq 0 n)).
Proof. apply permutations_upto_sorted; [done|apply seq_sorted]. Qed.

Lemma StronglySorted_irrefl_NoDup {A} (R : relation A) (l : list A) :
  (∀ x, ¬ R x x) → StronglySorted R l → NoDup l.
Proof.
  intros Hirr. induction 1 as [|x l Hl IH Hx]; constructor; [|done].
  intros Hin. rewrite Forall_forall in Hx. by apply (Hirr x), Hx.
Qed.

(** ** The exhaustive solver *)

Section optimal.
Import TaskAllocator.
Variable self : TaskAllocator.t.
Let M := distances self.
Let nt := num_taxis self.
Let np := num_passengers self.
Hypothesis Hshape : shape nt np M.

Lemma wrap64_id z : (- 2 ^ 63 ≤ z < 2 ^ 63)%Z → wrap64 z = z.
Proof. intros Hz. unfold wrap64. rewrite Z.mod_small; lia. Qed.

Lemma distances_at_Ok tp :
  tp.1 < nt → tp.2 < np → distances_at self tp = Ok (cost_at M tp).
Proof.
  destruct Hshape as [Hlen Hrows]. intros H1 H2.
  unfold distances_at, cost_at. fold M.
  destruct (getitem_lt M tp.1) as (row & -> & Hrow); [lia|]. simpl.
  rewrite Hrow. simpl.
  rewrite Forall_forall in Hrows.
  destruct (getitem_lt row tp.2) as (c & -> & ->); [|done].
  rewrite (Hrows row); [done|]. by eapply list_elem_of_lookup_2.
Qed.

Lemma allocation_total_no_raise alloc :
  in_range self alloc → ∃ z, allocation_total self alloc = Ok z.
Proof.
  intros Hr. unfold allocation_total. generalize 0%Z.
  induction Hr as [|tp alloc [H1 H2] _ IH]; intros acc; simpl; [eauto|].
  rewrite distances_at_Ok by done. simpl. apply IH.
Qed.

Lemma cost_at_bounded B tp :
  bounded B M → tp.1 < nt → tp.2 < np → (0 ≤ cost_at M tp ≤ B)%Z.
Proof.
  destruct Hshape as [Hlen Hrows]. intros HB H1 H2. unfold cost_at.
  destruct (lookup_lt_is_Some_2 M tp.1) as [row Hrow]; [lia|].
  rewrite Hrow. simpl.
  rewrite Forall_forall in Hrows. unfold bounded in HB.
  rewrite Forall_forall in HB.
  assert (row ∈ M) as Hin by by eapply list_elem_of_lookup_2.
  destruct (lookup_lt_is_Some_2 row tp.2) as [c Hc]; [by rewrite Hrows|].
  rewrite Hc. simpl. specialize (HB row Hin). rewrite Forall_forall in HB.
  apply HB. by eapply list_elem_of_lookup_2.
Qed.

(** Without overflow the running [int64] total is the exact sum. *)
Lemma allocation_total_exact B alloc :
  bounded B M → in_range self alloc → (Z.of_nat (length alloc) * B < 2 ^ 63)%Z →
  allocation_total self alloc = Ok (pairs_cost M alloc).
Proof.
  intros HB Hr Hlen. unfold allocation_total.
  cut (∀ acc, (0 ≤ acc)%Z → (acc + Z.of_nat (length alloc) * B < 2 ^ 63)%Z →
    for_each (λ total tp, d ← distances_at self tp; Ok (int64_add total d))
      alloc acc = Ok (acc + pairs_cost M alloc)%Z).
  { intros Hc. rewrite Hc by lia. done. }
  clear Hlen. induction Hr as [|tp alloc [H1 H2] _ IH]; intros acc Hacc Hlen; simpl.
  - by rewrite Z.add_0_r.
  - rewrite distances_at_Ok by done. simpl.
    pose proof (cost_at_bounded B tp HB H1 H2) as Hc.
    rewrite length_cons in Hlen.
    unfold int64_add. rewrite wrap64_id by nia.
    rewrite IH by nia. f_equal. lia.
Qed.

Lemma allocations_in_range alloc : alloc ∈ allocations_of self → in_range self alloc.
Proof.
  intros (sigma & -> & Hs)%list_elem_of_fmap.
  apply permutations_upto_Permutation in Hs; [|done].
  apply Forall_forall. intros [t p] Hin. simpl. split.
  - apply elem_of_zip_l, elem_of_seq in Hin. lia.
  - apply elem_of_zip_r in Hin. rewrite Hs in Hin. apply elem_of_seq in Hin. lia.
Qed.

(** The cost dictionary never fails on a matrix of the right shape. *)
Lemma passengers_allocations_cost_Ok :
  passengers_allocations_cost self =
  Ok (dict_of_pairs ((λ a, (a, total_of self a)) <$> allocations_of self)).
Proof.
  unfold passengers_allocations_cost, dict_of_pairs. fold nt np. fold (allocations_of self).
  rewrite foldl_fmap. apply for_each_foldl.
  intros d a Ha. unfold total_of.
  destruct (allocation_total_no_raise a) as [z ->]; [by apply allocations_in_range|].
  done.
Qed.

Lemma fst_zip_take {A B} (l : list A) (k : list B) :
  (zip l k).*1 = take (length k) l.
Proof.
  revert k. induction l as [|x l IH]; intros [|y k]; csimpl; [done..|].
  by rewrite IH.
Qed.

Lemma zip_seq_keys (sigma : list nat) :
  (zip (seq 0 nt) sigma).*1 = seq 0 (min (length sigma) nt).
Proof. by rewrite fst_zip_take, take_seq. Qed.

Lemma dict_of_pairs_zip_seq (sigma : list nat) :
  dict_of_pairs (zip (seq 0 nt) sigma) = zip (seq 0 nt) sigma.
Proof. apply dict_of_pairs_NoDup. rewrite zip_seq_keys. apply NoDup_seq. Qed.

(** Whatever the two counts are, the solver returns the allocation of one
    of the enumerated tuples, cut to the number of taxis. *)
Lemma optimal_assignment_Ok :
  ∃ sigma, sigma ∈ permutations (seq 0 np) ∧
    optimal_assignment self = Ok (zip (seq 0 nt) sigma).
Proof.
  unfold optimal_assignment. rewrite passengers_allocations_cost_Ok. simpl.
  set (L := (λ a, (a, total_of self a)) <$> allocations_of self).
  assert (L ≠ []) as HL.
  { unfold L, allocations_of. intros Hnil.
    do 2 apply fmap_nil_inv in Hnil. by apply permutations_nonempty in Hnil. }
  destruct (dict_min_key_spec (dict_of_pairs L)) as (k & d1 & v & d2 & Hmin & Hd & _);
    [by apply dict_of_pairs_nonempty|].
  unfold optimal_allocation_minimal_value. rewrite Hmin. simpl.
  assert (k ∈ allocations_of self) as (sigma & -> & Hs)%list_elem_of_fmap.
  { pose proof (dict_keys_of_pairs_subseteq L []) as Hsub.
    unfold dict_of_pairs in Hd. rewrite Hd in Hsub.
    assert (L.*1 = allocations_of self) as HL1.
    { unfold L. rewrite <-list_fmap_compose. apply list_fmap_id. }
    rewrite <-HL1. apply Hsub. unfold dict_keys. rewrite fmap_app. set_solver. }
  exists sigma. split; [done|]. by rewrite dict_of_pairs_zip_seq.
Qed.

End optimal.

Section optimal_square.
Import TaskAllocator.
Variable self : TaskAllocator.t.
Variable B : Z.
Let M := distances self.
Let n := num_taxis self.
Hypothesis Hsquare : num_passengers self = n.
Hypothesis Hshape : shape n n M.
Hypothesis Hbounded : bounded B M.
Hypothesis Hsmall : (Z.of_nat n * B < 2 ^ 63)%Z.

Let costs : dict allocation Z :=
  (λ sigma, (zip (seq 0 n) sigma, total_cost M sigma)) <$> permutations (seq 0 n).

Lemma permutations_seq_length sigma :
  sigma ∈ permutations (seq 0 n) → length sigma = n.
Proof.
  intros Hs%permutations_upto_Permutation; [|done].
  by rewrite Hs, length_seq.
Qed.

(** With as many taxis as passengers the dictionary has one entry per
    tuple, in the order of the enumeration, with its exact cost. *)
Lemma passengers_allocations_cost_square :
  passengers_allocations_cost self = Ok costs.
Proof.
  rewrite passengers_allocations_cost_Ok by (by rewrite Hsquare).
  f_equal. unfold allocations_of. rewrite Hsquare. fold n.
  rewrite <-list_fmap_compose.
  transitivity (dict_of_pairs costs).
  - f_equal. apply Forall_fmap_ext, Forall_forall. intros sigma Hs. simpl.
    f_equal. unfold total_of.
    rewrite (allocation_total_exact self) with (B := B).
    + unfold total_cost. by rewrite (permutations_seq_length sigma).
    + by rewrite Hsquare.
    + done.
    + apply allocations_in_range. unfold allocations_of. rewrite Hsquare.
      apply list_elem_of_fmap. eauto.
    + rewrite length_zip, length_seq, (permutations_seq_length sigma) by done.
      fold n. by rewrite Nat.min_id.
  - apply dict_of_pairs_NoDup. unfold costs. rewrite <-list_fmap_compose.
    apply NoDup_fmap_2_strong.
    + intros s1 s2 H1 H2 Heq. simpl in Heq.
      apply (f_equal (fmap snd)) in Heq.
      by rewrite !snd_zip in Heq
        by (by rewrite length_seq, permutations_seq_length).
    + eapply StronglySorted_irrefl_NoDup;
        [apply lex_lt_irrefl|apply permutations_seq_sorted].
Qed.

Lemma optimal_assignment_square :
  ∃ sigma before after,
    optimal_assignment self = Ok (zip (seq 0 n) sigma) ∧
    permutations (seq 0 n) = before ++ sigma :: after ∧
    Forall (λ tau, total_cost M sigma < total_cost M tau)%Z before ∧
    Forall (λ tau, total_cost M sigma ≤ total_cost M tau)%Z after.
Proof.
  unfold optimal_assignment. rewrite passengers_allocations_cost_square. simpl.
  destruct (dict_min_key_spec costs) as (k & d1 & v & d2 & Hmin & Hd & H1 & H2).
  { unfold costs. intros Hnil%fmap_nil_inv. by apply permutations_nonempty in Hnil. }
  unfold optimal_allocation_minimal_value. rewrite Hmin. simpl.
  unfold costs in Hd.
  apply fmap_app_inv in Hd as (before & rest & -> & Hrest & Hperms).
  symmetry in Hrest.
  apply fmap_cons_inv in Hrest as (sigma & after & [= -> ->] & -> & ->).
  exists sigma, before, after. split_and!; [|done|..].
  - f_equal. apply dict_of_pairs_zip_seq.
  - by rewrite Forall_fmap in H1.
  - by rewrite Forall_fmap in H2.
Qed.

End optimal_square.

(** C1.  With [n] taxis and [n] passengers, a cost matrix of shape
    [n × n] whose cells are distances [0 ≤ c ≤ B] and whose sums stay
    inside [int64], [passengers_allocations_cost] followed by
    [optimal_allocation_minimal_value] returns the pairing of taxis
    [0..n-1] with a permutation [sigma] of the passengers: a bijection.
    Its total cost is the least over all permutations of the passenger
    indices, and every other permutation of the same cost comes later in
    the lexicographic order. *)
Theorem optimal_assignment_minimal (self : TaskAllocator.t) (B : Z) :
  TaskAllocator.num_passengers self = TaskAllocator.num_taxis self →
  shape (TaskAllocator.num_taxis self) (TaskAllocator.num_taxis self)
        (TaskAllocator.distances self) →
  bounded B (TaskAllocator.distances self) →
  (Z.of_nat (TaskAllocator.num_taxis self) * B < 2 ^ 63)%Z →
  ∃ sigma,
    TaskAllocator.optimal_assignment self
      = Ok (zip (seq 0 (TaskAllocator.num_taxis self)) sigma) ∧
    sigma ≡ₚ seq 0 (TaskAllocator.num_taxis self) ∧
    ∀ tau, tau ≡ₚ seq 0 (TaskAllocator.num_taxis self) →
      (total_cost (TaskAllocator.distances self) sigma
         ≤ total_cost (TaskAllocator.distances self) tau)%Z ∧
      (total_cost (TaskAllocator.distances self) tau
         = total_cost (TaskAllocator.distances self) sigma →
       sigma = tau ∨ lex_lt sigma tau).
Proof.
  intros Hsq Hshape HB Hsmall.
  destruct (optimal_assignment_square self B Hsq Hshape HB Hsmall)
    as (sigma & before & after & Hres & Hperms & Hbefore & Hafter).
  exists sigma. split; [done|].
  assert (sigma ∈ permutations (seq 0 (TaskAllocator.num_taxis self))) as Hsigma.
  { rewrite Hperms. set_solver. }
  split; [by apply permutations_upto_Permutation in Hsigma|].
  intros tau Htau%permutations_complete.
  pose proof (permutations_seq_sorted (TaskAllocator.num_taxis self)) as Hsorted.
  rewrite Hperms in Htau, Hsorted.
  rewrite Forall_forall in Hbefore. rewrite Forall_forall in Hafter.
  apply elem_of_app in Htau as [Htau|Htau]; [|apply elem_of_cons in Htau as [->|Htau]].
  - specialize (Hbefore tau Htau). split; [lia|]. intros Heq. lia.
  - split; [lia|]. by left.
  - specialize (Hafter tau Htau). split; [done|]. intros _. right.
    apply StronglySorted_app in Hsorted as (_ & _ & Hs).
    apply StronglySorted_cons in Hs as [Hs _]. rewrite Forall_forall in Hs. auto.
Qed.

Lemma optimal_assignment_minimal_witness :
  ∃ sigma,
    TaskAllocator.optimal_assignment
      {| TaskAllocator.num_taxis := 2; TaskAllocator.num_passengers := 2;
         TaskAllocator.distances := [[5; 2]; [1; 7]]%Z |}
      = Ok (zip (seq 0 2) sigma) ∧ sigma ≡ₚ seq 0 2.
Proof.
  destruct (optimal_assignment_minimal
    {| TaskAllocator.num_taxis := 2; TaskAllocator.num_passengers := 2;
       TaskAllocator.distances := [[5; 2]; [1; 7]]%Z |} 7%Z)
    as (sigma & Hres & Hperm & _).
  - reflexivity.
  - split; [reflexivity|]. repeat constructor.
  - repeat constructor; lia.
  - simpl. lia.
  - exists sigma. split; [exact Hres|exact Hperm].
Defined.

(** C8 (as the code has it).  [passengers_allocations_cost] only assumes
    equal counts.  On a matrix of shape [(num_taxis, num_passengers)] with
    different counts no error is raised: [zip] cuts every tuple to the
    shorter side and the result pairs the first [min] taxis with distinct
    passengers. *)
Theorem optimal_assignment_unequal_counts (self : TaskAllocator.t) :
  shape (TaskAllocator.num_taxis self) (TaskAllocator.num_passengers self)
        (TaskAllocator.distances self) →
  TaskAllocator.num_taxis self ≠ TaskAllocator.num_passengers self →
  ∃ sigma,
    sigma ≡ₚ seq 0 (TaskAllocator.num_passengers self) ∧
    TaskAllocator.optimal_assignment self
      = Ok (zip (seq 0 (TaskAllocator.num_taxis self)) sigma) ∧
    length (zip (seq 0 (TaskAllocator.num_taxis self)) sigma)
      = min (TaskAllocator.num_taxis self) (TaskAllocator.num_passengers self).
Proof.
  intros Hshape _.
  destruct (optimal_assignment_Ok self Hshape) as (sigma & Hs & Hres).
  apply permutations_upto_Permutation in Hs; [|done].
  exists sigma. split_and!; [done..|].
  by rewrite length_zip, length_seq, Hs, length_seq.
Qed.

Lemma optimal_assignment_unequal_counts_witness :
  ∃ sigma,
    TaskAllocator.optimal_assignment
      {| TaskAllocator.num_taxis := 1; TaskAllocator.num_passengers := 2;
         TaskAllocator.distances := [[3; 5]]%Z |}
      = Ok (zip (seq 0 1) sigma).
Proof.
  destruct (optimal_assignment_unequal_counts
    {| TaskAllocator.num_taxis := 1; TaskAllocator.num_passengers := 2;
       TaskAllocator.distances := [[3; 5]]%Z |})
    as (sigma & _ & Hres & _).
  - split; [reflexivity|]. repeat constructor.
  - simpl. lia.
  - exists sigma. exact Hres.
Defined.

(** C8 as stated fails: with one taxi and two passengers the counts
    differ, and the solver returns the allocation [{0: 0}] instead of
    raising. *)
Lemma optimal_assignment_unequal_counts_no_error :
  TaskAllocator.num_taxis
    {| TaskAllocator.num_taxis := 1; TaskAllocator.num_passengers := 2;
       TaskAllocator.distances := [[3; 5]]%Z |}
  ≠ TaskAllocator.num_passengers
    {| TaskAllocator.num_taxis := 1; TaskAllocator.num_passengers := 2;
       TaskAllocator.distances := [[3; 5]]%Z |} ∧
  TaskAllocator.optimal_assignment
    {| TaskAllocator.num_taxis := 1; TaskAllocator.num_passengers := 2;
       TaskAllocator.distances := [[3; 5]]%Z |}
  = Ok [(0, 0)].
Proof. split; [simpl; lia|reflexivity]. Qed.

(** ** The auction *)

Section dict_pop.
Context {K V : Type} `{EqDecision K}.
Implicit Types (d : list (K * V)) (k : K) (v : V).

Lemma dict_get_elem k v d :
  NoDup (dict_keys d) → (k, v) ∈ d → dict_get k d = Some v.
Proof.
  unfold dict_keys. induction d as [|[k' v'] d IH]; csimpl.
  - by intros _ ?%elem_of_nil.
  - rewrite NoDup_cons, elem_of_cons. intros [Hk' Hnd] [[= -> ->]|Hin].
    + by rewrite decide_True.
    + rewrite decide_False; [by apply IH|].
      intros ->. apply Hk'. apply list_elem_of_fmap. by exists (k, v).
Qed.

Lemma filter_key_absent k d :
  k ∉ dict_keys d → filter (λ e, e.1 ≠ k) d = d.
Proof.
  unfold dict_keys. induction d as [|[k' v'] d IH]; [done|].
  rewrite fmap_cons, not_elem_of_cons. intros [Hne Hnin].
  rewrite filter_cons_True by (simpl in *; congruence). by rewrite IH.
Qed.

(** Popping a key that is present removes its entry and nothing else. *)
Lemma dict_pop_present k d :
  NoDup (dict_keys d) → k ∈ dict_keys d →
  ∃ v, dict_pop k d = Ok (v, filter (λ e, e.1 ≠ k) d).
Proof.
  unfold dict_keys. induction d as [|[k' v'] d IH].
  - by intros _ ?%elem_of_nil.
  - rewrite fmap_cons, NoDup_cons, elem_of_cons. cbn [fst dict_pop].
    intros [Hk' Hnd] Hin.
    destruct (decide (k' = k)) as [->|Hne].
    + exists v'. rewrite filter_cons_False by (simpl; congruence).
      by rewrite filter_key_absent.
    + destruct IH as [v Hv]; [done|by destruct Hin|].
      exists v. rewrite Hv. cbn [mbind result_bind].
      by rewrite filter_cons_True by (simpl; congruence).
Qed.

Lemma dict_keys_filter_sublist (P : K * V → Prop) `{∀ e, Decision (P e)} d :
  dict_keys (filter P d) `sublist_of` dict_keys d.
Proof. unfold dict_keys. apply fmap_sublist, sublist_filter. Qed.

Lemma filter_all {A} (P : A → Prop) `{∀ x, Decision (P x)} (l : list A) :
  (∀ x, P x) → filter P l = l.
Proof.
  intros HP. induction l as [|x l IH]; [done|].
  by rewrite filter_cons_True, IH.
Qed.

(** Popping a list of distinct present keys leaves the other entries, in
    their order. *)
Lemma for_each_pop (ws : list K) d :
  NoDup ws → NoDup (dict_keys d) → ws ⊆ dict_keys d →
  for_each (λ b k, '(_, b') ← dict_pop k b; Ok b') ws d
    = Ok (filter (λ e, e.1 ∉ ws) d).
Proof.
  revert d. induction ws as [|w ws IH]; intros d Hws Hd Hsub; simpl.
  - f_equal. symmetry. apply filter_all. intros e. apply not_elem_of_nil.
  - apply NoDup_cons in Hws as [Hw Hws].
    destruct (dict_pop_present w d) as [v ->]; [done|set_solver|]. simpl.
    rewrite IH.
    + f_equal. rewrite list_filter_filter. apply list_filter_iff.
      intros e. rewrite not_elem_of_cons. naive_solver.
    + done.
    + by apply (sublist_NoDup _ (dict_keys d)); [|apply dict_keys_filter_sublist].
    + intros x Hx. unfold dict_keys.
      assert (x ∈ dict_keys d) as ([k v'] & -> & Hin)%list_elem_of_fmap by set_solver.
      apply list_elem_of_fmap. exists (k, v'). split; [done|].
      apply list_elem_of_filter. split; [|done]. simpl. by intros ->.
Qed.

End dict_pop.

Lemma StronglySorted_filter {A} (R : relation A) (P : A → Prop)
    `{∀ x, Decision (P x)} (l : list A) :
  StronglySorted R l → StronglySorted R (filter P l).
Proof.
  induction 1 as [|x l Hl IH Hx]; [constructor|].
  destruct (decide (P x)).
  - rewrite filter_cons_True by done. constructor; [done|].
    rewrite Forall_forall in Hx. apply Forall_forall.
    intros y [_ Hy]%list_elem_of_filter. by apply Hx.
  - by rewrite filter_cons_False.
Qed.

Lemma StronglySorted_keys {V} (d : dict nat V) :
  StronglySorted lt (dict_keys d) → StronglySorted (λ a b, a.1 < b.1) d.
Proof.
  unfold dict_keys. induction d as [|[k v] d IH]; csimpl; [constructor|].
  intros [Hk Hd]%StronglySorted_cons. constructor; [by apply IH|].
  by rewrite Forall_fmap in Hk.
Qed.

(** The dictionaries that [get_taxis_bids] builds have the taxis as keys,
    in increasing order. *)
Lemma bids_dict_keys (bids : list Z) :
  dict_keys (TaskAllocator.bids_dict bids) = seq 0 (length bids).
Proof.
  unfold TaskAllocator.bids_dict.
  rewrite dict_of_pairs_NoDup; unfold dict_keys;
    rewrite fst_zip by (by rewrite length_seq); [done|apply NoDup_seq].
Qed.

Section auction.
Import TaskAllocator Auction.
Variable self : TaskAllocator.t.
Variable biddings : list ref.
Variable h : store.
Let n := num_taxis self.
Hypothesis Hwf : wellformed n biddings h.

(** One round on a well-formed input: the dictionary of the passenger is
    still as the caller built it, the taxis allocated so far are popped,
    and the first lowest remaining bid wins. *)
Lemma auction_round_spec (winners : list nat) (h' : store) (p : nat) (r : ref)
    (d : list (nat * Z)) :
  length winners = p → p < n → NoDup winners → (∀ w, w ∈ winners → w < n) →
  biddings !! p = Some r → h !! r = Some d → h' !! r = Some d →
  ∃ w, auction_round self biddings (zip winners (seq 0 p), h') p
         = Ok (zip (winners ++ [w]) (seq 0 (S p)),
               <[r := filter (λ e, e.1 ∉ winners) d]> h') ∧
       lowest_free_bid n (bid_of h biddings p) winners w.
Proof.
  intros <- Hp Hnd Hlt Hr Hd0 Hd'.
  destruct Hwf as (Hbl & Hrefs & Hdicts).
  destruct (Hdicts _ r Hr) as (d0 & Hd0' & Hkeys).
  assert (Some d0 = Some d) as [= ->].
  { etrans; [symmetry; exact Hd0'|exact Hd0]. }
  clear Hd0'.
  assert (NoDup (dict_keys d)) as Hdnd by (rewrite Hkeys; apply NoDup_seq).
  unfold auction_round.
  rewrite (proj2 (getitem_Ok biddings _ r)) by done. cbn [mbind result_bind].
  rewrite (proj2 (getitem_Ok h' r d)) by done. cbn [mbind result_bind].
  rewrite bool_decide_true; cbn [mbind result_bind py_assert].
  2:{ fold n. unfold dict_keys in Hkeys.
      by rewrite <-(length_fmap fst), Hkeys, length_seq. }
  unfold pop_allocated.
  assert (dict_keys (zip winners (seq 0 (length winners))) = winners) as ->.
  { unfold dict_keys. apply fst_zip. by rewrite length_seq. }
  rewrite for_each_pop; [|done|done|].
  2:{ intros w Hw. rewrite Hkeys. apply elem_of_seq. specialize (Hlt w Hw). lia. }
  cbn [mbind result_bind]. set (d' := filter (λ e, e.1 ∉ winners) d).
  (* some taxi is still free *)
  assert (d' ≠ []) as Hne.
  { intros Hnil.
    assert (seq 0 n ⊆ winners) as Hsub.
    { intros t Ht. rewrite <-Hkeys in Ht.
      apply list_elem_of_fmap in Ht as ([t' b] & -> & Hin). simpl.
      destruct (decide (t' ∈ winners)) as [|Hfree]; [done|].
      assert ((t', b) ∈ d') as Hin' by (apply list_elem_of_filter; done).
      rewrite Hnil in Hin'. by apply elem_of_nil in Hin'. }
    apply NoDup_submseteq in Hsub; [|apply NoDup_seq].
    apply submseteq_length in Hsub. rewrite length_seq in Hsub. lia. }
  destruct (dict_min_key_spec d' Hne) as (w & d1 & v & d2 & -> & Hsplit & H1 & H2).
  cbn [mbind result_bind].
  assert ((w, v) ∈ d') as Hwin by (rewrite Hsplit; set_solver).
  apply list_elem_of_filter in Hwin as [Hwfree Hwd]. simpl in Hwfree.
  assert (w < n) as Hwn.
  { assert (w ∈ dict_keys d) as Hk by (apply list_elem_of_fmap; by exists (w, v)).
    rewrite Hkeys in Hk. apply elem_of_seq in Hk. lia. }
  exists w. split.
  - f_equal. f_equal.
    rewrite dict_setitem_fresh.
    + rewrite seq_S. by rewrite zip_with_app by (by rewrite length_seq).
    + unfold dict_keys. by rewrite fst_zip by (by rewrite length_seq).
  - split_and!; [done..|].
    intros t Htn Htfree.
    assert (t ∈ dict_keys d) as ([t' b] & -> & Hin)%list_elem_of_fmap.
    { rewrite Hkeys. apply elem_of_seq. lia. }
    simpl in *. unfold bid_of. rewrite Hr, Hd0.
    rewrite (dict_get_elem w v d), (dict_get_elem t' b d) by done. simpl.
    assert ((t', b) ∈ d') as Hin' by (apply list_elem_of_filter; done).
    assert (StronglySorted (λ a b : nat * Z, a.1 < b.1) d') as Hsorted.
    { apply StronglySorted_filter, StronglySorted_keys.
      rewrite Hkeys. apply seq_sorted. }
    rewrite Hsplit in Hin', Hsorted.
    rewrite Forall_forall in H1. rewrite Forall_forall in H2.
    apply elem_of_app in Hin' as [Hin'|Hin'];
      [|apply elem_of_cons in Hin' as [[= -> ->]|Hin']].
    + left. by apply (H1 (t', b)).
    + right. done.
    + apply StronglySorted_app in Hsorted as (_ & _ & Hs).
      apply StronglySorted_cons in Hs as [Hs _]. rewrite Forall_forall in Hs.
      specialize (Hs _ Hin'). specialize (H2 _ Hin'). simpl in *.
      destruct (decide (v = b)); [right|left]; lia.
Qed.

End auction.

Section auction_loop.
Import TaskAllocator Auction.
Variable self : TaskAllocator.t.
Variable biddings : list nat.
Variable h : list (list (nat * Z)).
Let n := num_taxis self.
Hypothesis Hwf : wellformed n biddings h.

(** The state of the loop after the passengers [0..p-1]: the winners so
    far are distinct taxis, each one the lowest free bidder of its round,
    and exactly the dictionaries of these passengers have lost the taxis
    allocated before their round. *)
Lemma auction_loop_spec p :
  p ≤ n →
  ∃ winners h',
    for_each (auction_round self biddings) (seq 0 p) ([], h)
      = Ok (zip winners (seq 0 p), h') ∧
    length winners = p ∧ NoDup winners ∧ (∀ w, w ∈ winners → w < n) ∧
    (∀ q w, winners !! q = Some w →
       lowest_free_bid n (bid_of h biddings q) (take q winners) w) ∧
    length h' = length h ∧
    (∀ q r d, biddings !! q = Some r → h !! r = Some d →
       h' !! r = Some (if decide (q < p)
                       then filter (λ e, e.1 ∉ take q winners) d else d)).
Proof.
  induction p as [|p IH]; intros Hp.
  - exists [], h. split_and!; try done.
    + constructor.
    + by intros w Hw%elem_of_nil.
  - destruct IH as (winners & h' & Hloop & Hlen & Hnd & Hlt & Hwin & Hlh & Hheap); [lia|].
    destruct Hwf as (Hbl & Hrefs & Hdicts).
    destruct (lookup_lt_is_Some_2 biddings p) as [r Hr]; [lia|].
    destruct (Hdicts p r Hr) as (d & Hd & Hkeys).
    assert (h' !! r = Some d) as Hd'.
    { rewrite (Hheap p r d Hr Hd). by rewrite decide_False by lia. }
    destruct (auction_round_spec self biddings h Hwf winners h' p r d)
      as (w & Hround & Hw); [done|lia|done..|].
    exists (winners ++ [w]), (<[r := filter (λ e, e.1 ∉ winners) d]> h').
    rewrite seq_S, for_each_app, Hloop. cbn [mbind result_bind for_each].
    rewrite Nat.add_0_l, Hround. cbn [mbind result_bind].
    rewrite <-(Nat.add_0_l p) at 2. rewrite <-seq_S.
    destruct Hw as (Hwn & Hwfree & Hwlow).
    split_and!.
    + done.
    + rewrite length_app. simpl. lia.
    + apply NoDup_app. split_and!; [done| |apply NoDup_singleton].
      intros x Hx ->%list_elem_of_singleton. done.
    + intros x [Hx| ->%list_elem_of_singleton]%elem_of_app; auto.
    + intros q x Hq.
      destruct (decide (q < p)) as [Hqp|Hqp].
      * rewrite lookup_app_l in Hq by lia. rewrite take_app_le by lia. auto.
      * assert (q = p) as ->.
        { apply lookup_lt_Some in Hq. rewrite length_app in Hq. simpl in Hq. lia. }
        rewrite take_app_length' by done.
        rewrite lookup_app_r, Hlen, Nat.sub_diag in Hq by lia.
        injection Hq as <-. done.
    + by rewrite length_insert.
    + intros q r' d' Hr' Hd''.
      destruct (decide (q = p)) as [->|Hne].
      * assert (r' = r) as -> by congruence.
        assert (d' = d) as -> by congruence.
        rewrite list_lookup_insert_eq by (rewrite Hlh; by eapply lookup_lt_Some).
        rewrite decide_True by lia. by rewrite take_app_length'.
      * rewrite list_lookup_insert_ne.
        2:{ intros <-. apply Hne. by eapply NoDup_lookup. }
        rewrite (Hheap q r' d' Hr' Hd'').
        destruct (decide (q < p)).
        -- rewrite decide_True by lia. by rewrite take_app_le by lia.
        -- by rewrite decide_False by lia.
Qed.

End auction_loop.



(** C10.  On the same inputs the call leaves the caller's dictionaries
    changed: the dictionary of passenger [p] has lost the entries of the
    taxis that won the passengers before [p] and kept the others; with two
    passengers or more the store after the call differs from the store
    before it. *)
Theorem taxis_auction_allocation_mutates (self : TaskAllocator.t)
    (biddings : list nat) (h : list (list (nat * Z))) :
  TaskAllocator.num_passengers self = TaskAllocator.num_taxis self →
  Auction.wellformed (TaskAllocator.num_taxis self) biddings h →
  ∃ winners h',
    TaskAllocator.taxis_auction_allocation self biddings h
      = Ok (zip winners (seq 0 (TaskAllocator.num_taxis self)), h') ∧
    (∀ p r d, biddings !! p = Some r → h !! r = Some d →
       h' !! r = Some (filter (λ e, e.1 ∉ take p winners) d) ∧
       length (filter (λ e, e.1 ∉ take p winners) d)
         = TaskAllocator.num_taxis self - p) ∧
    (2 ≤ TaskAllocator.num_taxis self → h' ≠ h).
Proof.
  intros Hsq Hwf.
  destruct (auction_loop_spec self biddings h Hwf (TaskAllocator.num_taxis self))
    as (winners & h' & Hloop & Hlen & Hnd & Hlt & Hwin & Hlh & Hheap); [done|].
  assert (∀ p r d, biddings !! p = Some r → h !! r = Some d →
       h' !! r = Some (filter (λ e, e.1 ∉ take p winners) d) ∧
       length (filter (λ e, e.1 ∉ take p winners) d)
         = TaskAllocator.num_taxis self - p) as Hpopped.
  { intros p r d Hr Hd.
    destruct Hwf as (Hbl & Hrefs & Hdicts).
    assert (p < TaskAllocator.num_taxis self) as Hp.
    { rewrite <-Hbl. by eapply lookup_lt_Some. }
    split.
    { rewrite (Hheap p r d Hr Hd). by rewrite decide_True. }
    destruct (Hdicts p r Hr) as (d0 & Hd0 & Hkeys).
    assert (d0 = d) as -> by congruence.
    assert (length (filter (λ e : nat * Z, e.1 ∉ take p winners) d)
            + length (take p winners) = length d) as Hsum.
    { rewrite <-(length_fmap fst (filter _ d)), <-length_app.
      rewrite <-(length_fmap fst d).
      apply Permutation_length, NoDup_Permutation.
      - apply NoDup_app. split_and!.
        + apply (sublist_NoDup _ (dict_keys d)); [|apply dict_keys_filter_sublist].
          rewrite Hkeys. apply NoDup_seq.
        + intros x ([x' b] & -> & [Hfree _]%list_elem_of_filter)%list_elem_of_fmap.
          done.
        + apply (sublist_NoDup _ winners); [done|apply sublist_take].
      - fold (dict_keys d). rewrite Hkeys. apply NoDup_seq.
      - intros x. rewrite elem_of_app. split.
        + intros [([x' b] & -> & [_ Hin]%list_elem_of_filter)%list_elem_of_fmap|Hx].
          * apply list_elem_of_fmap. by exists (x', b).
          * fold (dict_keys d). rewrite Hkeys. apply elem_of_seq.
            apply (subseteq_take p winners), Hlt in Hx. lia.
        + intros ([x' b] & -> & Hin)%list_elem_of_fmap. simpl.
          destruct (decide (x' ∈ take p winners)); [by right|left].
          apply list_elem_of_fmap. exists (x', b). split; [done|].
          by apply list_elem_of_filter. }
    rewrite length_take, Hlen in Hsum.
    rewrite <-(length_fmap fst d) in Hsum. fold (dict_keys d) in Hsum.
    rewrite Hkeys, length_seq in Hsum. lia. }
  exists winners, h'. split_and!.
  - unfold TaskAllocator.taxis_auction_allocation. rewrite Hsq, Hloop.
    cbn [mbind result_bind].
    rewrite bool_decide_true; [done|].
    by rewrite length_zip, length_seq, Hlen, Nat.min_id.
  - done.
  - intros Hn Heq.
    destruct Hwf as (Hbl & Hrefs & Hdicts).
    destruct (lookup_lt_is_Some_2 biddings 1) as [r Hr]; [lia|].
    destruct (Hdicts 1 r Hr) as (d & Hd & Hkeys).
    destruct (Hpopped 1 r d Hr Hd) as [Hh' Hlen'].
    rewrite Heq, Hd in Hh'. injection Hh' as Hh'.
    rewrite <-Hh' in Hlen'.
    rewrite <-(length_fmap fst d) in Hlen'. fold (dict_keys d) in Hlen'.
    rewrite Hkeys, length_seq in Hlen'. lia.
Qed.

Lemma auction_wellformed_example :
  Auction.wellformed 2 [0; 1]
    [TaskAllocator.bids_dict [3; 3]%Z; TaskAllocator.bids_dict [2; 9]%Z].
Proof.
  split_and!; [reflexivity|repeat constructor; set_solver|].
  intros [|[|p]] r [= <-]; eexists; split; reflexivity.
Defined.


Lemma taxis_auction_allocation_mutates_witness :
  ∃ winners h',
    TaskAllocator.taxis_auction_allocation
      {| TaskAllocator.num_taxis := 2; TaskAllocator.num_passengers := 2;
         TaskAllocator.distances := [] |} [0; 1]
      [TaskAllocator.bids_dict [3; 3]%Z; TaskAllocator.bids_dict [2; 9]%Z]
    = Ok (zip winners (seq 0 2), h') ∧
    h' ≠ [TaskAllocator.bids_dict [3; 3]%Z; TaskAllocator.bids_dict [2; 9]%Z].
Proof.
  destruct (taxis_auction_allocation_mutates
    {| TaskAllocator.num_taxis := 2; TaskAllocator.num_passengers := 2;
       TaskAllocator.distances := [] |} [0; 1]
    [TaskAllocator.bids_dict [3; 3]%Z; TaskAllocator.bids_dict [2; 9]%Z])
    as (winners & h' & Hres & _ & Hneq).
  - reflexivity.
  - exact auction_wellformed_example.
  - exists winners, h'. split; [exact Hres|]. apply Hneq. simpl. lia.
Defined.

(** The auction on the bids [3, 3] for passenger 0 and [2, 9] for passenger
    1: the tie goes to taxi 0, and passenger 1 is left with taxi 1 only. *)
Example taxis_auction_allocation_tie :
  TaskAllocator.taxis_auction_allocation
    {| TaskAllocator.num_taxis := 2; TaskAllocator.num_passengers := 2;
       TaskAllocator.distances := [] |} [0; 1]
    [TaskAllocator.bids_dict [3; 3]%Z; TaskAllocator.bids_dict [2; 9]%Z]
  = Ok ([(0, 0); (1, 1)], [[(0, 3%Z); (1, 3%Z)]; [(1, 9%Z)]]).
Proof. reflexivity. Qed.

(** The tie-break follows the order of the keys of the dictionary: a
    dictionary built in another order gives the tie to its first key. *)
Example taxis_auction_allocation_key_order :
  TaskAllocator.taxis_auction_allocation
    {| TaskAllocator.num_taxis := 2; TaskAllocator.num_passengers := 2;
       TaskAllocator.distances := [] |} [0; 1]
    [[(1, 3%Z); (0, 3%Z)]; [(1, 2%Z); (0, 9%Z)]]
  = Ok ([(1, 0); (0, 1)], [[(1, 3%Z); (0, 3%Z)]; [(0, 9%Z)]]).
Proof. reflexivity. Qed.

(** A list that holds the same dictionary object three times fails the
    length assertion in the third round. *)
Example taxis_auction_allocation_aliased :
  TaskAllocator.taxis_auction_allocation
    {| TaskAllocator.num_taxis := 3; TaskAllocator.num_passengers := 3;
       TaskAllocator.distances := [] |} [0; 0; 0]
    [TaskAllocator.bids_dict [3; 3; 1]%Z]
  = Raise AssertionError.
Proof. reflexivity. Qed.


(** ** The direction decoding of [get_path] *)

Section decoding.
Import EnvGraph.
Local Open Scope Z_scope.

(** The loop over [range(len(path) - 1)] never raises: its first [k]
    turns append the actions of the first [k] steps. *)
Lemma path_actions_prefix cols (path : list Z) (k : nat) :
  (k ≤ length path - 1)%nat →
  for_each (λ actions node,
              b ← getitem path (node + 1)%nat;
              a ← getitem path node;
              Ok (actions ++ [delta_action cols (b - a)]))
           (seq 0 k) []
  = Ok ((λ i, delta_action cols (path !!! S i - path !!! i)) <$> seq 0 k).
Proof.
  induction k as [|k IH]; intros Hk; [done|].
  rewrite seq_S, for_each_app, IH by lia. cbn [mbind result_bind for_each].
  destruct (lookup_lt_is_Some_2 path (S k)) as [b Hb]; [lia|].
  destruct (lookup_lt_is_Some_2 path k) as [a Ha]; [lia|].
  rewrite Nat.add_0_l, Nat.add_1_r.
  rewrite (proj2 (getitem_Ok path (S k) b)) by done. cbn [mbind result_bind].
  rewrite (proj2 (getitem_Ok path k a)) by done. cbn [mbind result_bind].
  rewrite fmap_app. cbn [fmap list_fmap].
  by rewrite (list_lookup_total_correct _ _ _ Hb), (list_lookup_total_correct _ _ _ Ha).
Qed.

Lemma path_actions_Ok cols (path : list Z) :
  path_actions cols path
  = Ok ((λ i, delta_action cols (path !!! S i - path !!! i))
          <$> seq 0 (length path - 1)).
Proof. by apply path_actions_prefix. Qed.

End decoding.

(** C5 (as the code has it).  The decoding never raises.  For every list
    of nodes it returns one action per consecutive pair: west (3) for the
    difference [-1], east (2) for [+1], north (1) for [- cols] unless
    that is one of the former two ([cols = 1] or [cols = -1]), and south
    (0) for every other difference, [+ cols] or not. *)
Theorem path_actions_decoding (cols : Z) (path : list Z) :
  ∃ actions,
    EnvGraph.path_actions cols path = Ok actions ∧
    length actions = length path - 1 ∧
    ∀ i a b, path !! i = Some a → path !! S i = Some b →
      ∃ action, actions !! i = Some action ∧
        ((b - a = -1)%Z → action = 3%Z) ∧
        ((b - a = 1)%Z → action = 2%Z) ∧
        ((b - a = - cols)%Z → cols ≠ 1%Z → cols ≠ (-1)%Z → action = 1%Z) ∧
        ((b - a ≠ -1)%Z → (b - a ≠ 1)%Z → (b - a ≠ - cols)%Z → action = 0%Z).
Proof.
  eexists. split; [apply path_actions_Ok|]. split.
  - by rewrite length_fmap, length_seq.
  - intros i a b Ha Hb. exists (EnvGraph.delta_action cols (b - a)). split.
    + rewrite list_lookup_fmap, lookup_seq_lt.
      * simpl. by rewrite (list_lookup_total_correct _ _ _ Hb),
          (list_lookup_total_correct _ _ _ Ha).
      * apply lookup_lt_Some in Hb. lia.
    + unfold EnvGraph.delta_action. repeat case_bool_decide; split_and!; lia.
Qed.

(** C5 as stated fails: in a grid of five columns the difference 3 between
    two consecutive nodes is none of the four supported ones, and it is
    decoded as south without any error. *)
Lemma path_actions_unsupported_delta :
  (3 ≠ 1 ∧ 3 ≠ -1 ∧ 3 ≠ 5 ∧ 3 ≠ -5)%Z ∧
  EnvGraph.path_actions 5 [0; 3]%Z = Ok [0%Z].
Proof. split; [lia|reflexivity]. Qed.

(** ** [compute_shortest_path] *)

(** C9.  Without a destination argument ([None] or an empty list), a taxi
    whose [passenger_index] is [0] gets empty [path_cords] and
    [path_actions], exactly as a taxi whose [passenger_index] is [None]:
    the branch to the passenger's destination is taken for non-zero
    indices only. *)
Theorem compute_shortest_path_passenger_zero
    (shortest_path : list (Z * list Z) → Z → Z → result (list Z))
    (self : SocialTaxi.t) (dest : option (list Z)) :
  SocialTaxi.dest_truthy dest = false →
  SocialTaxi.passenger_index self = Some 0 →
  (SocialTaxi.taxi_index self
     < length (SocialTaxi.taxis_locations (SocialTaxi.taxi_env self))) →
  SocialTaxi.compute_shortest_path shortest_path self dest
    = Ok (SocialTaxi.set_path self [] []) ∧
  SocialTaxi.compute_shortest_path shortest_path
      (SocialTaxi.set_passenger self None) dest
    = Ok (SocialTaxi.set_path (SocialTaxi.set_passenger self None) [] []).
Proof.
  intros Hdest Hzero Hloc.
  destruct (getitem_lt _ _ Hloc) as (loc & Hget & _).
  unfold SocialTaxi.compute_shortest_path. cbn [SocialTaxi.set_passenger
    SocialTaxi.taxi_env SocialTaxi.taxi_index SocialTaxi.passenger_index].
  by rewrite Hget, Hdest, Hzero.
Qed.

(** ** The detour heuristic *)

Section detour.
Import SocialTaxi.
Variable shortest_path : list (Z * list Z) → Z → Z → result (list Z).
Variable self : SocialTaxi.t.
Local Abbreviation path_length := (SocialTaxi.path_length shortest_path self).

Lemma drop_off_step_Ok (dest : list Z) (best : list Z * nat) (c : list Z) k :
  path_length c dest = Ok k →
  drop_off_step shortest_path self dest best c
  = Ok (if bool_decide (k ≤ best.2) then (c, k) else best).
Proof. unfold drop_off_step. intros ->. cbn [mbind result_bind]. by case_bool_decide. Qed.

(** The loop of [get_optimal_socail_drop_off], when every distance can be
    computed: either the initial best is kept because every coordinate is
    strictly further, or the result is the last coordinate of the list
    among those at the least distance. *)
Lemma drop_off_loop (dest : list Z) (g : list Z → nat) (l : list (list Z))
    (b0 : list Z) (d0 : nat) :
  (∀ c, c ∈ l → path_length c dest = Ok (g c)) →
  ∃ b d,
    for_each (drop_off_step shortest_path self dest) l (b0, d0) = Ok (b, d) ∧
    ((b = b0 ∧ d = d0 ∧ ∀ c, c ∈ l → d0 < g c) ∨
     (∃ i, l !! i = Some b ∧ d = g b ∧ d ≤ d0 ∧
        ∀ j c, l !! j = Some c → d ≤ g c ∧ (i < j → d < g c))).
Proof.
  revert b0 d0. induction l as [|c l IH]; intros b0 d0 Hg.
  - exists b0, d0. split; [done|]. left. split_and!; [done..|].
    by intros c Hc%elem_of_nil.
  - cbn [for_each].
    rewrite (drop_off_step_Ok dest (b0, d0) c (g c)) by (apply Hg; left).
    cbn [mbind result_bind snd].
    assert (∀ c', c' ∈ l → path_length c' dest = Ok (g c')) as Hg'.
    { intros c' Hc'. apply Hg. by right. }
    case_bool_decide as Hle; cbn [mbind result_bind].
    + destruct (IH c (g c) Hg') as (b & d & Hloop & Hcase).
      exists b, d. split; [done|]. right.
      destruct Hcase as [(-> & -> & Hfar)|(i & Hi & -> & Hd & Hmin)].
      * exists 0. split_and!; [done..|].
        intros [|j] c' Hc'; simpl in Hc'.
        -- injection Hc' as <-. split; [done|lia].
        -- assert (g c < g c') by (by eapply Hfar, list_elem_of_lookup_2).
           lia.
      * exists (S i). split_and!; [done|done|lia|].
        intros [|j] c' Hc'; simpl in Hc'.
        -- injection Hc' as <-. split; [done|lia].
        -- destruct (Hmin j c' Hc'). split; [done|]. intros ?. lia.
    + destruct (IH b0 d0 Hg') as (b & d & Hloop & Hcase).
      exists b, d. split; [done|].
      destruct Hcase as [(-> & -> & Hfar)|(i & Hi & -> & Hd & Hmin)].
      * left. split_and!; [done..|].
        intros c' [->|Hc']%elem_of_cons; [lia|by apply Hfar].
      * right. exists (S i). split_and!; [done|done|lia|].
        intros [|j] c' Hc'; simpl in Hc'.
        -- injection Hc' as <-. split; lia.
        -- destruct (Hmin j c' Hc'). split; [done|]. intros ?. lia.
Qed.

(** C4 (as the code has it).  When the primary path can be computed, is
    not empty, and the destination of the candidate can be reached from
    each of its coordinates, the drop-off that is chosen lies on the path
    and no coordinate of the path is nearer to that destination; among
    the coordinates at the least distance it is the one that occurs last
    on the path: every later coordinate is strictly further. *)
Theorem drop_off_minimal_latest (other : nat) (dest : list Z)
    (path : list (list Z)) (actions : list Z) :
  passengers_destinations (taxi_env self) !! other = Some dest →
  compute_optimal_path shortest_path self = Ok (path, actions) →
  path ≠ [] →
  (∀ c, c ∈ path → ∃ k, path_length c dest = Ok k) →
  ∃ i best d,
    get_optimal_socail_drop_off shortest_path self other = Ok (best, d) ∧
    path !! i = Some best ∧
    path_length best dest = Ok d ∧
    ∀ j c k, path !! j = Some c → path_length c dest = Ok k →
      d ≤ k ∧ (i < j → d < k).
Proof.
  intros Hdest Hpath Hne Hreach.
  set (g c := match path_length c dest with Ok k => k | Raise _ => 0 end).
  assert (∀ c, c ∈ path → path_length c dest = Ok (g c)) as Hg.
  { intros c Hc. unfold g. by destruct (Hreach c Hc) as [k ->]. }
  destruct (last path) as [last_cor|] eqn:Hlast; [|by apply last_None in Hlast].
  assert (last_cor ∈ path) as Hin.
  { rewrite last_lookup in Hlast. by eapply list_elem_of_lookup_2. }
  destruct (drop_off_loop dest g path last_cor (g last_cor) Hg)
    as (b & d & Hloop & [(_ & _ & Hfar)|(i & Hi & -> & _ & Hmin)]).
  { specialize (Hfar last_cor Hin). lia. }
  exists i, b, (g b). split_and!.
  - unfold get_optimal_socail_drop_off.
    rewrite (proj2 (getitem_Ok _ _ _) Hdest). cbn [mbind result_bind].
    rewrite Hpath. cbn [mbind result_bind]. rewrite Hlast.
    cbn [mbind result_bind]. rewrite (Hg last_cor Hin). cbn [mbind result_bind].
    done.
  - done.
  - apply Hg. by eapply list_elem_of_lookup_2.
  - intros j c k Hj Hk. rewrite Hg in Hk by (by eapply list_elem_of_lookup_2).
    injection Hk as <-. by apply Hmin.
Qed.

End detour.

Section scan.
Import SocialTaxi.
Variable shortest_path : list (Z * list Z) → Z → Z → result (list Z).
Variable self : SocialTaxi.t.
Variable current_cor : list Z.
Variable threshold : Z.
Local Abbreviation scan := (scan_passengers shortest_path self current_cor threshold).
Local Abbreviation passed_over := (SocialTaxi.passed_over shortest_path self current_cor threshold).
Local Abbreviation candidate := (SocialTaxi.candidate shortest_path self current_cor threshold).

(** One turn of the loop over a passenger that is passed over: the
    pick-up and the drop-off are kept, and the passenger index is
    overwritten when the passenger was waiting. *)
Lemma scan_passed_over j others pu dr idx :
  passed_over j →
  ∃ idx', scan (j :: others) (pu, dr, idx) = scan others (pu, dr, idx') ∧
    (idx' = idx ∨
     (idx' = Some j ∧ Some j ≠ passenger_index self ∧
      passengers_status (taxi_env self) !! j = Some 2%Z)) ∧
    (Some j ≠ passenger_index self →
     passengers_status (taxi_env self) !! j = Some 2%Z → idx' = Some j).
Proof.
  intros [Hown|[(status & Hst & Hne)|(Hother & Hst & loc & dest & cords & actions
    & base & Hloc & Hdest & Hpath & Hbase & Hfar)]]; cbn [scan_passengers].
  - exists idx. rewrite bool_decide_false by (by intros ?).
    cbn [mbind result_bind]. split_and!; [done|by left|done].
  - exists idx. split_and!; [|by left|congruence]. case_bool_decide; [|done].
    rewrite (proj2 (getitem_Ok _ _ _) Hst). cbn [mbind result_bind].
    by rewrite bool_decide_false.
  - exists (Some j). split_and!; [|by right|done].
    rewrite bool_decide_true by done.
    rewrite (proj2 (getitem_Ok _ _ _) Hst). cbn [mbind result_bind].
    rewrite bool_decide_true by done.
    rewrite (proj2 (getitem_Ok _ _ _) Hloc). cbn [mbind result_bind].
    rewrite (proj2 (getitem_Ok _ _ _) Hdest). cbn [mbind result_bind].
    rewrite Hpath. cbn [mbind result_bind]. rewrite Hbase. cbn [mbind result_bind].
    by rewrite bool_decide_false by lia.
Qed.

(** One turn of the loop over a candidate: the loop stops, with the
    empty result unless the drop-off is strictly nearer to the destination
    than the pick-up is. *)
Lemma scan_candidate i others found loc dest base drop d :
  candidate i loc dest base →
  get_optimal_socail_drop_off shortest_path self i = Ok (drop, d) →
  scan (i :: others) found
  = Ok (if bool_decide (base ≤ d) then (None, None, None)
        else (Some loc, Some drop, Some i)).
Proof.
  intros (Hother & Hst & Hloc & Hdest & Hbase & cords & actions & Hpath & Hnear) Hdrop.
  destruct found as [[pu dr] idx]. cbn [scan_passengers].
  rewrite bool_decide_true by done.
  rewrite (proj2 (getitem_Ok _ _ _) Hst). cbn [mbind result_bind].
  rewrite bool_decide_true by done.
  rewrite (proj2 (getitem_Ok _ _ _) Hloc). cbn [mbind result_bind].
  rewrite (proj2 (getitem_Ok _ _ _) Hdest). cbn [mbind result_bind].
  rewrite Hpath. cbn [mbind result_bind]. rewrite Hbase. cbn [mbind result_bind].
  rewrite bool_decide_true by lia. rewrite Hdrop. cbn [mbind result_bind].
  by case_bool_decide.
Qed.

(** What one turn of the loop can be when it does not raise. *)
Lemma scan_cons_inv j others pu dr idx res :
  scan (j :: others) (pu, dr, idx) = Ok res →
  (scan others (pu, dr, idx) = Ok res) ∨
  (scan others (pu, dr, Some j) = Ok res) ∨
  (∃ loc dest base drop d,
     candidate j loc dest base ∧
     get_optimal_socail_drop_off shortest_path self j = Ok (drop, d) ∧
     res = if bool_decide (base ≤ d) then (None, None, None)
           else (Some loc, Some drop, Some j)).
Proof.
  cbn [scan_passengers]. intros Hres.
  apply bind_Ok in Hres as (waiting & Hwaiting & Hres).
  destruct waiting; [|by left].
  case_bool_decide as Hother; [|done].
  apply bind_Ok in Hwaiting as (status & Hst%getitem_Ok & [= Hst2]).
  apply bool_decide_eq_true in Hst2 as ->.
  apply bind_Ok in Hres as (loc & Hloc%getitem_Ok & Hres).
  apply bind_Ok in Hres as (dest & Hdest%getitem_Ok & Hres).
  apply bind_Ok in Hres as ([cords actions] & Hpath & Hres).
  apply bind_Ok in Hres as (base & Hbase & Hres).
  case_bool_decide as Hnear; [|by right; left].
  apply bind_Ok in Hres as ([drop d] & Hdrop & Hres).
  right; right. exists loc, dest, base, drop, d. split_and!; [|done|].
  - split_and!; [done..|]. eauto.
  - case_bool_decide; congruence.
Qed.

(** An accepted opportunity comes from a candidate whose drop-off is
    strictly nearer to its destination than its pick-up. *)
Lemma scan_accept_inv others dr0 idx0 pu dr idx :
  scan others (None, dr0, idx0) = Ok (Some pu, dr, idx) →
  ∃ i dest base drop d,
    i ∈ others ∧ idx = Some i ∧ dr = Some drop ∧
    candidate i pu dest base ∧
    get_optimal_socail_drop_off shortest_path self i = Ok (drop, d) ∧
    d < base.
Proof.
  revert idx0. induction others as [|j others IH]; intros idx0 Hres; [done|].
  apply scan_cons_inv in Hres as [Hres|[Hres|(loc & dest & base & drop & d & Hc & Hd & Hres)]].
  - destruct (IH _ Hres) as (i & ? & ? & ? & ? & ? & ?). exists i.
    eexists _, _, _, _. split; [by right|]. eauto.
  - destruct (IH _ Hres) as (i & ? & ? & ? & ? & ? & ?). exists i.
    eexists _, _, _, _. split; [by right|]. eauto.
  - case_bool_decide as Hle; [done|]. simplify_eq.
    exists j, dest, base, drop, d. split_and!; [left|done..|lia].
Qed.

(** The loop up to the first candidate. *)
Lemma scan_first_candidate skipped i others found loc dest base drop d :
  (∀ j, j ∈ skipped → passed_over j) →
  candidate i loc dest base →
  get_optimal_socail_drop_off shortest_path self i = Ok (drop, d) →
  scan (skipped ++ i :: others) found
  = Ok (if bool_decide (base ≤ d) then (None, None, None)
        else (Some loc, Some drop, Some i)).
Proof.
  intros Hskip Hc Hd. revert found.
  induction skipped as [|j skipped IH]; intros found.
  - by eapply scan_candidate.
  - destruct found as [[pu dr] idx]. rewrite <-app_comm_cons.
    destruct (scan_passed_over j (skipped ++ i :: others) pu dr idx) as (idx' & -> & _).
    { apply Hskip. left. }
    apply IH. intros j' Hj'. apply Hskip. by right.
Qed.

(** The loop when every passenger is passed over: no pick-up and no
    drop-off, but the index of the last waiting passenger stays in the
    third component. *)
Lemma scan_all_passed_over others pu dr idx :
  (∀ j, j ∈ others → passed_over j) →
  ∃ idx', scan others (pu, dr, idx) = Ok (pu, dr, idx') ∧
    (idx ≠ None → idx' ≠ None) ∧
    ((∃ j, j ∈ others ∧ Some j ≠ passenger_index self ∧
           passengers_status (taxi_env self) !! j = Some 2%Z) →
     idx' ≠ None) ∧
    ((∀ j, j ∈ others → Some j ≠ passenger_index self →
           passengers_status (taxi_env self) !! j ≠ Some 2%Z) →
     idx' = idx).
Proof.
  revert idx. induction others as [|j others IH]; intros idx Hall.
  - exists idx. split_and!; [done..| |done]. by intros (j & Hj%elem_of_nil & _).
  - destruct (scan_passed_over j others pu dr idx) as (idx1 & -> & Hidx1 & Hwait).
    { apply Hall. left. }
    destruct (IH idx1) as (idx' & Hscan & Hmono & Hidx' & Hnone).
    { intros j' Hj'. apply Hall. by right. }
    exists idx'. split_and!; [done| | |].
    + intros Hidx. apply Hmono. by destruct Hidx1 as [->|(-> & _)].
    + intros (j' & [->|Hj']%elem_of_cons & Hother & Hst).
      * apply Hmono. by rewrite Hwait.
      * apply Hidx'. eauto.
    + intros Hnobody. rewrite Hnone.
      * destruct Hidx1 as [->|(_ & Hother & Hst)]; [done|].
        exfalso. by apply (Hnobody j); [left|..].
      * intros j' Hj'. apply Hnobody. by right.
Qed.

End scan.

Section detour_claims.
Import SocialTaxi.
Variable shortest_path : list (Z * list Z) → Z → Z → result (list Z).
Variable self : SocialTaxi.t.

(** The distance that [get_optimal_socail_drop_off] returns is the length
    of the path from the drop-off it returns to the destination of the
    passenger. *)
Lemma drop_off_loop_distance (dest : list Z) (l : list (list Z))
    (b0 b : list Z) (d0 d : nat) :
  for_each (drop_off_step shortest_path self dest) l (b0, d0) = Ok (b, d) →
  path_length shortest_path self b0 dest = Ok d0 →
  path_length shortest_path self b dest = Ok d.
Proof.
  revert b0 d0. induction l as [|c l IH]; intros b0 d0 Hloop Hb0.
  - by injection Hloop as <- <-.
  - cbn [for_each] in Hloop.
    apply bind_Ok in Hloop as ([b1 d1] & Hstep & Hloop).
    apply (IH b1 d1 Hloop).
    unfold drop_off_step in Hstep.
    apply bind_Ok in Hstep as (k & Hk & Hstep).
    case_bool_decide; by simplify_eq.
Qed.

Lemma get_optimal_socail_drop_off_distance (i : nat) (drop : list Z) (d : nat) :
  get_optimal_socail_drop_off shortest_path self i = Ok (drop, d) →
  ∃ dest, passengers_destinations (taxi_env self) !! i = Some dest ∧
          path_length shortest_path self drop dest = Ok d.
Proof.
  unfold get_optimal_socail_drop_off. intros Hres.
  apply bind_Ok in Hres as (dest & Hdest%getitem_Ok & Hres).
  apply bind_Ok in Hres as ([path actions] & Hpath & Hres).
  apply bind_Ok in Hres as (last_cor & Hlast & Hres).
  apply bind_Ok in Hres as (k & Hk & Hres).
  exists dest. split; [done|]. by eapply drop_off_loop_distance.
Qed.

End detour_claims.

Lemma seq_split_at (i n : nat) :
  i < n → seq 0 n = seq 0 i ++ i :: seq (S i) (n - S i).
Proof.
  intros Hi. replace n with (i + S (n - S i)) at 1 by lia.
  by rewrite seq_app.
Qed.

(** C3 (as the code has it).  Whenever [get_close_passengers] accepts a
    passenger, the length of the path from the chosen drop-off to the
    passenger's destination, with nothing added to it, is strictly less
    than the length of the path from the pick-up to that destination.
    And when the first passenger that is waiting within the threshold has
    a drop-off that is not strictly nearer, the result is
    [(None, None, None)]. *)
Theorem get_close_passengers_strict_improvement
    (shortest_path : list (Z * list Z) → Z → Z → result (list Z))
    (self : SocialTaxi.t) (current_cor : list Z) (threshold : Z) :
  (∀ pu dr idx,
     SocialTaxi.get_close_passengers shortest_path self current_cor threshold
       = Ok (Some pu, dr, idx) →
     ∃ i dest drop base d,
       idx = Some i ∧ dr = Some drop ∧
       SocialTaxi.passengers_start_locations (SocialTaxi.taxi_env self) !! i = Some pu ∧
       SocialTaxi.passengers_destinations (SocialTaxi.taxi_env self) !! i = Some dest ∧
       SocialTaxi.path_length shortest_path self drop dest = Ok d ∧
       SocialTaxi.path_length shortest_path self pu dest = Ok base ∧
       d < base) ∧
  (∀ i loc dest base drop d,
     i < SocialTaxi.num_passengers (SocialTaxi.taxi_env self) →
     (∀ j, j < i →
        SocialTaxi.passed_over shortest_path self current_cor threshold j) →
     SocialTaxi.candidate shortest_path self current_cor threshold i loc dest base →
     SocialTaxi.get_optimal_socail_drop_off shortest_path self i = Ok (drop, d) →
     base ≤ d →
     SocialTaxi.get_close_passengers shortest_path self current_cor threshold
       = Ok (None, None, None)).
Proof.
  split.
  - intros pu dr idx Hres. unfold SocialTaxi.get_close_passengers in Hres.
    apply scan_accept_inv in Hres
      as (i & dest & base & drop & d & _ & -> & -> & Hc & Hdrop & Hlt).
    destruct Hc as (_ & _ & Hloc & Hdest & Hbase & _).
    destruct (get_optimal_socail_drop_off_distance _ _ _ _ _ Hdrop)
      as (dest' & Hdest' & Hd).
    assert (dest' = dest) as -> by congruence.
    exists i, dest, drop, base, d. done.
  - intros i loc dest base drop d Hi Hskip Hc Hdrop Hle.
    unfold SocialTaxi.get_close_passengers.
    rewrite (seq_split_at i) by done.
    rewrite (scan_first_candidate _ _ _ _ _ _ _ _ loc dest base drop d);
      [by rewrite bool_decide_true|..|done|done].
    intros j Hj%elem_of_seq. apply Hskip. lia.
Qed.

Lemma get_close_passengers_strict_improvement_witness :
  ∃ i dest drop base d,
    SocialTaxi.passengers_destinations Scenarios.near_env !! i = Some dest ∧
    SocialTaxi.path_length Networkx.shortest_path
      (Scenarios.taxi Scenarios.near_env 0 (Some 0)) drop dest = Ok d ∧
    SocialTaxi.path_length Networkx.shortest_path
      (Scenarios.taxi Scenarios.near_env 0 (Some 0)) [0; 2]%Z dest = Ok base ∧
    d < base.
Proof.
  destruct (proj1 (get_close_passengers_strict_improvement
    Networkx.shortest_path (Scenarios.taxi Scenarios.near_env 0 (Some 0))
    [0; 0]%Z 3%Z) [0; 2]%Z (Some [0; 3]%Z) (Some 1))
    as (i & dest & drop & base & d & _ & _ & _ & Hdest & Hd & Hbase & Hlt).
  - vm_compute. reflexivity.
  - exists i, dest, drop, base, d. split_and!; [exact Hdest|exact Hd|exact Hbase|exact Hlt].
Defined.

(** C3 as stated fails.  On the row the passenger waiting at [(0,2)] for
    [(0,4)] is accepted with the drop-off [(0,3)]: one step from the
    drop-off to the destination, against two steps from the pick-up.  No
    route from the pick-up to the drop-off has less than one step (the
    taxi's own route, back to [(0,1)] first, has three), and already
    [1 + 1] is not less than the [2] of the direct route. *)
Lemma get_close_passengers_accepts_longer_ride :
  SocialTaxi.get_close_passengers Networkx.shortest_path
    (Scenarios.taxi Scenarios.near_env 0 (Some 0)) [0; 0]%Z 3%Z
    = Ok (Some [0; 2]%Z, Some [0; 3]%Z, Some 1) ∧
  SocialTaxi.path_length Networkx.shortest_path
    (Scenarios.taxi Scenarios.near_env 0 (Some 0)) [0; 3]%Z [0; 4]%Z = Ok 1 ∧
  SocialTaxi.path_length Networkx.shortest_path
    (Scenarios.taxi Scenarios.near_env 0 (Some 0)) [0; 2]%Z [0; 3]%Z = Ok 1 ∧
  SocialTaxi.compute_optimal_path Networkx.shortest_path
    (Scenarios.taxi Scenarios.near_env_at_pick_up 0 (Some 0))
    = Ok ([[0; 1]; [0; 2]; [0; 3]]%Z, [3; 2; 2]%Z) ∧
  SocialTaxi.path_length Networkx.shortest_path
    (Scenarios.taxi Scenarios.near_env 0 (Some 0)) [0; 2]%Z [0; 4]%Z = Ok 2 ∧
  ¬ (1 + 1 < 2).
Proof. split_and!; [vm_compute; reflexivity..|lia]. Qed.

(** C7 fails in the code when another passenger is waiting but is passed
    over: the loop has already stored that passenger's index, and the
    result is [(None, None, Some k)].  (It is [(None, None, None)] only
    when no other passenger is waiting.) *)
Theorem get_close_passengers_keeps_index
    (shortest_path : list (Z * list Z) → Z → Z → result (list Z))
    (self : SocialTaxi.t) (current_cor : list Z) (threshold : Z) :
  (∀ j, j < SocialTaxi.num_passengers (SocialTaxi.taxi_env self) →
        SocialTaxi.passed_over shortest_path self current_cor threshold j) →
  ((∃ j, j < SocialTaxi.num_passengers (SocialTaxi.taxi_env self) ∧
         Some j ≠ SocialTaxi.passenger_index self ∧
         SocialTaxi.passengers_status (SocialTaxi.taxi_env self) !! j = Some 2%Z) →
   ∃ k, SocialTaxi.get_close_passengers shortest_path self current_cor threshold
          = Ok (None, None, Some k)) ∧
  ((∀ j, j < SocialTaxi.num_passengers (SocialTaxi.taxi_env self) →
         Some j ≠ SocialTaxi.passenger_index self →
         SocialTaxi.passengers_status (SocialTaxi.taxi_env self) !! j ≠ Some 2%Z) →
   SocialTaxi.get_close_passengers shortest_path self current_cor threshold
     = Ok (None, None, None)).
Proof.
  intros Hall. unfold SocialTaxi.get_close_passengers.
  destruct (scan_all_passed_over shortest_path self current_cor threshold
    (seq 0 (SocialTaxi.num_passengers (SocialTaxi.taxi_env self))) None None None)
    as (idx & Hscan & _ & Hsome & Hnone).
  { intros j Hj%elem_of_seq. apply Hall. lia. }
  split.
  - intros (j & Hj & Hother & Hst).
    destruct idx as [k|].
    + by exists k.
    + exfalso. apply Hsome; [|done]. exists j. split_and!; [|done..].
      apply elem_of_seq. lia.
  - intros Hnobody. rewrite Hscan, Hnone; [done|].
    intros j Hj%elem_of_seq. apply Hnobody. lia.
Qed.

(** The failing input of C7: the second passenger waits four steps away,
    further than the threshold of three. *)
Lemma get_close_passengers_keeps_index_witness :
  ∃ k, SocialTaxi.get_close_passengers Networkx.shortest_path
         (Scenarios.taxi Scenarios.far_env 0 (Some 0)) [0; 0]%Z 3%Z
       = Ok (None, None, Some k).
Proof.
  apply (get_close_passengers_keeps_index Networkx.shortest_path
           (Scenarios.taxi Scenarios.far_env 0 (Some 0)) [0; 0]%Z 3%Z).
  - intros [|[|j]] Hj; [by left| |vm_compute in Hj; lia].
    right; right. split_and!; [discriminate|vm_compute; reflexivity|].
    exists [0; 4]%Z, [0; 3]%Z, [[0; 1]; [0; 2]; [0; 3]; [0; 4]]%Z, [2; 2; 2; 2]%Z, 1.
    split_and!; [vm_compute; reflexivity..|simpl; lia].
  - exists 1. split_and!; [vm_compute; lia|discriminate|vm_compute; reflexivity].
Defined.

Example get_close_passengers_far :
  SocialTaxi.get_close_passengers Networkx.shortest_path
    (Scenarios.taxi Scenarios.far_env 0 (Some 0)) [0; 0]%Z 3%Z
  = Ok (None, None, Some 1).
Proof. vm_compute. reflexivity. Qed.

(** The scenes are built the way [SocialTaxi.__init__] builds them. *)
Example taxi_init_far :
  SocialTaxi.init Scenarios.far_env 0 (Some 0)
  = Ok (Scenarios.taxi Scenarios.far_env 0 (Some 0)).
Proof. vm_compute. reflexivity. Qed.

Example taxi_init_near :
  SocialTaxi.init Scenarios.near_env 0 (Some 0)
  = Ok (Scenarios.taxi Scenarios.near_env 0 (Some 0)).
Proof. vm_compute. reflexivity. Qed.

Example taxi_init_corner :
  SocialTaxi.init Scenarios.corner_env 0 (Some 0)
  = Ok (Scenarios.taxi Scenarios.corner_env 0 (Some 0)).
Proof. vm_compute. reflexivity. Qed.

(** C4 as stated fails.  On the square the primary path runs
    [(0,1), (0,2), (1,2), (2,2)]; the destination [(1,1)] of the second
    passenger is one step from [(0,1)] and one step from [(1,2)].  The
    earlier one is [(0,1)], the code returns [(1,2)]. *)
Lemma drop_off_tie_takes_latest :
  SocialTaxi.compute_optimal_path Networkx.shortest_path
    (Scenarios.taxi Scenarios.corner_env 0 (Some 0))
    = Ok ([[0; 1]; [0; 2]; [1; 2]; [2; 2]]%Z, [2; 2; 0; 0]%Z) ∧
  SocialTaxi.path_length Networkx.shortest_path
    (Scenarios.taxi Scenarios.corner_env 0 (Some 0)) [0; 1]%Z [1; 1]%Z = Ok 1 ∧
  SocialTaxi.path_length Networkx.shortest_path
    (Scenarios.taxi Scenarios.corner_env 0 (Some 0)) [1; 2]%Z [1; 1]%Z = Ok 1 ∧
  SocialTaxi.get_optimal_socail_drop_off Networkx.shortest_path
    (Scenarios.taxi Scenarios.corner_env 0 (Some 0)) 1 = Ok ([1; 2]%Z, 1).
Proof. split_and!; vm_compute; reflexivity. Qed.

Lemma drop_off_minimal_latest_witness :
  ∃ i best d,
    SocialTaxi.get_optimal_socail_drop_off Networkx.shortest_path
      (Scenarios.taxi Scenarios.corner_env 0 (Some 0)) 1 = Ok (best, d) ∧
    [[0; 1]; [0; 2]; [1; 2]; [2; 2]]%Z !! i = Some best.
Proof.
  destruct (drop_off_minimal_latest Networkx.shortest_path
    (Scenarios.taxi Scenarios.corner_env 0 (Some 0)) 1 [1; 1]%Z
    [[0; 1]; [0; 2]; [1; 2]; [2; 2]]%Z [2; 2; 0; 0]%Z)
    as (i & best & d & Hres & Hi & _).
  - vm_compute. reflexivity.
  - vm_compute. reflexivity.
  - discriminate.
  - intros c Hc.
    repeat (apply elem_of_cons in Hc as [->|Hc]; [eexists; vm_compute; reflexivity|]).
    by apply elem_of_nil in Hc.
  - exists i, best, d. split; [exact Hres|exact Hi].
Defined.

Lemma compute_shortest_path_passenger_zero_witness :
  SocialTaxi.compute_shortest_path Networkx.shortest_path
    (Scenarios.taxi Scenarios.corner_env 0 (Some 0)) None
  = Ok (SocialTaxi.set_path (Scenarios.taxi Scenarios.corner_env 0 (Some 0)) [] []).
Proof.
  destruct (compute_shortest_path_passenger_zero Networkx.shortest_path
              (Scenarios.taxi Scenarios.corner_env 0 (Some 0)) None) as [Hzero _].
  - reflexivity.
  - reflexivity.
  - vm_compute. lia.
  - exact Hzero.
Defined.
(** With the index 1 instead of 0 the same call computes the path to the
    passenger's destination. *)
Example compute_shortest_path_passenger_one :
  SocialTaxi.compute_shortest_path Networkx.shortest_path
    (Scenarios.taxi Scenarios.corner_env 0 (Some 1)) None
  = Ok (SocialTaxi.set_path (Scenarios.taxi Scenarios.corner_env 0 (Some 1))
          [[0; 1]; [1; 1]]%Z [2; 0]%Z).
Proof. vm_compute. reflexivity. Qed.

(** C2 fails in the code on a map of one column: going from [(0,0)] down
    to [(1,0)] is the difference [+1] between the nodes, which the decoding
    takes for east.  Replaying the returned action from the origin leads
    to [(0,1)], not to the returned coordinate [(1,0)]. *)
Lemma get_path_single_column :
  EnvGraph.get_path Networkx.shortest_path
    (Scenarios.graph_of Scenarios.column_map) [0; 0]%Z [1; 0]%Z
    = Ok ([[1; 0]]%Z, [2]%Z) ∧
  Replay.replay [0; 0]%Z [2]%Z = [[0; 1]]%Z ∧
  Replay.replay [0; 0]%Z [2]%Z ≠ [[1; 0]]%Z.
Proof. split_and!; [vm_compute; reflexivity..|discriminate]. Qed.

Example init_column_map :
  EnvGraph.init Scenarios.column_map
  = Ok {| EnvGraph.rows := 2; EnvGraph.cols := 1;
          EnvGraph.the_graph := [(0, [1]); (1, [0])]%Z |}.
Proof. vm_compute. reflexivity. Qed.

(** A map whose bottom border is open makes [__init__] add a node while it
    iterates over the nodes, which Python refuses. *)
Example init_open_border :
  EnvGraph.init ["+-+"; "| |"; "+ +"]%string = Raise RuntimeError.
Proof. vm_compute. reflexivity. Qed.


(** ** The search from the source alone *)

Section bfs.
Import EnvGraph Networkx.
Variable g : list (Z * list Z).
Variable s : Z.

Lemma is_path_singleton : is_path g s s [s].
Proof.
  split_and!; [done..|]. intros [|i] u v Hu Hv; simplify_eq/=.
Qed.

Lemma is_path_snoc u v p :
  is_path g s u p → v ∈ neighbors g u → is_path g s v (p ++ [v]).
Proof.
  intros (Hhead & Hlast & Hedges) Hv. split_and!.
  - destruct p; [done|]. done.
  - by rewrite last_snoc.
  - intros i a b Ha Hb.
    destruct (decide (S i < length p)) as [Hi|Hi].
    + rewrite lookup_app_l in Ha, Hb by lia. eauto.
    + assert (S i = length p) as Hlen.
      { apply lookup_lt_Some in Hb. rewrite length_app in Hb. simpl in Hb. lia. }
      rewrite lookup_app_l in Ha by lia.
      rewrite lookup_app_r, Hlen, Nat.sub_diag in Hb by lia. injection Hb as <-.
      rewrite last_lookup in Hlast.
      replace (pred (length p)) with i in Hlast by lia.
      by simplify_eq.
Qed.

Lemma is_path_walk t p : is_path g s t p → walk g s (length p - 1) t.
Proof.
  revert t. induction p as [|v p IH] using rev_ind; intros t (Hhead & Hlast & Hedges).
  - done.
  - rewrite last_snoc in Hlast. injection Hlast as ->.
    rewrite length_app. simpl. rewrite Nat.add_sub.
    destruct p as [|a p0] using rev_ind.
    + simpl in Hhead. injection Hhead as ->. constructor.
    + clear IHp0. rewrite length_app. simpl. rewrite Nat.add_1_r.
      apply (walk_step g s _ a).
      * replace (length p0) with (length (p0 ++ [a]) - 1)
          by (rewrite length_app; simpl; lia).
        apply IH. split_and!.
        -- destruct p0; done.
        -- by rewrite last_snoc.
        -- intros i x y Hx Hy. apply (Hedges i).
           ++ rewrite lookup_app_l; [done|]. by eapply lookup_lt_Some.
           ++ rewrite lookup_app_l; [done|]. by eapply lookup_lt_Some.
      * apply (Hedges (length p0)).
        -- rewrite lookup_app_l by (rewrite length_app; simpl; lia).
           by rewrite lookup_app_r, Nat.sub_diag by lia.
        -- rewrite lookup_app_r by (rewrite length_app; simpl; lia).
           rewrite length_app. simpl.
           by replace (S (length p0) - (length p0 + 1)) with 0 by lia.
Qed.

(** The neighbours of one frontier node: the new ones are marked and
    queued with their path, all the others were marked before. *)
Lemma visit_neighbors_spec u before nbrs visited next :
  ∃ new,
    visit_neighbors u before nbrs visited next
      = (reverse new ++ visited, next ++ ((λ v, (v, u :: before)) <$> new)) ∧
    (NoDup visited → NoDup (reverse new ++ visited)) ∧
    (∀ v, v ∈ new → v ∈ nbrs ∧ v ∉ visited) ∧
    (∀ v, v ∈ nbrs → v ∈ reverse new ++ visited).
Proof.
  revert visited next. induction nbrs as [|v nbrs IH]; intros visited next.
  - exists []. split_and!; [by rewrite app_nil_r|done|by intros v ?%elem_of_nil
      |by intros v ?%elem_of_nil].
  - cbn [visit_neighbors]. case_bool_decide as Hv.
    + destruct (IH visited next) as (new & -> & Hnd & Hnew & Hall).
      exists new. split_and!; [done|done| |].
      * intros x Hx. destruct (Hnew x Hx). split; [by right|done].
      * intros x [->|Hx]%elem_of_cons; [|by apply Hall].
        apply elem_of_app. by right.
    + destruct (IH (v :: visited) (next ++ [(v, u :: before)]))
        as (new & -> & Hnd & Hnew & Hall).
      exists (v :: new). split_and!.
      * rewrite reverse_cons, <-!app_assoc. done.
      * intros Hvis. rewrite reverse_cons, <-app_assoc. apply Hnd.
        by constructor.
      * intros x [->|Hx]%elem_of_cons; [split; [left|done]|].
        destruct (Hnew x Hx) as [? Hnin]. split; [by right|].
        intros ?. apply Hnin. by right.
      * intros x Hx. rewrite reverse_cons, <-app_assoc.
        apply elem_of_cons in Hx as [->|Hx]; [|by apply Hall].
        apply elem_of_app. right. left.
Qed.

(** One level: every neighbour of the frontier is marked afterwards, and
    the next frontier holds exactly the newly marked nodes, each with a
    path through a frontier node. *)
Lemma next_level_spec frontier visited next :
  ∃ new : list (Z * list Z),
    next_level g frontier visited next = (reverse new.*1 ++ visited, next ++ new) ∧
    (NoDup visited → NoDup (reverse new.*1 ++ visited)) ∧
    (∀ v p, (v, p) ∈ new →
       (v ∉ visited) ∧
       ∃ u before, (u, before) ∈ frontier ∧ p = u :: before ∧ v ∈ neighbors g u) ∧
    (∀ u before v, (u, before) ∈ frontier → v ∈ neighbors g u →
       v ∈ reverse new.*1 ++ visited).
Proof.
  revert visited next. induction frontier as [|[u before] frontier IH]; intros visited next.
  - exists []. split_and!; [by rewrite app_nil_r|done|by intros v p ?%elem_of_nil
      |by intros u before v ?%elem_of_nil].
  - cbn [next_level].
    destruct (visit_neighbors_spec u before (neighbors g u) visited next)
      as (new1 & -> & Hnd1 & Hnew1 & Hall1).
    destruct (IH (reverse new1 ++ visited) (next ++ ((λ v, (v, u :: before)) <$> new1)))
      as (new2 & -> & Hnd2 & Hnew2 & Hall2).
    exists (((λ v, (v, u :: before)) <$> new1) ++ new2).
    assert ((((λ v, (v, u :: before)) <$> new1) ++ new2).*1 = new1 ++ new2.*1) as Hfst.
    { rewrite fmap_app. f_equal. rewrite <-list_fmap_compose. apply list_fmap_id. }
    rewrite Hfst, reverse_app, <-!app_assoc. split_and!.
    + done.
    + auto.
    + intros v p [Hin|Hin]%elem_of_app.
      * apply list_elem_of_fmap in Hin as (v' & [= -> ->] & Hv').
        destruct (Hnew1 v' Hv'). split; [done|].
        exists u, before. split_and!; [left|done|done].
      * destruct (Hnew2 v p Hin) as (Hnin & u' & before' & Hin' & -> & Hv).
        split; [intros ?; apply Hnin, elem_of_app; by right|].
        exists u', before'. split_and!; [by right|done|done].
    + intros u' before' v [[= -> ->]|Hin]%elem_of_cons Hv.
      * apply (Hall1 v) in Hv. apply elem_of_app. by right.
      * by eapply Hall2.
Qed.

Lemma neighbors_in_lists u v : v ∈ neighbors g u → v ∈ concat g.*2.
Proof.
  unfold neighbors. induction g as [|[k nbrs] g' IH]; csimpl.
  - by intros ?%elem_of_nil.
  - case_decide.
    + simpl. intros Hv. apply elem_of_app. by left.
    + intros Hv. apply elem_of_app. right. by apply IH.
Qed.

Variable t : Z.

(** With an empty frontier every node that a walk reaches is marked. *)
Lemma bfs_invariant_closed k visited n v :
  bfs_invariant g s t k [] visited → walk g s n v → v ∈ visited.
Proof.
  intros (_ & Hnear & Hdone & _) Hwalk.
  induction Hwalk as [|n u v Hwalk IH Hv].
  - apply (Hnear 0 s); [lia|constructor].
  - destruct (Hdone u IH) as [Hin|Hall]; [by apply elem_of_nil in Hin|auto].
Qed.

Lemma bfs_invariant_start : bfs_invariant g s t 0 [(s, [])] [s].
Proof.
  split_and!.
  - intros u before [= -> ->]%list_elem_of_singleton.
    split; [apply is_path_singleton|done].
  - intros n v Hn Hwalk. assert (n = 0) as -> by lia.
    inversion Hwalk. left.
  - intros v Hv. left. done.
  - lia.
  - intros v Hv. left. done.
  - apply NoDup_singleton.
  - intros v ->%list_elem_of_singleton. left.
  - simpl. lia.
Qed.

(** The invariant goes from one level to the next when the target is not
    on the frontier. *)
Lemma bfs_invariant_next k frontier visited new :
  bfs_invariant g s t k frontier visited →
  frontier ≠ [] →
  (∀ e, e ∈ frontier → e.1 ≠ t) →
  (NoDup visited → NoDup (reverse new.*1 ++ visited)) →
  (∀ v p, (v, p) ∈ new →
     (v ∉ visited) ∧
     ∃ u before, (u, before) ∈ frontier ∧ p = u :: before ∧ v ∈ neighbors g u) →
  (∀ u before v, (u, before) ∈ frontier → v ∈ neighbors g u →
     v ∈ reverse new.*1 ++ visited) →
  bfs_invariant g s t (S k) new (reverse new.*1 ++ visited).
Proof.
  intros (Hpaths & Hnear & Hdone & Hmin & Htarget & Hnd & Hsub & Hlen)
    Hne Hnot Hnd' Hnew Hall.
  assert (t ∉ visited) as Ht.
  { intros Hin. destruct (Htarget t Hin) as [Hf|]; [|done].
    apply list_elem_of_fmap in Hf as (e & He & Hin'). by apply (Hnot e). }
  split_and!.
  - intros v p Hin. destruct (Hnew v p Hin) as (_ & u & before & Hu & -> & Hv).
    destruct (Hpaths u before Hu) as [Hpath Hk]. split; [|simpl; lia].
    rewrite reverse_cons. by apply (is_path_snoc u).
  - intros n v Hn Hwalk. destruct (decide (n ≤ k)) as [Hle|Hgt].
    + apply elem_of_app. right. by apply (Hnear n).
    + assert (n = S k) as -> by lia. inversion Hwalk as [|n' u v' Hwalk' Hv]; subst.
      assert (u ∈ visited) as Hu by by apply (Hnear k).
      destruct (Hdone u Hu) as [Hf|Hall'].
      * apply list_elem_of_fmap in Hf as ([u' before] & -> & Hin). by eapply Hall.
      * apply elem_of_app. right. auto.
  - intros v [Hv|Hv]%elem_of_app.
    + left. by rewrite elem_of_reverse in Hv.
    + right. intros w Hw. destruct (Hdone v Hv) as [Hf|Hall'].
      * apply list_elem_of_fmap in Hf as ([u' before] & -> & Hin). by eapply Hall.
      * apply elem_of_app. right. auto.
  - intros n Hwalk. destruct (decide (n ≤ k)) as [Hle|Hgt]; [|lia].
    exfalso. apply Ht. by apply (Hnear n).
  - intros v [Hv|Hv]%elem_of_app.
    + left. by rewrite elem_of_reverse in Hv.
    + right. by intros ->.
  - auto.
  - intros v [Hv|Hv]%elem_of_app; [|auto].
    rewrite elem_of_reverse in Hv.
    apply list_elem_of_fmap in Hv as ([v' p] & -> & Hin).
    destruct (Hnew v' p Hin) as (_ & u & before & _ & _ & Hv).
    right. by eapply neighbors_in_lists.
  - intros Hnew'. rewrite length_app, length_reverse, length_fmap.
    specialize (Hlen Hne). destruct new; [done|]. simpl. lia.
Qed.

(** The search finds a shortest path to every target that a walk
    reaches. *)
Lemma bfs_correct fuel k frontier visited :
  bfs_invariant g s t k frontier visited →
  fuel + k = 2 + length (concat g.*2) →
  (∃ m, walk g s m t) →
  ∃ p, bfs fuel g t frontier visited = Ok p ∧ is_path g s t p ∧
       ∀ n, walk g s n t → length p ≤ S n.
Proof.
  revert k frontier visited.
  induction fuel as [|fuel IH]; intros k frontier visited Hinv Hfuel [m Hreach].
  - exfalso. destruct frontier as [|e frontier].
    + pose proof (bfs_invariant_closed _ _ _ _ Hinv Hreach) as Hin.
      destruct Hinv as (_ & _ & _ & _ & Htarget & _).
      destruct (Htarget t Hin) as [Hf|]; [by apply elem_of_nil in Hf|done].
    + destruct Hinv as (_ & _ & _ & _ & _ & Hnd & Hsub & Hlen).
      apply NoDup_submseteq in Hsub; [|done]. apply submseteq_length in Hsub.
      simpl in Hsub. specialize (Hlen ltac:(done)). lia.
  - cbn [bfs].
    destruct (List.find (λ e, bool_decide (e.1 = t)) frontier) as [[u before]|] eqn:Hfind.
    + apply List.find_some in Hfind as [Hin%list_elem_of_In Hu].
      apply bool_decide_eq_true in Hu. simpl in Hu. subst u.
      destruct Hinv as (Hpaths & _ & _ & Hmin & _).
      destruct (Hpaths t before Hin) as [Hpath Hk].
      exists (reverse (t :: before)). split_and!; [done..|].
      intros n Hn. rewrite length_reverse. simpl. specialize (Hmin n Hn). lia.
    + assert (∀ e, e ∈ frontier → e.1 ≠ t) as Hnot.
      { intros e He%list_elem_of_In. apply (List.find_none _ _ Hfind) in He.
        by apply bool_decide_eq_false in He. }
      destruct frontier as [|e frontier].
      { exfalso. pose proof (bfs_invariant_closed _ _ _ _ Hinv Hreach) as Hin.
        destruct Hinv as (_ & _ & _ & _ & Htarget & _).
        destruct (Htarget t Hin) as [Hf|]; [by apply elem_of_nil in Hf|done]. }
      destruct (next_level_spec (e :: frontier) visited [])
        as (new & Heq & Hnd' & Hnew & Hall).
      rewrite Heq. cbn [app].
      apply (IH (S k)); [|lia|eauto].
      by apply (bfs_invariant_next k (e :: frontier)).
Qed.

End bfs.

(** The search from the source meets what the wrapper relies on, on
    every adjacency list. *)
Lemma bfs_shortest_path_spec : Networkx.shortest_path_spec Networkx.bfs_shortest_path.
Proof.
  intros g s t q Hs Ht Hq. unfold Networkx.bfs_shortest_path. rewrite Hs, Ht.
  cbn [andb].
  destruct (bfs_correct g s t (2 + length (concat g.*2)) 0 [(s, [])] [s])
    as (p & Hp & Hpath & Hmin).
  - apply bfs_invariant_start.
  - lia.
  - exists (length q - 1). by apply is_path_walk.
  - exists p. split_and!; [done..|].
    intros q' Hq'. pose proof (is_path_walk g s t q' Hq') as Hwalk.
    specialize (Hmin _ Hwalk).
    destruct Hq' as (Hhead & _). destruct q'; [done|]. simpl in *. lia.
Qed.

(** ** The graph of a map *)

Section graph_building.
Import EnvGraph.
Local Open Scope Z_scope.
Implicit Types (g : list (Z * list Z)) (u v w : Z).

Lemma dict_get_setitem {K V} `{EqDecision K} (k k' : K) (x : V) (d : list (K * V)) :
  dict_get k' (dict_setitem k x d) = if decide (k = k') then Some x else dict_get k' d.
Proof.
  induction d as [|[k0 x0] d IH]; simpl.
  - repeat case_decide; congruence.
  - destruct (decide (k0 = k)) as [->|Hne]; simpl; repeat case_decide; congruence.
Qed.

Lemma dict_get_snoc {K V} `{EqDecision K} (k k' : K) (x : V) (d : list (K * V)) :
  dict_get k' (d ++ [(k, x)])
  = match dict_get k' d with
    | Some y => Some y
    | None => if decide (k = k') then Some x else None
    end.
Proof.
  induction d as [|[k0 x0] d IH]; simpl; [done|].
  by destruct (decide (k0 = k')).
Qed.

Lemma neighbors_add_node u g w : neighbors (add_node u g) w = neighbors g w.
Proof.
  unfold add_node, neighbors. destruct (has_node g u); [done|].
  rewrite dict_get_snoc. destruct (dict_get w g); [done|]. by case_decide.
Qed.

Lemma neighbors_add_neighbor u v g w v' :
  v' ∈ neighbors (add_neighbor u v g) w →
  v' ∈ neighbors g w ∨ (w = u ∧ v' = v).
Proof.
  unfold add_neighbor. unfold neighbors at 1. rewrite dict_get_setitem.
  case_decide as Hw; [subst w|by left]. simpl.
  case_bool_decide; [by left|].
  intros [?| ->%list_elem_of_singleton]%elem_of_app; auto.
Qed.

Lemma neighbors_add_edge u v g w v' :
  v' ∈ neighbors (add_edge u v g) w →
  v' ∈ neighbors g w ∨ (w = u ∧ v' = v) ∨ (w = v ∧ v' = u).
Proof.
  unfold add_edge.
  intros [Hin|?]%neighbors_add_neighbor; [|auto].
  apply neighbors_add_neighbor in Hin as [Hin|?]; [|auto].
  rewrite !neighbors_add_node in Hin. auto.
Qed.

Lemma add_node_keys u g :
  ∃ extra, dict_keys (add_node u g) = dict_keys g ++ extra ∧ u ∈ dict_keys (add_node u g).
Proof.
  unfold add_node, has_node, dict_mem. case_bool_decide as Hu.
  - exists []. by rewrite app_nil_r.
  - exists [u]. unfold dict_keys. rewrite fmap_app. split; [done|].
    apply elem_of_app. right. simpl. left.
Qed.

Lemma add_neighbor_keys u v g :
  u ∈ dict_keys g → dict_keys (add_neighbor u v g) = dict_keys g.
Proof.
  intros Hu. unfold add_neighbor. rewrite dict_keys_setitem. by rewrite decide_True.
Qed.

(** An edge only adds nodes, after the nodes that were there. *)
Lemma add_edge_keys u v g :
  ∃ extra, dict_keys (add_edge u v g) = dict_keys g ++ extra.
Proof.
  unfold add_edge.
  destruct (add_node_keys u g) as (e1 & Hk1 & Hu).
  destruct (add_node_keys v (add_node u g)) as (e2 & Hk2 & Hv).
  assert (u ∈ dict_keys (add_node v (add_node u g))) as Hu'.
  { rewrite Hk2. apply elem_of_app. by left. }
  exists (e1 ++ e2).
  rewrite add_neighbor_keys.
  - rewrite add_neighbor_keys by done. by rewrite Hk2, Hk1, app_assoc.
  - by rewrite add_neighbor_keys.
Qed.

Lemma nodes_graph_neighbors n u : neighbors (nodes_graph n) u = [].
Proof.
  unfold neighbors, nodes_graph.
  induction (seqZ 0 n) as [|i l IH]; csimpl; [done|]. by case_decide.
Qed.

Lemma nodes_graph_keys n : dict_keys (nodes_graph n) = seqZ 0 n.
Proof.
  unfold dict_keys, nodes_graph. rewrite <-list_fmap_compose. apply list_fmap_id.
Qed.

Lemma empty_graph_Ok n g : empty_graph n = Ok g → 0 ≤ n ∧ g = nodes_graph n.
Proof.
  unfold empty_graph. case_bool_decide; [done|]. intros [= <-]. split; [lia|done].
Qed.

Lemma empty_graph_nonneg n : 0 ≤ n → empty_graph n = Ok (nodes_graph n).
Proof. intros Hn. unfold empty_graph. by rewrite bool_decide_false by lia. Qed.

End graph_building.

Lemma for_each_invariant {A S} (P : S → Prop) (body : S → A → result S)
    (l : list A) (s s' : S) :
  (∀ s x s', P s → body s x = Ok s' → P s') →
  P s → for_each body l s = Ok s' → P s'.
Proof.
  intros Hbody. revert s. induction l as [|x l IH]; intros s Hs Hloop; simpl in Hloop.
  - by injection Hloop as <-.
  - apply bind_Ok in Hloop as (s1 & Hs1 & Hloop). eauto.
Qed.

Section init.
Import EnvGraph.
Local Open Scope Z_scope.
Variable desc : list string.
Variable cols : Z.
Hypothesis Hcols : 0 < cols.
Hypothesis Hborder : right_border_closed desc cols.

Lemma node_of_cors i : cors_to_node_with cols (i `div` cols) (i `mod` cols) = i.
Proof. unfold cors_to_node_with. pose proof (Z.div_mod i cols). lia. Qed.

(** One turn of the loop of [__init__] that does not raise leaves the
    nodes as they were and adds edges between adjacent cells only. *)
Lemma init_node_spec (g g' : list (Z * list Z)) (i : Z) :
  init_node desc cols g i = Ok g' →
  (∀ u v, v ∈ neighbors g u → grid_adjacent cols u v) →
  dict_keys g' = dict_keys g ∧
  (∀ u v, v ∈ neighbors g' u → grid_adjacent cols u v).
Proof.
  unfold init_node, node_to_cors_with. intros Hnode Hedges.
  rewrite bool_decide_false in Hnode by lia. cbn [mbind result_bind] in Hnode.
  apply bind_Ok in Hnode as (south & Hsouth & Hnode).
  apply bind_Ok in Hnode as (east & Heast & Hnode).
  set (row := i `div` cols) in *. set (col := i `mod` cols) in *.
  assert (0 ≤ col < cols) as Hcol by (apply Z.mod_pos_bound; lia).
  assert (i = row * cols + col) as Hi.
  { pose proof (Z.div_mod i cols). unfold row, col. lia. }
  set (g1 := if bool_decide (south ≠ "-"%char)
             then add_edge i (cors_to_node_with cols (row + 1) col) g else g) in *.
  set (g2 := if bool_decide (east = ":"%char)
             then add_edge i (cors_to_node_with cols row (col + 1)) g1 else g1) in *.
  case_bool_decide as Hsize; [|done]. injection Hnode as <-.
  assert (∃ e1, dict_keys g1 = dict_keys g ++ e1) as [e1 He1].
  { unfold g1. case_bool_decide; [apply add_edge_keys|].
    exists []. by rewrite app_nil_r. }
  assert (∃ e2, dict_keys g2 = dict_keys g1 ++ e2) as [e2 He2].
  { unfold g2. case_bool_decide; [apply add_edge_keys|].
    exists []. by rewrite app_nil_r. }
  split.
  - rewrite He2, He1.
    assert (length (dict_keys g2) = length (dict_keys g)) as Hlen.
    { unfold dict_keys. by rewrite !length_fmap. }
    rewrite He2, He1, !length_app in Hlen.
    destruct e1; [|simpl in Hlen; lia]. destruct e2; [|simpl in Hlen; lia].
    by rewrite !app_nil_r.
  - assert (∀ u v, v ∈ neighbors g1 u → grid_adjacent cols u v) as Hedges1.
    { unfold g1. case_bool_decide; [|done].
      intros u v [Hin|[[-> ->]|[-> ->]]]%neighbors_add_edge; [auto|..];
        unfold grid_adjacent, cors_to_node_with; [left|right; left]; lia. }
    unfold g2. case_bool_decide as Heq; [|done]. subst east.
    assert (col + 1 < cols) as Hnext.
    { destruct (decide (col + 1 = cols)) as [Hlast|]; [|lia].
      exfalso. apply (Hborder (row + 1)).
      by replace (2 * cols) with (col * 2 + 2) by lia. }
    intros u v [Hin|[[-> ->]|[-> ->]]]%neighbors_add_edge; [auto|..];
      unfold grid_adjacent, cors_to_node_with; [right; right; left|right; right; right];
      (split; [lia|]).
    + exact Hnext.
    + exact Hnext.
Qed.

(** The graph of a map whose [__init__] succeeds: the nodes are the cells
    [0 .. rows * cols - 1] and every edge joins adjacent cells. *)
Lemma init_loop_spec (n : Z) (g : list (Z * list Z)) :
  for_each (init_node desc cols) (dict_keys (nodes_graph n)) (nodes_graph n) = Ok g →
  dict_keys g = seqZ 0 n ∧
  (∀ u v, v ∈ neighbors g u → grid_adjacent cols u v).
Proof.
  intros Hloop.
  apply (for_each_invariant
    (λ g, dict_keys g = seqZ 0 n ∧
          ∀ u v, v ∈ neighbors g u → grid_adjacent cols u v)) in Hloop; [done|..].
  - intros g0 i g1 [Hkeys Hedges] Hnode.
    destruct (init_node_spec g0 g1 i Hnode Hedges) as [Hkeys' Hedges'].
    split; [congruence|done].
  - split; [apply nodes_graph_keys|].
    intros u v. rewrite nodes_graph_neighbors. by intros ?%elem_of_nil.
Qed.

End init.

Lemma init_spec (desc : list string) (eg : EnvGraph.t) :
  EnvGraph.init desc = Ok eg →
  (0 < EnvGraph.cols eg)%Z →
  EnvGraph.right_border_closed desc (EnvGraph.cols eg) →
  dict_keys (EnvGraph.the_graph eg) = seqZ 0 (EnvGraph.rows eg * EnvGraph.cols eg) ∧
  (∀ u v, v ∈ EnvGraph.neighbors (EnvGraph.the_graph eg) u →
          EnvGraph.grid_adjacent (EnvGraph.cols eg) u v).
Proof.
  unfold EnvGraph.init. intros Hinit.
  apply bind_Ok in Hinit as (row0 & Hrow0 & Hinit).
  apply bind_Ok in Hinit as (g0 & [_ ->]%empty_graph_Ok & Hinit).
  apply bind_Ok in Hinit as (g & Hloop & [= <-]). simpl.
  intros Hcols Hborder. by eapply init_loop_spec.
Qed.

(** ** [get_path] on maps of two columns or more *)

Section get_path.
Import EnvGraph Networkx Replay.
Local Open Scope Z_scope.

Lemma decode_cons cols a b (rest : list Z) :
  decode cols (a :: b :: rest) = delta_action cols (b - a) :: decode cols (b :: rest).
Proof. done. Qed.

Lemma decode_fmap_seq cols (path : list Z) :
  (λ i, delta_action cols (path !!! S i - path !!! i)) <$> seq 0 (length path - 1)
  = decode cols path.
Proof.
  induction path as [|a [|b rest] IH]; [done..|].
  rewrite decode_cons, <-IH. cbn [length].
  replace (S (S (length rest)) - 1)%nat with (S (length rest)) by lia.
  replace (S (length rest) - 1)%nat with (length rest) by lia.
  rewrite <-cons_seq, fmap_cons. f_equal.
  rewrite <-fmap_S_seq, <-list_fmap_compose. done.
Qed.

Lemma path_actions_decode cols (path : list Z) :
  path_actions cols path = Ok (decode cols path).
Proof. by rewrite path_actions_Ok, decode_fmap_seq. Qed.

Lemma length_decode cols (path : list Z) :
  length (decode cols path) = (length path - 1)%nat.
Proof. by rewrite <-decode_fmap_seq, length_fmap, length_seq. Qed.

Lemma map_result_node_to_cors (self : EnvGraph.t) (path : list Z) :
  cols self ≠ 0 →
  map_result (node_to_cors self) path
  = Ok ((λ node, [node `div` cols self; node `mod` cols self]) <$> path).
Proof.
  intros Hcols. induction path as [|a path IH]; [done|].
  cbn [map_result]. rewrite IH. unfold node_to_cors, node_to_cors_with.
  by rewrite bool_decide_false by done.
Qed.

Lemma div_mod_next_row a cols :
  0 < cols →
  (a + cols) `div` cols = a `div` cols + 1 ∧ (a + cols) `mod` cols = a `mod` cols.
Proof.
  intros Hcols. replace (a + cols) with (a + 1 * cols) by lia.
  rewrite Z.div_add, Z.mod_add by lia. done.
Qed.

Lemma div_mod_next_col a cols :
  0 < cols → a `mod` cols + 1 < cols →
  (a + 1) `div` cols = a `div` cols ∧ (a + 1) `mod` cols = a `mod` cols + 1.
Proof.
  intros Hcols Hrow.
  pose proof (Z.div_mod a cols ltac:(lia)) as Ha.
  pose proof (Z.mod_pos_bound a cols Hcols) as Hb.
  split; symmetry.
  - apply (Z.div_unique _ _ _ (a `mod` cols + 1)); lia.
  - apply (Z.mod_unique _ _ (a `div` cols)); lia.
Qed.

(** With two columns or more the four differences are distinct, and the
    action of a step between adjacent cells moves from one to the other. *)
Lemma apply_action_adjacent cols a b :
  2 ≤ cols → grid_adjacent cols a b →
  apply_action [a `div` cols; a `mod` cols] (delta_action cols (b - a))
  = [b `div` cols; b `mod` cols].
Proof.
  intros Hcols Hadj.
  destruct Hadj as [->|[->|[[-> Hrow]|[-> Hrow]]]].
  - assert (delta_action cols (a + cols - a) = 0) as ->.
    { unfold delta_action. by rewrite !bool_decide_false by lia. }
    unfold apply_action. rewrite bool_decide_true by lia.
    destruct (div_mod_next_row a cols) as [-> ->]; [lia|done].
  - assert (delta_action cols (b - (b + cols)) = 1) as ->.
    { unfold delta_action.
      by rewrite bool_decide_false, bool_decide_false, bool_decide_true by lia. }
    unfold apply_action. rewrite bool_decide_false, bool_decide_true by lia.
    destruct (div_mod_next_row b cols) as [-> ->]; [lia|].
    repeat f_equal; lia.
  - assert (delta_action cols (a + 1 - a) = 2) as ->.
    { unfold delta_action. by rewrite bool_decide_false, bool_decide_true by lia. }
    unfold apply_action.
    rewrite bool_decide_false, bool_decide_false, bool_decide_true by lia.
    destruct (div_mod_next_col a cols) as [-> ->]; [lia|done|done].
  - assert (delta_action cols (b - (b + 1)) = 3) as ->.
    { unfold delta_action. by rewrite bool_decide_true by lia. }
    unfold apply_action.
    rewrite bool_decide_false, bool_decide_false, bool_decide_false,
      bool_decide_true by lia.
    destruct (div_mod_next_col b cols) as [-> ->]; [lia|done|].
    repeat f_equal; lia.
Qed.

Lemma replay_decode cols u (rest : list Z) :
  2 ≤ cols →
  (∀ i a b, (u :: rest) !! i = Some a → (u :: rest) !! S i = Some b →
            grid_adjacent cols a b) →
  replay [u `div` cols; u `mod` cols] (decode cols (u :: rest))
  = (λ node, [node `div` cols; node `mod` cols]) <$> rest.
Proof.
  intros Hcols. revert u. induction rest as [|v rest IH]; intros u Hadj; [done|].
  rewrite decode_cons, fmap_cons. cbn [replay].
  rewrite apply_action_adjacent; [|done|by apply (Hadj 0%nat)].
  f_equal. apply IH. intros i a b Ha Hb. by apply (Hadj (S i)).
Qed.

End get_path.

(** ** The returned actions replay to the returned coordinates *)

Section get_path_wide.
Import EnvGraph Networkx Replay.
Local Open Scope Z_scope.

Variable sp : list (Z * list Z) → Z → Z → result (list Z).
Hypothesis sp_spec : shortest_path_spec sp.

Lemma in_grid_node (eg : EnvGraph.t) (cor : list Z) :
  in_grid eg cor →
  ∃ u, cors_to_node_unpack eg cor = Ok u ∧
       0 ≤ u < rows eg * cols eg ∧
       cor = [u `div` cols eg; u `mod` cols eg].
Proof.
  intros (row & col & -> & Hrow & Hcol).
  exists (row * cols eg + col). split_and!; [done|nia|nia|].
  unfold cors_to_node_unpack, cors_to_node, cors_to_node_with.
  rewrite Z.div_add_l, Z.div_small, Z.add_0_r by lia.
  rewrite Z.add_comm, Z.mod_add, Z.mod_small by lia. done.
Qed.

Lemma is_path_adjacent (eg : EnvGraph.t) s t p :
  (∀ u v, v ∈ neighbors (the_graph eg) u → grid_adjacent (cols eg) u v) →
  is_path (the_graph eg) s t p →
  ∃ rest, p = s :: rest ∧
    ∀ i a b, (s :: rest) !! i = Some a → (s :: rest) !! S i = Some b →
             grid_adjacent (cols eg) a b.
Proof.
  intros Hadj (Hhead & _ & Hstep).
  destruct p as [|s' rest]; [done|]. injection Hhead as ->.
  exists rest. split; [done|]. intros i a b Ha Hb. eauto.
Qed.

(** X18.  On a map of two columns or more whose right border is closed,
    the path between two cells of one component has as many coordinates as
    actions, one less than the nodes of a shortest path of the graph, and
    the actions lead from the origin through the coordinates. *)
Lemma get_path_replay_wide (desc : list string) (eg : EnvGraph.t)
    (origin target : list Z) (s t : Z) (q : list Z) :
  EnvGraph.init desc = Ok eg →
  2 ≤ cols eg →
  right_border_closed desc (cols eg) →
  in_grid eg origin → in_grid eg target →
  cors_to_node_unpack eg origin = Ok s →
  cors_to_node_unpack eg target = Ok t →
  is_path (the_graph eg) s t q →
  ∃ cords actions,
    get_path sp eg origin target = Ok (cords, actions) ∧
    length cords = length actions ∧
    (∃ p, is_path (the_graph eg) s t p ∧ length p = S (length cords)) ∧
    (∀ q', is_path (the_graph eg) s t q' → (S (length cords) ≤ length q')%nat) ∧
    replay origin actions = cords.
Proof.
  intros Hinit Hcols Hborder Horigin Htarget Hs Ht Hq.
  destruct (init_spec desc eg Hinit ltac:(lia) Hborder) as [Hkeys Hadj].
  destruct (in_grid_node eg origin Horigin) as (s' & Hs' & Hsin & Hso).
  destruct (in_grid_node eg target Htarget) as (t' & Ht' & Htin & Hto).
  assert (s' = s) as -> by congruence. assert (t' = t) as -> by congruence.
  unfold get_path. rewrite Hs, Ht. cbn [mbind result_bind].
  case_bool_decide as Hst.
  - subst t. exists [], []. split_and!; [done..| | |done].
    + exists [s]. split; [|done]. split_and!; [done..|]. by intros [|[|i]].
    + intros q' (Hhead & _). destruct q'; [done|]. cbn. lia.
  - assert (has_node (the_graph eg) s = true) as Hhs.
    { unfold has_node, dict_mem. rewrite Hkeys.
      apply bool_decide_eq_true, elem_of_seqZ. lia. }
    assert (has_node (the_graph eg) t = true) as Hht.
    { unfold has_node, dict_mem. rewrite Hkeys.
      apply bool_decide_eq_true, elem_of_seqZ. lia. }
    destruct (sp_spec _ _ _ _ Hhs Hht Hq) as (p & Hp & Hpath & Hmin).
    rewrite Hp. cbn [mbind result_bind].
    rewrite map_result_node_to_cors by lia. cbn [mbind result_bind].
    rewrite path_actions_decode. cbn [mbind result_bind].
    destruct (is_path_adjacent eg s t p Hadj Hpath) as (rest & -> & Hsteps).
    eexists _, _. split; [done|].
    rewrite fmap_cons. cbn [drop]. rewrite drop_0.
    split_and!.
    + rewrite length_fmap, length_decode. cbn [length]. lia.
    + exists (s :: rest). split; [done|]. by rewrite length_fmap.
    + intros q' Hq'. rewrite length_fmap. by apply Hmin.
    + rewrite Hso. by apply replay_decode.
Qed.

End get_path_wide.

Lemma getitemZ_elem_of {A} (l : list A) (i : Z) (x : A) :
  EnvGraph.getitemZ l i = Ok x → x ∈ l.
Proof.
  unfold EnvGraph.getitemZ.
  repeat case_bool_decide; [| |done]; intros Hx%getitem_Ok;
    by eapply list_elem_of_lookup_2.
Qed.

(** The condition on the right border can be checked row by row. *)
Lemma right_border_closed_rows (desc : list string) (cols : Z) :
  Forall (λ row, EnvGraph.getitemZ (list_ascii_of_string row) (2 * cols)
                 ≠ Ok ":"%char) desc →
  EnvGraph.right_border_closed desc cols.
Proof.
  intros Hrows r. unfold EnvGraph.desc_at.
  destruct (EnvGraph.getitemZ desc r) as [row|] eqn:Hrow; [|done].
  cbn [mbind result_bind]. rewrite Forall_forall in Hrows.
  apply Hrows. by eapply getitemZ_elem_of.
Qed.

(** * Further properties of the code *)

(** ** Coordinates and nodes *)

Section coordinates.
Import EnvGraph.
Local Open Scope Z_scope.

(** X1.  A node index survives the trip through its coordinate: on a
    graph whose column count is not zero, [node_to_cors] returns a
    coordinate that [cors_to_node] maps back to the node, for every
    integer. *)
Theorem node_to_cors_to_node (self : EnvGraph.t) (node : Z) :
  cols self ≠ 0 →
  ∃ cor, node_to_cors self node = Ok cor ∧ cors_to_node_unpack self cor = Ok node.
Proof.
  intros Hcols. exists [node `div` cols self; node `mod` cols self]. split.
  - unfold node_to_cors, node_to_cors_with. by rewrite bool_decide_false.
  - unfold cors_to_node_unpack, cors_to_node, cors_to_node_with. f_equal.
    pose proof (Z.div_mod node (cols self) Hcols). lia.
Qed.

Lemma node_to_cors_to_node_witness :
  ∃ cor, node_to_cors (Scenarios.graph_of Scenarios.square_map) 7 = Ok cor ∧
         cors_to_node_unpack (Scenarios.graph_of Scenarios.square_map) cor = Ok 7.
Proof.
  apply (node_to_cors_to_node (Scenarios.graph_of Scenarios.square_map) 7).
  vm_compute. by intros [=].
Defined.

(** X2.  A coordinate survives the trip through its node index as long as
    its column lies inside the grid; the row may be any integer. *)
Theorem cors_to_node_to_cors (self : EnvGraph.t) (row col : Z) :
  0 ≤ col < cols self →
  node_to_cors self (cors_to_node self row col) = Ok [row; col].
Proof.
  intros Hcol. unfold node_to_cors, node_to_cors_with, cors_to_node, cors_to_node_with.
  rewrite bool_decide_false by lia.
  rewrite Z.div_add_l, Z.div_small, Z.add_0_r by lia.
  rewrite Z.add_comm, Z.mod_add, Z.mod_small by lia. done.
Qed.

Lemma cors_to_node_to_cors_witness :
  node_to_cors (Scenarios.graph_of Scenarios.square_map)
    (cors_to_node (Scenarios.graph_of Scenarios.square_map) 2 1) = Ok [2; 1].
Proof.
  apply (cors_to_node_to_cors (Scenarios.graph_of Scenarios.square_map) 2 1).
  vm_compute. split; [by intros [=]|reflexivity].
Defined.

End coordinates.

(** ** The two lists of [get_path] *)

Lemma length_map_result {A B} (f : A → result B) (l : list A) (ys : list B) :
  map_result f l = Ok ys → length ys = length l.
Proof.
  revert ys. induction l as [|x l IH]; intros ys Hmap; simpl in Hmap.
  - by injection Hmap as <-.
  - apply bind_Ok in Hmap as (y & _ & Hmap).
    apply bind_Ok in Hmap as (ys' & Hys' & [= <-]). simpl. f_equal. by apply IH.
Qed.

Lemma get_path_lengths
    (sp : list (Z * list Z) → Z → Z → result (list Z))
    (self : EnvGraph.t) (origin target : list Z)
    (cords : list (list Z)) (actions : list Z) :
  EnvGraph.get_path sp self origin target = Ok (cords, actions) →
  length cords = length actions.
Proof.
  unfold EnvGraph.get_path. intros Hget.
  apply bind_Ok in Hget as (s & _ & Hget). apply bind_Ok in Hget as (t & _ & Hget).
  case_bool_decide; [by injection Hget as <- <-|].
  apply bind_Ok in Hget as (path & _ & Hget).
  apply bind_Ok in Hget as (cord_path & Hcords & Hget).
  apply bind_Ok in Hget as (acts & Hacts & [= <- <-]).
  rewrite path_actions_decode in Hacts. injection Hacts as <-.
  apply length_map_result in Hcords.
  rewrite length_drop, length_decode. lia.
Qed.

(** X3.  Whatever the map and whatever path the graph library hands
    back, the coordinates and the actions that [get_path] returns are
    equally many. *)
Theorem get_path_same_length
    (sp : list (Z * list Z) → Z → Z → result (list Z))
    (self : EnvGraph.t) (origin target : list Z)
    (cords : list (list Z)) (actions : list Z) :
  EnvGraph.get_path sp self origin target = Ok (cords, actions) →
  length cords = length actions.
Proof. apply get_path_lengths. Qed.

Lemma get_path_same_length_witness :
  EnvGraph.get_path Networkx.shortest_path
    (Scenarios.graph_of Scenarios.column_map) [0; 0]%Z [1; 0]%Z
  = Ok ([[1; 0]]%Z, [2]%Z) ∧
  length [[1; 0]]%Z = length [2]%Z.
Proof.
  assert (EnvGraph.get_path Networkx.shortest_path
            (Scenarios.graph_of Scenarios.column_map) [0; 0]%Z [1; 0]%Z
          = Ok ([[1; 0]]%Z, [2]%Z)) as Hget by (vm_compute; reflexivity).
  split; [exact Hget|].
  exact (get_path_same_length _ _ _ _ _ _ Hget).
Defined.

(** ** The taxi's bookkeeping *)

Section bookkeeping.
Import SocialTaxi.
Local Open Scope Z_scope.

Lemma dict_mem_get {K V} `{EqDecision K} (k : K) (d : list (K * V)) :
  dict_mem k d = false → dict_get k d = None.
Proof.
  unfold dict_mem, dict_keys. intros Hk%bool_decide_eq_false.
  induction d as [|[k0 v0] d IH]; [done|]. simpl.
  rewrite fmap_cons, not_elem_of_cons in Hk. destruct Hk as [Hne Hk].
  rewrite decide_False by done. by apply IH.
Qed.

Lemma action_cor_dict_add (self : SocialTaxi.t) (cor : list Z) (action : Z) :
  action_cor_dict (add_action_to_cor self cor action)
  = dict_setitem cor (default [] (dict_get cor (action_cor_dict self)) ++ [action])
      (action_cor_dict self).
Proof.
  unfold add_action_to_cor.
  destruct (dict_mem cor (action_cor_dict self)) eqn:Hmem; [done|].
  by rewrite (dict_mem_get _ _ Hmem).
Qed.

(** X4.  After [add_action_to_cor(cor, action)] the coordinate holds the
    actions it held before, in their order, followed by the new one; every
    other coordinate holds what it held before. *)
Theorem add_action_to_cor_lookup (self : SocialTaxi.t) (cor cor' : list Z)
    (action : Z) :
  dict_get cor' (action_cor_dict (add_action_to_cor self cor action))
  = if decide (cor = cor')
    then Some (default [] (dict_get cor (action_cor_dict self)) ++ [action])
    else dict_get cor' (action_cor_dict self).
Proof. by rewrite action_cor_dict_add, dict_get_setitem. Qed.

Lemma next_steps_spec (n : nat) (self : SocialTaxi.t) (prev : history) :
  let pairs := zip (path_cords self) (path_actions self) in
  (next_steps n self prev).2
    = (Some <$> take n pairs) ++ replicate (n - length pairs) None ∧
  path_cords (next_steps n self prev).1.1
    = drop (n `min` length pairs) (path_cords self) ∧
  path_actions (next_steps n self prev).1.1
    = drop (n `min` length pairs) (path_actions self).
Proof.
  revert self prev. induction n as [|n IH]; intros self prev; [done|].
  cbn [next_steps]. unfold get_next_step.
  destruct (path_cords self) as [|c cs] eqn:Hcs;
    [|destruct (path_actions self) as [|a acts] eqn:Has].
  - specialize (IH self prev).
    destruct (next_steps n self prev) as [[self' prev'] steps].
    cbn [fst snd] in *. destruct IH as (-> & -> & ->).
    rewrite Hcs. cbn [zip zip_with length take fmap list_fmap app]. 
    rewrite take_nil. cbn [fmap list_fmap app length]. rewrite !Nat.sub_0_r, !Nat.min_0_r.
    done.
  - specialize (IH self prev).
    destruct (next_steps n self prev) as [[self' prev'] steps].
    cbn [fst snd] in *. destruct IH as (-> & -> & ->).
    rewrite Hcs, Has. cbn [zip zip_with length].
    rewrite take_nil. cbn [fmap list_fmap app length].
    rewrite !Nat.sub_0_r, !Nat.min_0_r. done.
  - specialize (IH (set_path self cs acts)
                  {| previous_coordinate := c; previous_action := Some a |}).
    destruct (next_steps n (set_path self cs acts) _) as [[self' prev'] steps].
    cbn [fst snd set_path path_cords path_actions] in *.
    destruct IH as (-> & -> & ->). done.
Qed.

(** X5.  Calls of [get_next_step] in a row hand out the coordinates and
    the actions of the stored path pairwise and in order; once either list
    is used up every further call returns [None] and changes nothing.
    After [n] calls both lists have lost their first [n] entries, or as
    many as there were pairs. *)
Theorem next_steps_in_order (n : nat) (self : SocialTaxi.t) (prev : history) :
  let pairs := zip (path_cords self) (path_actions self) in
  (next_steps n self prev).2
    = (Some <$> take n pairs) ++ replicate (n - length pairs) None ∧
  path_cords (next_steps n self prev).1.1
    = drop (n `min` length pairs) (path_cords self) ∧
  path_actions (next_steps n self prev).1.1
    = drop (n `min` length pairs) (path_actions self).
Proof. apply next_steps_spec. Qed.

(** A path with as many coordinates as actions is used up by as many
    calls, none of which returns [None]. *)
Lemma next_steps_whole_path (self : SocialTaxi.t) (prev : history) :
  length (path_cords self) = length (path_actions self) →
  (next_steps (length (path_cords self)) self prev).2
    = Some <$> zip (path_cords self) (path_actions self) ∧
  path_cords (next_steps (length (path_cords self)) self prev).1.1 = [] ∧
  path_actions (next_steps (length (path_cords self)) self prev).1.1 = [].
Proof.
  intros Hlen.
  destruct (next_steps_spec (length (path_cords self)) self prev) as (-> & -> & ->).
  assert (length (zip (path_cords self) (path_actions self))
          = length (path_cords self)) as Hzip.
  { rewrite length_zip. lia. }
  rewrite Hzip, Nat.sub_diag, Nat.min_id. cbn [replicate].
  rewrite app_nil_r, take_ge by lia. rewrite drop_all.
  split_and!; [done..|]. rewrite Hlen. apply drop_all.
Qed.

End bookkeeping.

(** ** Detours: the optimal path and the scan of the passengers *)

Section detour_edges.
Import SocialTaxi.
Local Open Scope Z_scope.
Variable shortest_path : list (Z * list Z) → Z → Z → result (list Z).

Lemma compute_optimal_path_inv (self : SocialTaxi.t)
    (cords : list (list Z)) (actions : list Z) :
  compute_optimal_path shortest_path self = Ok (cords, actions) →
  ∃ k loc start dest to_start to_dest,
    passenger_index self = Some k ∧
    get_taxi_location self = Ok loc ∧
    passengers_start_locations (taxi_env self) !! k = Some start ∧
    passengers_destinations (taxi_env self) !! k = Some dest ∧
    get_path shortest_path self loc start = Ok to_start ∧
    get_path shortest_path self start dest = Ok to_dest ∧
    cords = to_start.1 ++ to_dest.1 ∧ actions = to_start.2 ++ to_dest.2.
Proof.
  unfold compute_optimal_path. intros Hpath.
  apply bind_Ok in Hpath as (loc & Hloc & Hpath).
  apply bind_Ok in Hpath as (start & Hstart & Hpath).
  apply bind_Ok in Hpath as (dest & Hdest & Hpath).
  apply bind_Ok in Hpath as ([c1 a1] & H1 & Hpath).
  apply bind_Ok in Hpath as ([c2 a2] & H2 & [= <- <-]).
  destruct (passenger_index self) as [k|]; [|done].
  apply getitem_Ok in Hstart, Hdest.
  exists k, loc, start, dest, (c1, a1), (c2, a2). done.
Qed.

(** X6.  When [compute_optimal_path] returns, the taxi has a passenger,
    and the path holds as many coordinates as actions: the way to the
    passenger followed by the passenger's way to the destination. *)
Theorem compute_optimal_path_same_length (self : SocialTaxi.t)
    (cords : list (list Z)) (actions : list Z) :
  compute_optimal_path shortest_path self = Ok (cords, actions) →
  passenger_index self ≠ None ∧ length cords = length actions.
Proof.
  intros (k & loc & start & dest & [c1 a1] & [c2 a2] & Hk & _ & _ & _ & H1 & H2
          & -> & ->)%compute_optimal_path_inv.
  split; [by rewrite Hk|].
  apply get_path_lengths in H1, H2. cbn [fst snd]. rewrite !length_app. lia.
Qed.

(** X7.  A taxi that stands on its own passenger, whose destination is
    that same cell, has an empty optimal path; asking for the best drop-off
    of another passenger then fails with [IndexError] on the last element
    of the empty path. *)
Theorem get_optimal_socail_drop_off_empty_path (self : SocialTaxi.t)
    (k other : nat) (row col : Z) (dest : list Z) :
  passenger_index self = Some k →
  taxis_locations (taxi_env self) !! taxi_index self = Some [row; col] →
  passengers_start_locations (taxi_env self) !! k = Some [row; col] →
  passengers_destinations (taxi_env self) !! k = Some [row; col] →
  passengers_destinations (taxi_env self) !! other = Some dest →
  compute_optimal_path shortest_path self = Ok ([], []) ∧
  get_optimal_socail_drop_off shortest_path self other = Raise IndexError.
Proof.
  intros Hk Hloc Hstart Hdest Hother.
  assert (compute_optimal_path shortest_path self = Ok ([], [])) as Hpath.
  { unfold compute_optimal_path, get_taxi_location, index_by, get_path.
    rewrite Hk. apply getitem_Ok in Hloc, Hstart, Hdest.
    rewrite Hloc, Hstart, Hdest. cbn [mbind result_bind].
    unfold EnvGraph.get_path. cbn [EnvGraph.cors_to_node_unpack mbind result_bind].
    by rewrite bool_decide_true. }
  split; [done|].
  unfold get_optimal_socail_drop_off. apply getitem_Ok in Hother.
  by rewrite Hother, Hpath.
Qed.

End detour_edges.

Lemma compute_optimal_path_same_length_witness :
  SocialTaxi.passenger_index (Scenarios.taxi Scenarios.near_env 0 (Some 0)) ≠ None ∧
  length [[0; 1]; [0; 2]; [0; 3]]%Z = length [2; 2; 2]%Z.
Proof.
  apply (compute_optimal_path_same_length Networkx.shortest_path
           (Scenarios.taxi Scenarios.near_env 0 (Some 0))).
  vm_compute. reflexivity.
Defined.

Lemma get_optimal_socail_drop_off_empty_path_witness :
  SocialTaxi.compute_optimal_path Networkx.shortest_path
    (Scenarios.taxi Scenarios.spot_env 0 (Some 0)) = Ok ([], []) ∧
  SocialTaxi.get_optimal_socail_drop_off Networkx.shortest_path
    (Scenarios.taxi Scenarios.spot_env 0 (Some 0)) 1 = Raise IndexError.
Proof.
  apply (get_optimal_socail_drop_off_empty_path Networkx.shortest_path
           (Scenarios.taxi Scenarios.spot_env 0 (Some 0)) 0 1 0%Z 0%Z [0; 3]%Z);
    reflexivity.
Defined.

Section no_detour.
Import SocialTaxi.
Local Open Scope Z_scope.
Variable shortest_path : list (Z * list Z) → Z → Z → result (list Z).
Variable self : SocialTaxi.t.
Variable current_cor : list Z.
Variable threshold : Z.

(** The pick-up and the drop-off are set together. *)
Lemma scan_no_pick_up (others : list nat) (idx0 : option nat)
    (dr : option (list Z)) (idx : option nat) :
  scan_passengers shortest_path self current_cor threshold others (None, None, idx0)
    = Ok (None, dr, idx) →
  dr = None.
Proof.
  revert idx0. induction others as [|j others IH]; intros idx0 Hres.
  - by injection Hres as <- <-.
  - apply scan_cons_inv in Hres
      as [Hres|[Hres|(loc & dest & base & drop & d & _ & _ & Hres)]]; [by eauto..|].
    by case_bool_decide; simplify_eq.
Qed.

(** X8.  With a negative threshold, as in the run that counts the
    actions without detours, [get_close_passengers] never proposes a
    pick-up or a drop-off: no path has fewer than zero actions. *)
Theorem get_close_passengers_negative_threshold
    (pu dr : option (list Z)) (idx : option nat) :
  threshold < 0 →
  get_close_passengers shortest_path self current_cor threshold = Ok (pu, dr, idx) →
  pu = None ∧ dr = None.
Proof.
  intros Hneg Hres. unfold get_close_passengers in Hres.
  destruct pu as [pu|].
  - apply scan_accept_inv in Hres
      as (i & dest & base & drop & d & _ & _ & _ & Hc & _).
    destruct Hc as (_ & _ & _ & _ & _ & cords & actions & _ & Hnear). lia.
  - split; [done|]. by eapply scan_no_pick_up.
Qed.

End no_detour.

Lemma get_close_passengers_negative_threshold_witness :
  SocialTaxi.get_close_passengers Networkx.shortest_path
    (Scenarios.taxi Scenarios.near_env 0 (Some 0)) [0; 0]%Z (-1)%Z
  = Ok (None, None, Some 1) ∧
  (None : option (list Z)) = None ∧ (None : option (list Z)) = None.
Proof.
  assert (SocialTaxi.get_close_passengers Networkx.shortest_path
            (Scenarios.taxi Scenarios.near_env 0 (Some 0)) [0; 0]%Z (-1)%Z
          = Ok (None, None, Some 1)) as Hres by (vm_compute; reflexivity).
  split; [exact Hres|].
  apply (get_close_passengers_negative_threshold Networkx.shortest_path
           (Scenarios.taxi Scenarios.near_env 0 (Some 0)) [0; 0]%Z (-1)%Z
           None None (Some 1)); [lia|exact Hres].
Defined.

(** ** The exhaustive solver without taxis or without passengers *)

Section optimal_empty.
Import TaskAllocator.

Lemma for_each_empty_allocations (self : TaskAllocator.t)
    (allocations : list (list (nat * nat))) (d : list (list (nat * nat) * Z)) :
  Forall (λ a, a = []) allocations →
  d = [] ∨ d = [([], 0%Z)] →
  allocations ≠ [] ∨ d ≠ [] →
  for_each (λ allocations_total_distances alloc,
              allocation_total_distance ← allocation_total self alloc;
              Ok (dict_setitem alloc allocation_total_distance
                    allocations_total_distances))
           allocations d = Ok [([], 0%Z)].
Proof.
  intros Hall. revert d. induction Hall as [|a allocations Ha _ IH]; intros d Hd Hne.
  - destruct Hd as [-> | ->]; [by destruct Hne|done].
  - subst a. cbn [for_each allocation_total mbind result_bind].
    apply IH; [|by right; apply dict_setitem_nonempty].
    right. by destruct Hd as [-> | ->].
Qed.

(** X9.  Without taxis or without passengers the exhaustive solver does
    not fail: the only allocation is the empty one, and the result is the
    empty dictionary, whatever the distance matrix holds. *)
Theorem optimal_assignment_empty (self : TaskAllocator.t) :
  num_taxis self = 0 ∨ num_passengers self = 0 →
  optimal_assignment self = Ok [].
Proof.
  intros Hzero. unfold optimal_assignment, passengers_allocations_cost.
  rewrite for_each_empty_allocations; [done| |by left|].
  - apply Forall_fmap, Forall_forall. intros sigma Hsigma. simpl.
    destruct Hzero as [->| Hnp]; [done|].
    rewrite Hnp in Hsigma. apply list_elem_of_singleton in Hsigma as ->.
    by destruct (seq 0 (num_taxis self)).
  - left. intros Hnil%fmap_nil_inv. by apply permutations_nonempty in Hnil.
Qed.

End optimal_empty.

Lemma optimal_assignment_empty_witness :
  TaskAllocator.optimal_assignment
    {| TaskAllocator.num_taxis := 0; TaskAllocator.num_passengers := 3;
       TaskAllocator.distances := [] |} = Ok [].
Proof. apply optimal_assignment_empty. by left. Defined.

(** ** The distance matrix *)

Section distances.
Import SocialTaxi TaskAllocatorEnv Assignment.
Variable get_path : list Z → list Z → result (list (list Z) * list Z).
Variable taxi_env : TaxiEnv.
Let nt := num_taxis taxi_env.
Let np := num_passengers taxi_env.
Local Abbreviation cell M i j := (M !! i ≫= (.!! j)).
Local Abbreviation path_length := (compute_shortest_path_length get_path).

Lemma matrix_set_shape (M : list (list Z)) (i j d : nat) :
  shape nt np M → shape nt np (matrix_set M i j d).
Proof.
  intros [Hlen Hrows]. unfold matrix_set. split.
  - by rewrite length_alter.
  - apply Forall_lookup. intros i' row Hrow.
    rewrite Forall_lookup in Hrows.
    destruct (decide (i = i')) as [->|Hne].
    + rewrite list_lookup_alter_eq in Hrow.
      destruct (M !! i') as [row'|] eqn:Hrow'; [|done].
      injection Hrow as <-. rewrite length_insert. eauto.
    + rewrite list_lookup_alter_ne in Hrow by done. eauto.
Qed.

Lemma cell_matrix_set (M : list (list Z)) (i j d i' j' : nat) :
  shape nt np M → i < nt → j < np →
  cell (matrix_set M i j d) i' j'
  = if decide (i = i' ∧ j = j') then Some (Z.of_nat d) else cell M i' j'.
Proof.
  intros [Hlen Hrows] Hi Hj. unfold matrix_set.
  destruct (decide (i = i')) as [<-|Hne].
  - rewrite list_lookup_alter_eq.
    destruct (lookup_lt_is_Some_2 M i) as [row Hrow]; [lia|].
    rewrite Hrow. cbn.
    assert (length row = np) as Hrowlen.
    { rewrite Forall_lookup in Hrows. eauto. }
    destruct (decide (j = j')) as [<-|Hnej].
    + rewrite decide_True by done. apply list_lookup_insert_eq. lia.
    + rewrite decide_False by naive_solver. by apply list_lookup_insert_ne.
  - rewrite list_lookup_alter_ne by done. by rewrite decide_False by naive_solver.
Qed.

(** The loop over the taxis for one passenger. *)
Lemma taxi_loop_spec (M M' : list (list Z)) (j : nat) (start : list Z)
    (d0 : nat) (k : nat) :
  shape nt np M → j < np → k ≤ nt →
  for_each
    (λ distances taxi_ind,
       taxi_initial_loc ← getitem (taxis_locations taxi_env) taxi_ind;
       taxi_to_passenger_distance ← path_length taxi_initial_loc start;
       Ok (matrix_set distances taxi_ind j (taxi_to_passenger_distance + d0)))
    (seq 0 k) M = Ok M' →
  shape nt np M' ∧
  (∀ i, i < k → ∃ loc d1,
     taxis_locations taxi_env !! i = Some loc ∧
     path_length loc start = Ok d1 ∧
     cell M' i j = Some (Z.of_nat (d1 + d0))) ∧
  (∀ i j', j' ≠ j ∨ k ≤ i → cell M' i j' = cell M i j').
Proof.
  intros Hshape Hj. revert M'. induction k as [|k IH]; intros M' Hk Hloop.
  - injection Hloop as <-. split_and!; [done| |done]. intros i Hi. lia.
  - rewrite seq_S, for_each_app in Hloop. change (0 + k) with k in Hloop.
    apply bind_Ok in Hloop as (M1 & Hloop1 & Hloop).
    destruct (IH M1) as (Hshape1 & Hdone & Hrest); [lia|done|].
    cbn [for_each] in Hloop.
    apply bind_Ok in Hloop as (M2 & Hbody & [= <-]).
    apply bind_Ok in Hbody as (loc & Hloc%getitem_Ok & Hbody).
    apply bind_Ok in Hbody as (d1 & Hd1 & [= <-]).
    split_and!.
    + by apply matrix_set_shape.
    + intros i Hi. rewrite cell_matrix_set by (done || lia).
      destruct (decide (i = k)) as [->|Hne].
      * rewrite decide_True by done. eauto.
      * rewrite decide_False by naive_solver. apply Hdone. lia.
    + intros i j' Hij. rewrite cell_matrix_set by (done || lia).
      rewrite decide_False by (simpl; lia). apply Hrest. lia.
Qed.

Lemma shape_replicate : shape nt np (replicate nt (replicate np 0%Z)).
Proof.
  split; [by rewrite length_replicate|].
  apply Forall_replicate. by rewrite length_replicate.
Qed.

(** The loop over the passengers. *)
Lemma passenger_loop_spec (M : list (list Z)) (p : nat) :
  p ≤ np →
  for_each
    (λ distances passenger_ind,
       passenger_start_loc ←
         getitem (passengers_start_locations taxi_env) passenger_ind;
       passenger_dest_loc ←
         getitem (passengers_destinations taxi_env) passenger_ind;
       passenger_start_to_dest_distance ←
         path_length passenger_start_loc passenger_dest_loc;
       for_each
         (λ distances taxi_ind,
            taxi_initial_loc ← getitem (taxis_locations taxi_env) taxi_ind;
            taxi_to_passenger_distance ←
              path_length taxi_initial_loc passenger_start_loc;
            let total_distance :=
              (taxi_to_passenger_distance + passenger_start_to_dest_distance)%nat in
            Ok (matrix_set distances taxi_ind passenger_ind total_distance))
         (seq 0 (num_taxis taxi_env)) distances)
    (seq 0 p) (replicate nt (replicate np 0%Z)) = Ok M →
  shape nt np M ∧
  ∀ i j, i < nt → j < p → ∃ d,
    compute_total_taxi_travel_distance get_path taxi_env i j = Ok d ∧
    cell M i j = Some (Z.of_nat d).
Proof.
  revert M. induction p as [|p IH]; intros M Hp Hloop.
  - injection Hloop as <-. split; [apply shape_replicate|]. intros i j _ Hj. lia.
  - rewrite seq_S, for_each_app in Hloop. change (0 + p) with p in Hloop.
    apply bind_Ok in Hloop as (M1 & Hloop1 & Hloop).
    destruct (IH M1) as (Hshape1 & Hdone); [lia|done|].
    cbn [for_each] in Hloop.
    apply bind_Ok in Hloop as (M2 & Hbody & [= <-]).
    apply bind_Ok in Hbody as (start & Hstart & Hbody).
    apply bind_Ok in Hbody as (dest & Hdest & Hbody).
    apply bind_Ok in Hbody as (d0 & Hd0 & Hbody).
    apply taxi_loop_spec in Hbody as (Hshape2 & Hnew & Hold); [|done|lia|done].
    split; [done|]. intros i j Hi Hj.
    destruct (decide (j = p)) as [->|Hne].
    + destruct (Hnew i Hi) as (loc & d1 & Hloc & Hd1 & Hcell).
      exists (d1 + d0). split; [|done].
      unfold compute_total_taxi_travel_distance.
      apply getitem_Ok in Hloc. rewrite Hloc, Hstart, Hdest.
      cbn [mbind result_bind]. by rewrite Hd1, Hd0.
    + rewrite Hold by (left; lia). apply Hdone; lia.
Qed.

Lemma distances_to_all_passengers_spec (M : list (list Z)) :
  distances_to_all_passengers get_path taxi_env = Ok M →
  shape nt np M ∧
  ∀ i j, i < nt → j < np → ∃ d,
    compute_total_taxi_travel_distance get_path taxi_env i j = Ok d ∧
    cell M i j = Some (Z.of_nat d).
Proof. intros Hloop. by apply passenger_loop_spec in Hloop. Qed.

End distances.

Lemma cell_distances_at (nt np : nat) (M : list (list Z)) (i j : nat) (v : Z) :
  M !! i ≫= (.!! j) = Some v →
  TaskAllocator.distances_at
    {| TaskAllocator.num_taxis := nt; TaskAllocator.num_passengers := np;
       TaskAllocator.distances := M |} (i, j) = Ok v.
Proof.
  unfold TaskAllocator.distances_at. cbn [fst snd TaskAllocator.distances].
  destruct (M !! i) as [row|] eqn:Hrow; [|done]. cbn. intros Hcell.
  apply getitem_Ok in Hrow, Hcell. rewrite Hrow. cbn [mbind result_bind].
  exact Hcell.
Qed.

(** X10.  When [distances_to_all_passengers] returns, the array has one
    row per taxi and one cell per passenger, and the allocation methods
    read from cell [(i, j)] exactly what
    [compute_total_taxi_travel_distance(i, j)] returns: the steps from the
    taxi to the passenger plus the steps from the passenger to the
    destination. *)
Theorem distances_to_all_passengers_cells
    (get_path : list Z → list Z → result (list (list Z) * list Z))
    (taxi_env : SocialTaxi.TaxiEnv) (M : list (list Z)) :
  TaskAllocatorEnv.distances_to_all_passengers get_path taxi_env = Ok M →
  Assignment.shape (SocialTaxi.num_taxis taxi_env)
    (SocialTaxi.num_passengers taxi_env) M ∧
  ∀ i j, i < SocialTaxi.num_taxis taxi_env →
         j < SocialTaxi.num_passengers taxi_env →
    ∃ d, TaskAllocatorEnv.compute_total_taxi_travel_distance get_path taxi_env i j
           = Ok d ∧
         TaskAllocator.distances_at
           {| TaskAllocator.num_taxis := SocialTaxi.num_taxis taxi_env;
              TaskAllocator.num_passengers := SocialTaxi.num_passengers taxi_env;
              TaskAllocator.distances := M |} (i, j) = Ok (Z.of_nat d).
Proof.
  intros [Hshape Hcells]%distances_to_all_passengers_spec. split; [done|].
  intros i j Hi Hj. destruct (Hcells i j Hi Hj) as (d & Hd & Hcell).
  exists d. split; [done|]. by apply cell_distances_at.
Qed.

Lemma distances_to_all_passengers_cells_witness :
  TaskAllocatorEnv.distances_to_all_passengers
    (EnvGraph.get_path Networkx.shortest_path
       (Scenarios.graph_of Scenarios.row_map)) Scenarios.far_env
  = Ok [[2; 5]]%Z ∧
  Assignment.shape 1 2 [[2; 5]]%Z.
Proof.
  assert (TaskAllocatorEnv.distances_to_all_passengers
            (EnvGraph.get_path Networkx.shortest_path
               (Scenarios.graph_of Scenarios.row_map)) Scenarios.far_env
          = Ok [[2; 5]]%Z) as Hdist by (vm_compute; reflexivity).
  split; [exact Hdist|].
  exact (proj1 (distances_to_all_passengers_cells _ _ _ Hdist)).
Defined.

(** X11.  The array of [distances_to_all_passengers] is safe for the
    exhaustive solver: [passengers_allocations_cost] followed by
    [optimal_allocation_minimal_value] indexes only cells that exist and
    returns the pairing of the taxis with a permutation of the passengers,
    whatever the two counts are. *)
Theorem optimal_assignment_on_distances
    (get_path : list Z → list Z → result (list (list Z) * list Z))
    (taxi_env : SocialTaxi.TaxiEnv) (M : list (list Z)) :
  TaskAllocatorEnv.distances_to_all_passengers get_path taxi_env = Ok M →
  ∃ sigma,
    sigma ≡ₚ seq 0 (SocialTaxi.num_passengers taxi_env) ∧
    TaskAllocator.optimal_assignment
      {| TaskAllocator.num_taxis := SocialTaxi.num_taxis taxi_env;
         TaskAllocator.num_passengers := SocialTaxi.num_passengers taxi_env;
         TaskAllocator.distances := M |}
    = Ok (zip (seq 0 (SocialTaxi.num_taxis taxi_env)) sigma).
Proof.
  intros [Hshape _]%distances_to_all_passengers_spec.
  destruct (optimal_assignment_Ok
              {| TaskAllocator.num_taxis := SocialTaxi.num_taxis taxi_env;
                 TaskAllocator.num_passengers := SocialTaxi.num_passengers taxi_env;
                 TaskAllocator.distances := M |} Hshape) as (sigma & Hs & Hres).
  exists sigma. split; [|done].
  by apply permutations_upto_Permutation in Hs.
Qed.

Lemma optimal_assignment_on_distances_witness :
  ∃ sigma,
    sigma ≡ₚ seq 0 2 ∧
    TaskAllocator.optimal_assignment
      {| TaskAllocator.num_taxis := 1; TaskAllocator.num_passengers := 2;
         TaskAllocator.distances := [[2; 5]]%Z |}
    = Ok (zip (seq 0 1) sigma).
Proof.
  apply (optimal_assignment_on_distances
           (EnvGraph.get_path Networkx.shortest_path
              (Scenarios.graph_of Scenarios.row_map)) Scenarios.far_env).
  vm_compute. reflexivity.
Defined.

(** ** Handing the allocation to the taxis *)

Section allocate.
Import SocialTaxi TaskAllocatorEnv.
Variable allocation : list (nat * nat).
Variable taxis : list nat.
Implicit Types (h : list SocialTaxi.t) (r i k p : nat).

Lemma allocate_loop_app (l1 l2 : list nat) h :
  allocate_loop allocation taxis (l1 ++ l2) h
  = match allocate_loop allocation taxis l1 h with
    | (h1, Ok _) => allocate_loop allocation taxis l2 h1
    | (h1, Raise e) => (h1, Raise e)
    end.
Proof.
  revert h. induction l1 as [|i l1 IH]; intros h; [done|].
  cbn [app allocate_loop].
  destruct (dict_get i allocation) as [p|]; [|done].
  destruct (taxis !! i) as [r|]; [|done]. apply IH.
Qed.

(** The store after the taxis [0 .. k-1] have been given their
    passengers. *)
Lemma allocate_loop_prefix k h :
  k ≤ length taxis →
  (∀ i, i < k → is_Some (dict_get i allocation)) →
  ∃ h', allocate_loop allocation taxis (seq 0 k) h = (h', Ok tt) ∧
    length h' = length h ∧
    (∀ r, r ∉ take k taxis → h' !! r = h !! r) ∧
    (NoDup taxis → ∀ i r p,
       i < k → taxis !! i = Some r → dict_get i allocation = Some p →
       h' !! r = (λ taxi, set_passenger taxi (Some p)) <$> h !! r).
Proof.
  induction k as [|k IH]; intros Hk Hkeys.
  - exists h. split_and!; [done..|]. intros _ i r p Hi. lia.
  - destruct IH as (h1 & Hloop & Hlen & Hother & Hset); [lia|auto with lia|].
    destruct (Hkeys k) as [p Hp]; [lia|].
    destruct (lookup_lt_is_Some_2 taxis k) as [r Hr]; [lia|].
    rewrite seq_S, allocate_loop_app, Hloop. change (0 + k) with k.
    cbn [allocate_loop]. rewrite Hp, Hr.
    eexists. split; [done|].
    rewrite (take_S_r _ _ _ Hr). split_and!.
    + by rewrite length_alter.
    + intros r' Hr'. rewrite not_elem_of_app, list_elem_of_singleton in Hr'.
      destruct Hr' as [Hr' Hne].
      rewrite list_lookup_alter_ne by done. by apply Hother.
    + intros Hnd i r' p' Hi Hr' Hp'.
      destruct (decide (i = k)) as [->|Hne].
      * assert (r' = r) as -> by congruence. assert (p' = p) as -> by congruence.
        rewrite list_lookup_alter_eq. f_equal. apply Hother.
        intros Hin. apply list_elem_of_lookup in Hin as [i' Hi'].
        apply lookup_take_Some in Hi' as [Hi' Hlt].
        pose proof (NoDup_lookup _ _ _ _ Hnd Hi' Hr). lia.
      * rewrite list_lookup_alter_ne.
        { apply (Hset Hnd i); [lia|done..]. }
        intros ->. pose proof (NoDup_lookup _ _ _ _ Hnd Hr' Hr). lia.
Qed.

Lemma allocate_passengers_Ok h :
  (∀ i, i < length taxis → is_Some (dict_get i allocation)) →
  ∃ h', allocate_passengers allocation taxis h = (h', Ok tt) ∧
    length h' = length h ∧
    (∀ r, r ∉ taxis → h' !! r = h !! r) ∧
    (NoDup taxis → ∀ i r p,
       taxis !! i = Some r → dict_get i allocation = Some p →
       h' !! r = (λ taxi, set_passenger taxi (Some p)) <$> h !! r).
Proof.
  intros Hkeys.
  destruct (allocate_loop_prefix (length taxis) h) as (h' & Hloop & Hlen & Hother & Hset);
    [done..|].
  exists h'. rewrite take_ge in Hother by done. split_and!; [done..|].
  intros Hnd i r p Hr Hp. apply (Hset Hnd i); [|done..].
  by eapply lookup_lt_Some.
Qed.

Lemma allocate_passengers_KeyError k h :
  k < length taxis → dict_get k allocation = None →
  (∀ i, i < k → is_Some (dict_get i allocation)) →
  ∃ h', allocate_passengers allocation taxis h = (h', Raise KeyError) ∧
    length h' = length h ∧
    (∀ r, r ∉ take k taxis → h' !! r = h !! r) ∧
    (NoDup taxis → ∀ i r p,
       i < k → taxis !! i = Some r → dict_get i allocation = Some p →
       h' !! r = (λ taxi, set_passenger taxi (Some p)) <$> h !! r).
Proof.
  intros Hk Hnone Hkeys.
  destruct (allocate_loop_prefix k h) as (h' & Hloop & Hrest); [lia|done|].
  exists h'. split; [|done]. unfold allocate_passengers.
  replace (length taxis) with (k + S (length taxis - S k)) by lia.
  rewrite seq_app, allocate_loop_app, Hloop. cbn [seq allocate_loop].
  change (0 + k) with k. by rewrite Hnone.
Qed.

End allocate.

Lemma dict_get_zip {K V} `{EqDecision K} (ks : list K) (vs : list V) i k v :
  NoDup ks → ks !! i = Some k → vs !! i = Some v →
  dict_get k (zip ks vs) = Some v.
Proof.
  revert vs i. induction ks as [|k0 ks IH]; intros vs i Hnd Hk Hv; [done|].
  apply NoDup_cons in Hnd as [Hk0 Hnd].
  destruct vs as [|v0 vs]; [done|]. destruct i as [|i]; simpl in *.
  - injection Hk as ->. injection Hv as ->. by rewrite decide_True.
  - rewrite decide_False; [by eapply IH|].
    intros ->. apply Hk0. by eapply list_elem_of_lookup_2.
Qed.

Lemma dict_get_absent {K V} `{EqDecision K} (k : K) (d : list (K * V)) :
  k ∉ dict_keys d → dict_get k d = None.
Proof.
  intros Hk. apply dict_mem_get. unfold dict_mem. by apply bool_decide_eq_false.
Qed.

(** X12.  When the allocation has an entry for every index of the list
    of taxis, [allocate_passengers] does not fail; it sets the
    [passenger_index] of each taxi (distinct objects) to the entry of the
    taxi's position in the list and changes nothing else, neither in the
    taxis nor in any other object. *)
Theorem allocate_passengers_assigns (allocation : list (nat * nat))
    (taxis : list nat) (h : list SocialTaxi.t) :
  NoDup taxis →
  (∀ i, i < length taxis → is_Some (dict_get i allocation)) →
  ∃ h', TaskAllocatorEnv.allocate_passengers allocation taxis h = (h', Ok tt) ∧
    length h' = length h ∧
    (∀ r, r ∉ taxis → h' !! r = h !! r) ∧
    (∀ i r p, taxis !! i = Some r → dict_get i allocation = Some p →
       h' !! r = (λ taxi, SocialTaxi.set_passenger taxi (Some p)) <$> h !! r).
Proof.
  intros Hnd Hkeys.
  destruct (allocate_passengers_Ok allocation taxis h Hkeys)
    as (h' & Hres & Hlen & Hother & Hset).
  exists h'. split_and!; [done..|]. by apply Hset.
Qed.

Lemma allocate_passengers_assigns_witness :
  ∃ h', TaskAllocatorEnv.allocate_passengers [(0, 1); (1, 0)] [0; 1]
          Scenarios.pair_taxis = (h', Ok tt) ∧
        length h' = 2.
Proof.
  destruct (allocate_passengers_assigns [(0, 1); (1, 0)] [0; 1] Scenarios.pair_taxis)
    as (h' & Hres & Hlen & _).
  - repeat constructor; set_solver.
  - intros [|[|i]] Hi; [by eexists..|simpl in Hi; lia].
  - exists h'. split; [exact Hres|exact Hlen].
Defined.

(** X13.  When the allocation lacks the index of some taxi,
    [allocate_passengers] raises [KeyError] at the first such taxi.  The
    taxis before it already carry their new passengers; that taxi, the
    taxis after it and all other objects are left as they were. *)
Theorem allocate_passengers_missing_taxi (allocation : list (nat * nat))
    (taxis : list nat) (h : list SocialTaxi.t) (k : nat) :
  NoDup taxis →
  k < length taxis → dict_get k allocation = None →
  (∀ i, i < k → is_Some (dict_get i allocation)) →
  ∃ h', TaskAllocatorEnv.allocate_passengers allocation taxis h
          = (h', Raise KeyError) ∧
    (∀ r, r ∉ take k taxis → h' !! r = h !! r) ∧
    (∀ i r p, i < k → taxis !! i = Some r → dict_get i allocation = Some p →
       h' !! r = (λ taxi, SocialTaxi.set_passenger taxi (Some p)) <$> h !! r).
Proof.
  intros Hnd Hk Hnone Hkeys.
  destruct (allocate_passengers_KeyError allocation taxis k h Hk Hnone Hkeys)
    as (h' & Hres & _ & Hother & Hset).
  exists h'. split_and!; [done..|]. by apply Hset.
Qed.

Lemma allocate_passengers_missing_taxi_witness :
  ∃ h', TaskAllocatorEnv.allocate_passengers [(0, 1)] [0; 1]
          Scenarios.pair_taxis = (h', Raise KeyError) ∧
        h' !! 1 = Scenarios.pair_taxis !! 1.
Proof.
  destruct (allocate_passengers_missing_taxi [(0, 1)] [0; 1] Scenarios.pair_taxis 1)
    as (h' & Hres & Hother & _).
  - repeat constructor; set_solver.
  - simpl. lia.
  - reflexivity.
  - intros [|i] Hi; [by eexists|lia].
  - exists h'. split; [exact Hres|]. apply Hother. set_solver.
Defined.

(** ** From the solvers to the taxis *)

Lemma zip_seq_get (n : nat) (sigma : list nat) (i : nat) :
  dict_get i (zip (seq 0 n) sigma) = if decide (i < n) then sigma !! i else None.
Proof.
  case_decide as Hi.
  - destruct (sigma !! i) as [p|] eqn:Hp.
    + apply (dict_get_zip _ _ i); [apply NoDup_seq| |done].
      by apply lookup_seq_lt.
    + apply dict_get_absent. unfold dict_keys. rewrite fst_zip_take, take_seq.
      intros Hin%elem_of_seq. apply lookup_ge_None in Hp. lia.
  - apply dict_get_absent. unfold dict_keys. rewrite fst_zip_take, take_seq.
    intros Hin%elem_of_seq. lia.
Qed.

(** X14.  The demo's chain with as many taxis as passengers, or fewer
    taxis: the allocation of the exhaustive solver, handed to
    [allocate_passengers] with the list of all taxis, gives taxi [i] the
    passenger [sigma[i]] of one permutation [sigma], so no two taxis share
    a passenger, and nothing is raised. *)
Theorem optimal_assignment_then_allocate (self : TaskAllocator.t)
    (taxis : list nat) (h : list SocialTaxi.t) :
  Assignment.shape (TaskAllocator.num_taxis self) (TaskAllocator.num_passengers self)
    (TaskAllocator.distances self) →
  TaskAllocator.num_taxis self ≤ TaskAllocator.num_passengers self →
  NoDup taxis → length taxis = TaskAllocator.num_taxis self →
  ∃ sigma allocation h',
    sigma ≡ₚ seq 0 (TaskAllocator.num_passengers self) ∧
    TaskAllocator.optimal_assignment self = Ok allocation ∧
    TaskAllocatorEnv.allocate_passengers allocation taxis h = (h', Ok tt) ∧
    ∀ i r, taxis !! i = Some r →
      ∃ p, sigma !! i = Some p ∧
           h' !! r = (λ taxi, SocialTaxi.set_passenger taxi (Some p)) <$> h !! r.
Proof.
  intros Hshape Hle Hnd Hlen.
  destruct (optimal_assignment_Ok self Hshape) as (sigma & Hs & Hres).
  apply permutations_upto_Permutation in Hs; [|done].
  assert (length sigma = TaskAllocator.num_passengers self) as Hsl
    by (by rewrite Hs, length_seq).
  destruct (allocate_passengers_Ok
              (zip (seq 0 (TaskAllocator.num_taxis self)) sigma) taxis h)
    as (h' & Hall & _ & _ & Hset).
  { intros i Hi. rewrite zip_seq_get, decide_True by lia.
    apply lookup_lt_is_Some_2. lia. }
  exists sigma, (zip (seq 0 (TaskAllocator.num_taxis self)) sigma), h'.
  split_and!; [done..|].
  intros i r Hr.
  assert (i < length taxis) as Hi by (by eapply lookup_lt_Some).
  destruct (lookup_lt_is_Some_2 sigma i) as [p Hp]; [lia|].
  exists p. split; [done|]. apply (Hset Hnd i); [done|].
  by rewrite zip_seq_get, decide_True by lia.
Qed.

Lemma optimal_assignment_then_allocate_witness :
  ∃ sigma allocation h',
    sigma ≡ₚ seq 0 2 ∧
    TaskAllocator.optimal_assignment
      {| TaskAllocator.num_taxis := 2; TaskAllocator.num_passengers := 2;
         TaskAllocator.distances := [[5; 2]; [1; 7]]%Z |} = Ok allocation ∧
    TaskAllocatorEnv.allocate_passengers allocation [0; 1] Scenarios.pair_taxis
      = (h', Ok tt).
Proof.
  destruct (optimal_assignment_then_allocate
    {| TaskAllocator.num_taxis := 2; TaskAllocator.num_passengers := 2;
       TaskAllocator.distances := [[5; 2]; [1; 7]]%Z |} [0; 1] Scenarios.pair_taxis)
    as (sigma & allocation & h' & Hs & Hres & Hall & _).
  - split; [reflexivity|]. repeat constructor.
  - simpl. lia.
  - repeat constructor; set_solver.
  - reflexivity.
  - exists sigma, allocation, h'. split_and!; [exact Hs|exact Hres|exact Hall].
Defined.

(** X15.  The same chain with more taxis than passengers: the solver
    pairs only the first [num_passengers] taxis, and
    [allocate_passengers] raises [KeyError] at the taxi with index
    [num_passengers], after it has set the passengers of the taxis before
    it; the remaining taxis are untouched. *)
Theorem optimal_assignment_then_allocate_surplus (self : TaskAllocator.t)
    (taxis : list nat) (h : list SocialTaxi.t) :
  Assignment.shape (TaskAllocator.num_taxis self) (TaskAllocator.num_passengers self)
    (TaskAllocator.distances self) →
  TaskAllocator.num_passengers self < TaskAllocator.num_taxis self →
  NoDup taxis → length taxis = TaskAllocator.num_taxis self →
  ∃ sigma allocation h',
    sigma ≡ₚ seq 0 (TaskAllocator.num_passengers self) ∧
    TaskAllocator.optimal_assignment self = Ok allocation ∧
    TaskAllocatorEnv.allocate_passengers allocation taxis h = (h', Raise KeyError) ∧
    (∀ i r p, taxis !! i = Some r → sigma !! i = Some p →
       h' !! r = (λ taxi, SocialTaxi.set_passenger taxi (Some p)) <$> h !! r) ∧
    (∀ i r, TaskAllocator.num_passengers self ≤ i → taxis !! i = Some r →
       h' !! r = h !! r).
Proof.
  intros Hshape Hlt Hnd Hlen.
  destruct (optimal_assignment_Ok self Hshape) as (sigma & Hs & Hres).
  apply permutations_upto_Permutation in Hs; [|done].
  assert (length sigma = TaskAllocator.num_passengers self) as Hsl
    by (by rewrite Hs, length_seq).
  destruct (allocate_passengers_KeyError
              (zip (seq 0 (TaskAllocator.num_taxis self)) sigma) taxis
              (TaskAllocator.num_passengers self) h)
    as (h' & Hall & _ & Hother & Hset).
  { lia. }
  { rewrite zip_seq_get, decide_True by lia. apply lookup_ge_None. lia. }
  { intros i Hi. rewrite zip_seq_get, decide_True by lia.
    apply lookup_lt_is_Some_2. lia. }
  exists sigma, (zip (seq 0 (TaskAllocator.num_taxis self)) sigma), h'.
  split_and!; [done..| |].
  - intros i r p Hr Hp.
    assert (i < length sigma) as Hi by (by eapply lookup_lt_Some).
    apply (Hset Hnd i); [lia|done|].
    by rewrite zip_seq_get, decide_True by lia.
  - intros i r Hi Hr. apply Hother.
    intros Hin. apply list_elem_of_lookup in Hin as [i' Hi'].
    apply lookup_take_Some in Hi' as [Hi' Hlt'].
    pose proof (NoDup_lookup _ _ _ _ Hnd Hi' Hr). lia.
Qed.

Lemma optimal_assignment_then_allocate_surplus_witness :
  ∃ sigma allocation h',
    sigma ≡ₚ seq 0 1 ∧
    TaskAllocator.optimal_assignment
      {| TaskAllocator.num_taxis := 2; TaskAllocator.num_passengers := 1;
         TaskAllocator.distances := [[5]; [1]]%Z |} = Ok allocation ∧
    TaskAllocatorEnv.allocate_passengers allocation [0; 1] Scenarios.pair_taxis
      = (h', Raise KeyError).
Proof.
  destruct (optimal_assignment_then_allocate_surplus
    {| TaskAllocator.num_taxis := 2; TaskAllocator.num_passengers := 1;
       TaskAllocator.distances := [[5]; [1]]%Z |} [0; 1] Scenarios.pair_taxis)
    as (sigma & allocation & h' & Hs & Hres & Hall & _).
  - split; [reflexivity|]. repeat constructor.
  - simpl. lia.
  - repeat constructor; set_solver.
  - reflexivity.
  - exists sigma, allocation, h'. split_and!; [exact Hs|exact Hres|exact Hall].
Defined.

(** X16.  The auction's allocation, handed to [allocate_passengers] with
    the list of all taxis: for every passenger [p] the taxi that won [p]
    gets [p], the winners are all the taxis, and nothing is raised. *)
Theorem taxis_auction_then_allocate (self : TaskAllocator.t)
    (biddings : list nat) (bids : list (list (nat * Z)))
    (taxis : list nat) (h : list SocialTaxi.t) :
  TaskAllocator.num_passengers self = TaskAllocator.num_taxis self →
  Auction.wellformed (TaskAllocator.num_taxis self) biddings bids →
  NoDup taxis → length taxis = TaskAllocator.num_taxis self →
  ∃ winners bids' h',
    winners ≡ₚ seq 0 (TaskAllocator.num_taxis self) ∧
    TaskAllocator.taxis_auction_allocation self biddings bids
      = Ok (zip winners (seq 0 (TaskAllocator.num_taxis self)), bids') ∧
    TaskAllocatorEnv.allocate_passengers
      (zip winners (seq 0 (TaskAllocator.num_taxis self))) taxis h = (h', Ok tt) ∧
    ∀ p w r, winners !! p = Some w → taxis !! w = Some r →
      h' !! r = (λ taxi, SocialTaxi.set_passenger taxi (Some p)) <$> h !! r.
Proof.
  intros Hsq Hwf Hnd Hlen.
  destruct (auction_loop_spec self biddings bids Hwf (TaskAllocator.num_taxis self))
    as (winners & bids' & Hloop & Hwl & Hwnd & Hlt & _); [done|].
  assert (winners ≡ₚ seq 0 (TaskAllocator.num_taxis self)) as Hperm.
  { apply submseteq_length_Permutation.
    + apply NoDup_submseteq; [done|]. intros w Hw%Hlt. apply elem_of_seq. lia.
    + by rewrite length_seq, Hwl. }
  assert (∀ p w, winners !! p = Some w →
            dict_get w (zip winners (seq 0 (TaskAllocator.num_taxis self))) = Some p)
    as Hget.
  { intros p w Hw. apply (dict_get_zip _ _ p); [done..|].
    apply lookup_seq_lt. apply lookup_lt_Some in Hw. lia. }
  destruct (allocate_passengers_Ok
              (zip winners (seq 0 (TaskAllocator.num_taxis self))) taxis h)
    as (h' & Hall & _ & _ & Hset).
  { intros i Hi.
    assert (i ∈ winners) as [p Hp]%list_elem_of_lookup.
    { rewrite Hperm. apply elem_of_seq. lia. }
    rewrite (Hget _ _ Hp). by eexists. }
  exists winners, bids', h'. split_and!; [done| |done|].
  - unfold TaskAllocator.taxis_auction_allocation. rewrite Hsq, Hloop.
    cbn [mbind result_bind].
    rewrite bool_decide_true; [done|].
    by rewrite length_zip, length_seq, Hwl, Nat.min_id.
  - intros p w r Hw Hr. apply (Hset Hnd w); [done|]. by apply Hget.
Qed.

Lemma taxis_auction_then_allocate_witness :
  ∃ winners bids' h',
    winners ≡ₚ seq 0 2 ∧
    TaskAllocator.taxis_auction_allocation
      {| TaskAllocator.num_taxis := 2; TaskAllocator.num_passengers := 2;
         TaskAllocator.distances := [] |} [0; 1]
      [TaskAllocator.bids_dict [3; 3]%Z; TaskAllocator.bids_dict [2; 9]%Z]
    = Ok (zip winners (seq 0 2), bids') ∧
    TaskAllocatorEnv.allocate_passengers (zip winners (seq 0 2)) [0; 1]
      Scenarios.pair_taxis = (h', Ok tt).
Proof.
  destruct (taxis_auction_then_allocate
    {| TaskAllocator.num_taxis := 2; TaskAllocator.num_passengers := 2;
       TaskAllocator.distances := [] |} [0; 1]
    [TaskAllocator.bids_dict [3; 3]%Z; TaskAllocator.bids_dict [2; 9]%Z]
    [0; 1] Scenarios.pair_taxis)
    as (winners & bids' & h' & Hperm & Hres & Hall & _).
  - reflexivity.
  - exact auction_wellformed_example.
  - repeat constructor; set_solver.
  - reflexivity.
  - exists winners, bids', h'. split_and!; [exact Hperm|exact Hres|exact Hall].
Defined.

(** ** The length of the path on any map *)

Section get_path_distance.
Import EnvGraph Networkx.
Local Open Scope Z_scope.
Variable sp : list (Z * list Z) → Z → Z → result (list Z).
Hypothesis sp_spec : shortest_path_spec sp.

(** X17.  On every graph with a column count other than zero, also on a
    single column, the coordinates that [get_path] returns between two
    connected nodes are one fewer than the nodes of a shortest path of the
    graph, no path of the graph is shorter, and when the two nodes differ
    the last coordinate is the coordinate of the target node. *)
Theorem get_path_distance (self : EnvGraph.t) (origin target : list Z)
    (s t : Z) (q : list Z) :
  cols self ≠ 0 →
  cors_to_node_unpack self origin = Ok s →
  cors_to_node_unpack self target = Ok t →
  has_node (the_graph self) s = true →
  has_node (the_graph self) t = true →
  is_path (the_graph self) s t q →
  ∃ cords actions,
    get_path sp self origin target = Ok (cords, actions) ∧
    (∃ p, is_path (the_graph self) s t p ∧ length p = S (length cords)) ∧
    (∀ q', is_path (the_graph self) s t q' → (S (length cords) ≤ length q')%nat) ∧
    (s ≠ t → last cords = Some [t `div` cols self; t `mod` cols self]).
Proof.
  intros Hcols Hs Ht Hhs Hht Hq.
  unfold get_path. rewrite Hs, Ht. cbn [mbind result_bind].
  case_bool_decide as Hst.
  - subst t. exists [], []. split_and!; [done| | |done].
    + exists [s]. split; [|done]. split_and!; [done..|]. by intros [|[|i]].
    + intros q' (Hhead & _). destruct q'; [done|]. cbn. lia.
  - destruct (sp_spec _ _ _ _ Hhs Hht Hq) as (p & Hp & Hpath & Hmin).
    rewrite Hp. cbn [mbind result_bind].
    rewrite map_result_node_to_cors by done. cbn [mbind result_bind].
    rewrite path_actions_decode. cbn [mbind result_bind].
    destruct Hpath as (Hhead & Hlast & Hsteps).
    destruct p as [|s' rest]; [done|]. injection Hhead as ->.
    eexists _, _. split; [done|].
    rewrite fmap_cons. cbn [drop]. rewrite drop_0, length_fmap.
    split_and!.
    + exists (s :: rest). done.
    + intros q' Hq'. by apply Hmin.
    + intros _. rewrite fmap_last.
      destruct rest as [|u rest]; [by injection Hlast as ->|].
      rewrite last_cons_cons in Hlast. by rewrite Hlast.
Qed.

End get_path_distance.

(** ** The graph that [__init__] builds *)

Section graph_edges.
Import EnvGraph.
Local Open Scope Z_scope.
Implicit Types (g : list (Z * list Z)) (u v w : Z).

Lemma neighbors_add_neighbor_eq u v g w :
  neighbors (add_neighbor u v g) w
  = if decide (u = w)
    then if bool_decide (v ∈ neighbors g u) then neighbors g u
         else neighbors g u ++ [v]
    else neighbors g w.
Proof.
  unfold add_neighbor. set (nbrs := neighbors g u). unfold neighbors.
  rewrite dict_get_setitem. by case_decide.
Qed.

Lemma elem_of_neighbors_add_neighbor u v g w v' :
  v' ∈ neighbors (add_neighbor u v g) w ↔
  v' ∈ neighbors g w ∨ (w = u ∧ v' = v).
Proof.
  rewrite neighbors_add_neighbor_eq.
  destruct (decide (u = w)) as [->|Hne]; [|naive_solver].
  case_bool_decide as Hin; [naive_solver|].
  rewrite elem_of_app, list_elem_of_singleton. naive_solver.
Qed.

Lemma elem_of_neighbors_add_edge u v g w v' :
  v' ∈ neighbors (add_edge u v g) w ↔
  v' ∈ neighbors g w ∨ (w = u ∧ v' = v) ∨ (w = v ∧ v' = u).
Proof.
  unfold add_edge.
  rewrite !elem_of_neighbors_add_neighbor, !neighbors_add_node. naive_solver.
Qed.

Lemma for_each_prefix_invariant {A S} (P : list A → S → Prop)
    (body : S → A → result S) (l : list A) (s s' : S) :
  P [] s →
  (∀ pre x s1 s2, P pre s1 → body s1 x = Ok s2 → P (pre ++ [x]) s2) →
  for_each body l s = Ok s' → P l s'.
Proof.
  intros Hstart Hstep.
  cut (∀ post pre s, P pre s → for_each body post s = Ok s' → P (pre ++ post) s').
  { intros Hcut. apply (Hcut l []). exact Hstart. }
  induction post as [|x post IH]; intros pre s0 Hpre Hloop; simpl in Hloop.
  - injection Hloop as <-. by rewrite app_nil_r.
  - apply bind_Ok in Hloop as (s1 & Hs1 & Hloop).
    rewrite cons_middle, app_assoc. eapply IH; [|done]. eauto.
Qed.

Variable desc : list string.
Variable cols : Z.

(** One turn of the loop that does not raise keeps the nodes and adds
    exactly the edges that the two tests of its cell ask for. *)
Lemma init_node_edges g g' (i : Z) :
  init_node desc cols g i = Ok g' →
  dict_keys g' = dict_keys g ∧
  ∀ u v, v ∈ neighbors g' u ↔
    v ∈ neighbors g u ∨ (u = i ∧ map_edge desc cols i v) ∨
    (v = i ∧ map_edge desc cols i u).
Proof.
  unfold init_node, node_to_cors_with. intros Hnode.
  case_bool_decide as Hcols; [done|]. cbn [mbind result_bind] in Hnode.
  apply bind_Ok in Hnode as (south & Hsouth & Hnode).
  apply bind_Ok in Hnode as (east & Heast & Hnode).
  set (row := i `div` cols) in *. set (col := i `mod` cols) in *.
  assert (i = row * cols + col) as Hi.
  { pose proof (Z.div_mod i cols Hcols). unfold row, col. lia. }
  assert (cors_to_node_with cols (row + 1) col = i + cols) as Hs
    by (unfold cors_to_node_with; lia).
  assert (cors_to_node_with cols row (col + 1) = i + 1) as He
    by (unfold cors_to_node_with; lia).
  rewrite Hs, He in Hnode.
  set (g1 := if bool_decide (south ≠ "-"%char) then add_edge i (i + cols) g else g) in *.
  set (g2 := if bool_decide (east = ":"%char) then add_edge i (i + 1) g1 else g1) in *.
  case_bool_decide as Hsize; [|done]. injection Hnode as <-.
  assert (∃ e1, dict_keys g1 = dict_keys g ++ e1) as [e1 He1].
  { unfold g1. case_bool_decide; [apply add_edge_keys|].
    exists []. by rewrite app_nil_r. }
  assert (∃ e2, dict_keys g2 = dict_keys g1 ++ e2) as [e2 He2].
  { unfold g2. case_bool_decide; [apply add_edge_keys|].
    exists []. by rewrite app_nil_r. }
  split.
  - rewrite He2, He1.
    assert (length (dict_keys g2) = length (dict_keys g)) as Hlen.
    { unfold dict_keys. by rewrite !length_fmap. }
    rewrite He2, He1, !length_app in Hlen.
    destruct e1; [|simpl in Hlen; lia]. destruct e2; [|simpl in Hlen; lia].
    by rewrite !app_nil_r.
  - assert (south_open desc cols i ↔ south ≠ "-"%char) as Hso.
    { unfold south_open. fold row col. rewrite Hsouth. naive_solver. }
    assert (east_open desc cols i ↔ east = ":"%char) as Heo.
    { unfold east_open. fold row col. rewrite Heast. naive_solver. }
    intros u v. unfold map_edge. rewrite Hso, Heo.
    unfold g2, g1.
    repeat case_bool_decide; rewrite ?elem_of_neighbors_add_edge; naive_solver.
Qed.

Lemma init_loop_edges (n : Z) g :
  for_each (init_node desc cols) (seqZ 0 n) (nodes_graph n) = Ok g →
  dict_keys g = seqZ 0 n ∧
  ∀ u v, v ∈ neighbors g u ↔
    (0 ≤ u < n ∧ map_edge desc cols u v) ∨ (0 ≤ v < n ∧ map_edge desc cols v u).
Proof.
  intros Hloop.
  apply (for_each_prefix_invariant
    (λ pre g, dict_keys g = seqZ 0 n ∧
       ∀ u v, v ∈ neighbors g u ↔
         (u ∈ pre ∧ map_edge desc cols u v) ∨ (v ∈ pre ∧ map_edge desc cols v u)))
    in Hloop.
  - destruct Hloop as [Hkeys Hedges]. split; [done|].
    intros u v. rewrite Hedges, !elem_of_seqZ. 
    replace (0 + n) with n by lia. done.
  - split; [apply nodes_graph_keys|].
    intros u v. rewrite nodes_graph_neighbors. set_solver.
  - intros pre i g1 g2 [Hkeys Hedges] Hnode.
    apply init_node_edges in Hnode as [Hkeys' Hedges'].
    split; [congruence|].
    intros u v. rewrite Hedges', Hedges, !elem_of_app, !list_elem_of_singleton.
    naive_solver.
Qed.

End graph_edges.

(** X19.  When [EnvGraph(desc)] is built without an error, its nodes are
    the cells [0 .. rows * cols - 1] in this order, with
    [rows = len(desc) - 2] and [cols = len(desc[0]) // 2], and two nodes
    are joined exactly when the turn of one of them asked for the edge:
    [u] and [u + cols] when the character under the cell of [u] is not
    ['-'], [u] and [u + 1] when the character to the right of the cell of
    [u] is [':'].  In particular the graph is symmetric. *)
Theorem init_graph (desc : list string) (eg : EnvGraph.t) :
  EnvGraph.init desc = Ok eg →
  EnvGraph.rows eg = (Z.of_nat (length desc) - 2)%Z ∧
  dict_keys (EnvGraph.the_graph eg)
    = seqZ 0 (EnvGraph.rows eg * EnvGraph.cols eg) ∧
  ∀ u v, v ∈ EnvGraph.neighbors (EnvGraph.the_graph eg) u ↔
    ((0 ≤ u < EnvGraph.rows eg * EnvGraph.cols eg)%Z ∧
     EnvGraph.map_edge desc (EnvGraph.cols eg) u v) ∨
    ((0 ≤ v < EnvGraph.rows eg * EnvGraph.cols eg)%Z ∧
     EnvGraph.map_edge desc (EnvGraph.cols eg) v u).
Proof.
  unfold EnvGraph.init. intros Hinit.
  apply bind_Ok in Hinit as (row0 & Hrow0 & Hinit).
  apply bind_Ok in Hinit as (g0 & [_ ->]%empty_graph_Ok & Hinit).
  apply bind_Ok in Hinit as (g & Hloop & [= <-]). cbn.
  rewrite nodes_graph_keys in Hloop.
  split; [done|]. by apply init_loop_edges.
Qed.

Lemma init_graph_witness :
  EnvGraph.rows (Scenarios.graph_of Scenarios.square_map) = 3%Z ∧
  dict_keys (EnvGraph.the_graph (Scenarios.graph_of Scenarios.square_map))
    = seqZ 0 (EnvGraph.rows (Scenarios.graph_of Scenarios.square_map)
              * EnvGraph.cols (Scenarios.graph_of Scenarios.square_map)).
Proof.
  destruct (init_graph Scenarios.square_map (Scenarios.graph_of Scenarios.square_map))
    as (Hrows & Hkeys & _).
  - vm_compute. reflexivity.
  - split; [exact Hrows|exact Hkeys].
Defined.

(** ** The two-sided search of networkx *)

Section dict_lookup.
Context {K V : Type} `{EqDecision K}.
Implicit Types (d : list (K * V)) (k : K).

Lemma dict_get_keys k d x : dict_get k d = Some x → k ∈ dict_keys d.
Proof.
  intros Hget. destruct (decide (k ∈ dict_keys d)) as [|Hk]; [done|].
  by rewrite dict_get_absent in Hget.
Qed.

Lemma dict_keys_get k d : k ∈ dict_keys d → ∃ x, dict_get k d = Some x.
Proof.
  unfold dict_keys. induction d as [|[k' x'] d IH]; csimpl.
  - by intros ?%elem_of_nil.
  - intros Hk. destruct (decide (k' = k)) as [->|Hne]; [eauto|].
    apply IH. by apply elem_of_cons in Hk as [->|Hk].
Qed.

Lemma dict_mem_true k d : dict_mem k d = true ↔ k ∈ dict_keys d.
Proof. unfold dict_mem. apply bool_decide_eq_true. Qed.

Lemma dict_mem_false k d : dict_mem k d = false ↔ k ∉ dict_keys d.
Proof. unfold dict_mem. apply bool_decide_eq_false. Qed.

End dict_lookup.

Section walks.
Import EnvGraph Networkx.
Variable g : list (Z * list Z).

Lemma undirected_spec :
  undirected g ↔ ∀ u v, v ∈ neighbors g u → u ∈ neighbors g v.
Proof.
  unfold undirected. rewrite Forall_forall. split.
  - intros Hg u v Hv. destruct (decide (u ∈ dict_keys g)) as [Hu|Hu].
    + specialize (Hg u Hu). rewrite Forall_forall in Hg. auto.
    + unfold neighbors in Hv. rewrite dict_get_absent in Hv by done.
      by apply elem_of_nil in Hv.
  - intros Hg u _. apply Forall_forall. auto.
Qed.

Hypothesis Hsym : ∀ u v, v ∈ neighbors g u → u ∈ neighbors g v.

Lemma walk_cons a u n x :
  u ∈ neighbors g a → walk g u n x → walk g a (S n) x.
Proof.
  intros Hu Hwalk. induction Hwalk as [|n v w Hwalk IH Hw].
  - by apply (walk_step g a 0 a); [constructor|].
  - by apply (walk_step g a (S n) v).
Qed.

Lemma walk_reverse a n b : walk g a n b → walk g b n a.
Proof.
  induction 1 as [|n u v Hwalk IH Hv]; [constructor|].
  apply (walk_cons v u); auto.
Qed.

(** A walk of [a + b] edges passes a node [a] edges from its start and
    [b] edges from its end. *)
Lemma walk_split s a b t :
  walk g s (a + b) t → ∃ x, walk g s a x ∧ walk g t b x.
Proof.
  revert t. induction b as [|b IH]; intros t Hwalk.
  - rewrite Nat.add_0_r in Hwalk. exists t. split; [done|constructor].
  - rewrite Nat.add_succ_r in Hwalk.
    inversion Hwalk as [|n u v Hwalk' Hv]; subst.
    destruct (IH u Hwalk') as (x & Hsx & Hux).
    exists x. split; [done|]. apply (walk_cons t u); auto.
Qed.

End walks.

Section chains.
Import EnvGraph Networkx.
Variable g : list (Z * list Z).
Implicit Types (d : list (Z * option Z)) (l : list Z).

Lemma follow_None n d : follow n d None = Ok [].
Proof. by destruct n. Qed.

Lemma chain_head d w l : chain d w l → head l = Some w.
Proof. by intros []. Qed.

Lemma chain_snoc d w l k x : chain d w l → chain (d ++ [(k, x)]) w l.
Proof.
  induction 1 as [w Hw|w v l Hw Hchain IH].
  - apply chain_end. by rewrite dict_get_snoc, Hw.
  - apply chain_step with v; [|done]. by rewrite dict_get_snoc, Hw.
Qed.

(** Following the dictionary from a node returns its chain. *)
Lemma follow_chain d w l n :
  chain d w l → length l ≤ n → follow n d (Some w) = Ok l.
Proof.
  intros Hchain. revert n.
  induction Hchain as [w Hw|w v l Hw Hchain IH]; intros [|n] Hn;
    simpl in Hn; [lia| |lia|].
  - cbn [follow]. rewrite Hw, follow_None. done.
  - cbn [follow]. rewrite Hw, IH by lia. done.
Qed.

Lemma reached_mono d k k' w : reached d k w → k ≤ k' → reached d k' w.
Proof. intros (l & ? & ? & ?) ?. exists l. split_and!; [done|lia|done]. Qed.

Lemma reached_snoc d k w x y : reached d k w → reached (d ++ [(x, y)]) k w.
Proof.
  intros (l & Hchain & Hk & Hlen). exists l.
  split_and!; [by apply chain_snoc|done|]. rewrite length_app. simpl. lia.
Qed.

Lemma search_tree_mono r d k k' : search_tree g r k d → k ≤ k' → search_tree g r k' d.
Proof.
  intros (? & ? & ? & ? & Hreached) ?. split_and!; [done..|].
  intros w Hw. apply (reached_mono d k); auto.
Qed.

(** A node met for the first time is entered under the node whose
    neighbours are scanned. *)
Lemma search_tree_setitem r d k v w :
  search_tree g r (S k) d → reached d k v → w ∈ neighbors g v →
  w ∉ dict_keys d →
  search_tree g r (S k) (dict_setitem w (Some v) d) ∧
  dict_keys (dict_setitem w (Some v) d) = dict_keys d ++ [w].
Proof.
  intros (Hnd & Hsub & Hroot & Hedge & Hreached) Hv Hw Hnew.
  rewrite dict_setitem_fresh by done.
  assert (dict_keys (d ++ [(w, Some v)]) = dict_keys d ++ [w]) as Hkeys.
  { unfold dict_keys. by rewrite fmap_app. }
  split; [|done]. split_and!.
  - rewrite Hkeys. apply NoDup_app. split_and!; [done| |apply NoDup_singleton].
    intros x Hx ->%list_elem_of_singleton. done.
  - rewrite Hkeys. intros x [Hx| ->%list_elem_of_singleton]%elem_of_app; [auto|].
    right. by eapply neighbors_in_lists.
  - intros x. rewrite dict_get_snoc.
    destruct (dict_get x d) as [y|] eqn:Hx; [intros [= ->]; auto|].
    by case_decide.
  - intros x y. rewrite dict_get_snoc.
    destruct (dict_get x d) as [y'|] eqn:Hx; [intros [= ->]; auto|].
    case_decide; [|done]. by intros [= <-]; subst.
  - rewrite Hkeys. intros x [Hx| ->%list_elem_of_singleton]%elem_of_app.
    + by apply reached_snoc, Hreached.
    + destruct Hv as (l & Hchain & Hk & Hlen). exists (w :: l). split_and!.
      * apply chain_step with v; [|by apply chain_snoc].
        rewrite dict_get_snoc, dict_get_absent by done. by rewrite decide_True.
      * simpl. lia.
      * rewrite length_app. simpl. lia.
Qed.

End chains.

Section scanning.
Import EnvGraph Networkx.
Variable g : list (Z * list Z).
Variable r : Z.
Variable k : nat.
Variable other : list (Z * option Z).
Variable level keys : list Z.

(** The neighbours of one node of the level: either the two searches
    meet, at a node that both dictionaries hold, or every neighbour is in
    the dictionary afterwards. *)
Lemma scan_neighbors_spec v nbrs fringe mine :
  v ∈ level → (∀ w, w ∈ nbrs → w ∈ neighbors g v) →
  scan_invariant g r k other level keys fringe mine →
  match scan_neighbors v nbrs fringe mine other with
  | inl (fringe', mine') =>
      scan_invariant g r k other level keys fringe' mine' ∧
      (∀ x, x ∈ dict_keys mine → x ∈ dict_keys mine') ∧
      (∀ w, w ∈ nbrs → w ∈ dict_keys mine')
  | inr (mine', w) =>
      search_tree g r (S k) mine' ∧ w ∈ dict_keys mine' ∧ w ∈ dict_keys other
  end.
Proof.
  intros Hv. revert fringe mine.
  induction nbrs as [|w nbrs IH]; intros fringe mine Hnbrs Hinv.
  - cbn [scan_neighbors]. split_and!; [done|done|]. by intros w ?%elem_of_nil.
  - cbn [scan_neighbors].
    assert (∀ w', w' ∈ nbrs → w' ∈ neighbors g v) as Hnbrs'.
    { intros w' Hw'. apply Hnbrs. by right. }
    destruct Hinv as (Htree & Hlevel & Hdisj & Hkeys).
    destruct (dict_mem w mine) eqn:Hmine.
    + apply dict_mem_true in Hmine.
      destruct (dict_mem w other) eqn:Hother.
      { apply dict_mem_true in Hother. done. }
      specialize (IH fringe mine Hnbrs' ltac:(done)).
      destruct (scan_neighbors v nbrs fringe mine other) as [[fringe' mine']|[mine' w']];
        [|done].
      destruct IH as (Hinv' & Hmono & Hall). split_and!; [done..|].
      intros w' [->|Hw']%elem_of_cons; auto.
    + apply dict_mem_false in Hmine.
      destruct (search_tree_setitem g r mine k v w) as [Htree' Hkeys'];
        [done|by apply Hlevel|apply Hnbrs; left|done|].
      destruct (dict_mem w other) eqn:Hother.
      { apply dict_mem_true in Hother. split_and!; [done| |done].
        rewrite Hkeys'. apply elem_of_app. right. left. }
      apply dict_mem_false in Hother.
      specialize (IH (fringe ++ [w]) (dict_setitem w (Some v) mine) Hnbrs').
      destruct (scan_neighbors v nbrs (fringe ++ [w])
                  (dict_setitem w (Some v) mine) other)
        as [[fringe' mine']|[mine' w']].
      * destruct IH as (Hinv' & Hmono & Hall).
        { split_and!; [done| | |].
          - intros x Hx. rewrite dict_setitem_fresh by done.
            by apply reached_snoc, Hlevel.
          - rewrite Hkeys'.
            intros x [Hx| ->%list_elem_of_singleton]%elem_of_app; auto.
          - by rewrite Hkeys', Hkeys, app_assoc. }
        split_and!; [done| |].
        -- intros x Hx. apply Hmono. rewrite Hkeys'. apply elem_of_app. by left.
        -- intros w' [->|Hw']%elem_of_cons; [|auto].
           apply Hmono. rewrite Hkeys'. apply elem_of_app. right. left.
      * apply IH. split_and!; [done| | |].
        -- intros x Hx. rewrite dict_setitem_fresh by done.
           by apply reached_snoc, Hlevel.
        -- rewrite Hkeys'.
           intros x [Hx| ->%list_elem_of_singleton]%elem_of_app; auto.
        -- by rewrite Hkeys', Hkeys, app_assoc.
Qed.

Lemma scan_level_spec this_level fringe mine :
  (∀ v, v ∈ this_level → v ∈ level) →
  scan_invariant g r k other level keys fringe mine →
  match scan_level g this_level fringe mine other with
  | inl (fringe', mine') =>
      scan_invariant g r k other level keys fringe' mine' ∧
      (∀ x, x ∈ dict_keys mine → x ∈ dict_keys mine') ∧
      (∀ v w, v ∈ this_level → w ∈ neighbors g v → w ∈ dict_keys mine')
  | inr (mine', w) =>
      search_tree g r (S k) mine' ∧ w ∈ dict_keys mine' ∧ w ∈ dict_keys other
  end.
Proof.
  revert fringe mine.
  induction this_level as [|v this_level IH]; intros fringe mine Hsub Hinv.
  - cbn [scan_level]. split_and!; [done|done|]. by intros v w ?%elem_of_nil.
  - cbn [scan_level].
    pose proof (scan_neighbors_spec v (neighbors g v) fringe mine
                  ltac:(apply Hsub; left) ltac:(done) Hinv) as Hscan.
    destruct (scan_neighbors v (neighbors g v) fringe mine other)
      as [[fringe1 mine1]|[mine1 w1]]; [|done].
    destruct Hscan as (Hinv1 & Hmono1 & Hall1).
    specialize (IH fringe1 mine1 ltac:(intros; apply Hsub; by right) Hinv1).
    destruct (scan_level g this_level fringe1 mine1 other)
      as [[fringe2 mine2]|[mine2 w2]]; [|done].
    destruct IH as (Hinv2 & Hmono2 & Hall2). split_and!; [done|auto|].
    intros v' w [->|Hv']%elem_of_cons Hw; [auto|eauto].
Qed.

End scanning.

Section levels.
Import EnvGraph Networkx.
Variable g : list (Z * list Z).

(** One level of one direction: the searches meet, or the direction is
    ready for its next level. *)
Lemma search_level r k mine other fringe :
  search_invariant g r k mine fringe →
  (∀ v, v ∈ dict_keys mine → v ∉ dict_keys other) →
  match scan_level g fringe [] mine other with
  | inl (fringe', mine') =>
      search_invariant g r (S k) mine' fringe' ∧
      (∀ v, v ∈ dict_keys mine' → v ∉ dict_keys other) ∧
      length mine' = length mine + length fringe'
  | inr (mine', w) =>
      search_tree g r (S k) mine' ∧ w ∈ dict_keys mine' ∧ w ∈ dict_keys other
  end.
Proof.
  intros (Htree & Hfringe & Hnear & Hdone) Hdisj.
  assert (scan_invariant g r k other fringe (dict_keys mine) [] mine) as Hinv.
  { split_and!; [by apply (search_tree_mono g r mine k); [|lia]| |done
                 |by rewrite app_nil_r].
    intros v Hv. destruct Htree as (_ & _ & _ & _ & Hreached). auto. }
  pose proof (scan_level_spec g r k other fringe (dict_keys mine) fringe [] mine
                ltac:(done) Hinv) as Hscan.
  destruct (scan_level g fringe [] mine other) as [[fringe' mine']|[mine' w]];
    [|done].
  destruct Hscan as ((Htree' & _ & Hdisj' & Hkeys') & Hmono & Hall).
  assert (∀ v w, v ∈ dict_keys mine → w ∈ neighbors g v → w ∈ dict_keys mine')
    as Hstep.
  { intros v w Hv Hw. destruct (Hdone v Hv) as [Hin|Hclosed]; eauto. }
  split_and!.
  - split_and!; [done| | |].
    + rewrite Hkeys'. intros v Hv. apply elem_of_app. by right.
    + intros n v Hn Hwalk. destruct (decide (n ≤ k)) as [Hle|Hgt].
      * apply Hmono. by apply (Hnear n).
      * assert (n = S k) as -> by lia.
        inversion Hwalk as [|n' u v' Hwalk' Hv]; subst.
        apply (Hstep u); [|done]. by apply (Hnear k).
    + intros v Hv. rewrite Hkeys' in Hv.
      apply elem_of_app in Hv as [Hv|Hv]; [|by left].
      right. intros w Hw. by apply (Hstep v).
  - done.
  - apply (f_equal length) in Hkeys'. unfold dict_keys in Hkeys'.
    by rewrite length_app, !length_fmap in Hkeys'.
Qed.

(** With an empty fringe the dictionary holds every node that a walk
    from the end point reaches. *)
Lemma search_invariant_closed r k d n v :
  search_invariant g r k d [] → walk g r n v → v ∈ dict_keys d.
Proof.
  intros (_ & _ & Hnear & Hdone) Hwalk.
  induction Hwalk as [|n u v Hwalk IH Hv].
  - apply (Hnear 0 r); [lia|constructor].
  - destruct (Hdone u IH) as [Hin|Hall]; [by apply elem_of_nil in Hin|auto].
Qed.

Lemma search_tree_length r k d :
  search_tree g r k d → length d ≤ S (length (concat g.*2)).
Proof.
  intros (Hnd & Hsub & _).
  apply NoDup_submseteq in Hsub; [|done]. apply submseteq_length in Hsub.
  unfold dict_keys in Hsub. by rewrite length_fmap in Hsub.
Qed.

Lemma search_invariant_start r : search_invariant g r 0 [(r, None)] [r].
Proof.
  split_and!.
  - split_and!.
    + apply NoDup_singleton.
    + intros v ->%list_elem_of_singleton. left.
    + intros w. simpl. by case_decide; [|done]; intros _.
    + intros w v. simpl. by case_decide.
    + intros w Hw%list_elem_of_singleton. subst w. exists [r].
      split_and!; [|done..].
      apply chain_end. simpl. by rewrite decide_True.
  - done.
  - intros n v Hn Hwalk. assert (n = 0) as -> by lia. inversion Hwalk. left.
  - intros v Hv. by left.
Qed.

End levels.

Section two_sided.
Import EnvGraph Networkx.
Variable g : list (Z * list Z).
Variables s t : Z.
Hypothesis Hsym : ∀ u v, v ∈ neighbors g u → u ∈ neighbors g v.

(** While the two dictionaries share no node, every walk between the end
    points is longer than the two searches have gone together. *)
Lemma search_lower_bound kf kr pred succ forward_fringe reverse_fringe n :
  search_invariant g s kf pred forward_fringe →
  search_invariant g t kr succ reverse_fringe →
  (∀ v, v ∈ dict_keys pred → v ∉ dict_keys succ) →
  walk g s n t → kf + kr < n.
Proof.
  intros (_ & _ & Hforward & _) (_ & _ & Hreverse & _) Hdisj Hwalk.
  destruct (decide (kf + kr < n)) as [|Hle]; [done|]. exfalso.
  replace n with (n `min` kf + (n - n `min` kf)) in Hwalk by lia.
  apply walk_split in Hwalk as (x & Hsx & Htx); [|done].
  apply (Hdisj x).
  - apply (Hforward (n `min` kf)); [lia|done].
  - apply (Hreverse (n - n `min` kf)); [lia|done].
Qed.

(** The loop of [_bidirectional_pred_succ]: it returns a node of both
    dictionaries, whose two chains together are no longer than any walk
    between the end points, or raises [NetworkXNoPath] when there is no
    such walk.  The turns given suffice. *)
Lemma search_loop_spec fuel pred succ forward_fringe reverse_fringe kf kr :
  search_invariant g s kf pred forward_fringe →
  search_invariant g t kr succ reverse_fringe →
  (∀ v, v ∈ dict_keys pred → v ∉ dict_keys succ) →
  2 * length (concat g.*2) + 2 < fuel + length pred + length succ →
  (∃ pred' succ' w kf' kr',
     search_loop fuel g pred succ forward_fringe reverse_fringe
       = Ok (pred', succ', w) ∧
     search_tree g s kf' pred' ∧ search_tree g t kr' succ' ∧
     w ∈ dict_keys pred' ∧ w ∈ dict_keys succ' ∧
     ∀ n, walk g s n t → kf' + kr' ≤ n) ∨
  (search_loop fuel g pred succ forward_fringe reverse_fringe
     = Raise NetworkXNoPath ∧
   ∀ n, ¬ walk g s n t).
Proof.
  revert pred succ forward_fringe reverse_fringe kf kr.
  induction fuel as [|fuel IH];
    intros pred succ forward_fringe reverse_fringe kf kr Hf Hr Hdisj Hfuel.
  { exfalso.
    pose proof (search_tree_length g s kf pred (proj1 Hf)).
    pose proof (search_tree_length g t kr succ (proj1 Hr)). lia. }
  assert (s ∈ dict_keys pred) as Hs.
  { destruct Hf as (_ & _ & Hnear & _). apply (Hnear 0); [lia|constructor]. }
  assert (t ∈ dict_keys succ) as Ht.
  { destruct Hr as (_ & _ & Hnear & _). apply (Hnear 0); [lia|constructor]. }
  cbn [search_loop].
  destruct forward_fringe as [|f forward_fringe].
  { right. split; [done|]. intros n Hwalk. apply (Hdisj t); [|done].
    by apply (search_invariant_closed g s kf pred n). }
  destruct reverse_fringe as [|r reverse_fringe].
  { right. split; [done|]. intros n Hwalk. apply (Hdisj s); [done|].
    apply (search_invariant_closed g t kr succ n); [done|].
    by apply walk_reverse. }
  case_bool_decide as Hturn.
  - pose proof (search_level g s kf pred succ (f :: forward_fringe) Hf Hdisj)
      as Hlevel.
    destruct (scan_level g (f :: forward_fringe) [] pred succ)
      as [[fringe pred']|[pred' w]].
    + destruct Hlevel as (Hf' & Hdisj' & Hlen).
      destruct fringe as [|f' fringe].
      { right. split; [by destruct fuel|].
        intros n Hwalk. apply (Hdisj' t); [|done].
        by apply (search_invariant_closed g s (S kf) pred' n). }
      apply (IH _ _ _ _ (S kf) kr); [done..|]. simpl in Hlen. lia.
    + destruct Hlevel as (Htree & Hw & Hw').
      left. exists pred', succ, w, (S kf), kr.
      split_and!; [done|done|apply Hr|done|done|].
      intros n Hwalk.
      pose proof (search_lower_bound _ _ _ _ _ _ n Hf Hr Hdisj Hwalk). lia.
  - assert (∀ v, v ∈ dict_keys succ → v ∉ dict_keys pred) as Hdisj_r.
    { intros v Hv Hv'. by apply (Hdisj v). }
    pose proof (search_level g t kr succ pred (r :: reverse_fringe) Hr Hdisj_r)
      as Hlevel.
    destruct (scan_level g (r :: reverse_fringe) [] succ pred)
      as [[fringe succ']|[succ' w]].
    + destruct Hlevel as (Hr' & Hdisj' & Hlen).
      destruct fringe as [|r' fringe].
      { right. split; [by destruct fuel|].
        intros n Hwalk. apply (Hdisj' s); [|done].
        apply (search_invariant_closed g t (S kr) succ' n); [done|].
        by apply walk_reverse. }
      apply (IH _ _ _ _ kf (S kr)); [done..| |simpl in Hlen; lia].
      intros v Hv Hv'. by apply (Hdisj' v).
    + destruct Hlevel as (Htree & Hw & Hw').
      left. exists pred, succ', w, kf, (S kr).
      split_and!; [done|apply Hf|done|done|done|].
      intros n Hwalk.
      pose proof (search_lower_bound _ _ _ _ _ _ n Hf Hr Hdisj Hwalk). lia.
Qed.

End two_sided.

Section meeting.
Import EnvGraph Networkx.
Variable g : list (Z * list Z).
Hypothesis Hsym : ∀ u v, v ∈ neighbors g u → u ∈ neighbors g v.

(** The chain of a node, read backwards, is a path from the end point of
    the search to the node. *)
Lemma chain_is_path r k d w l :
  search_tree g r k d → chain d w l → is_path g r w (reverse l).
Proof.
  intros (_ & _ & Hroot & Hedge & _).
  induction 1 as [w Hw|w v l Hw Hchain IH].
  - apply Hroot in Hw as ->. apply is_path_singleton.
  - rewrite reverse_cons. apply (is_path_snoc g r v); [done|]. by apply Hedge.
Qed.

(** In the search from the target the chain of a node, read forwards,
    continues a path to the node up to the target. *)
Lemma chain_is_path_on t k d w l a p :
  search_tree g t k d → chain d w l → is_path g a w p →
  is_path g a t (p ++ tail l).
Proof.
  intros (_ & _ & Hroot & Hedge & _) Hchain. revert p.
  induction Hchain as [w Hw|w v l Hw Hchain IH]; intros p Hp.
  - apply Hroot in Hw as ->. simpl. by rewrite app_nil_r.
  - pose proof (chain_head _ _ _ Hchain) as Hhead.
    destruct l as [|v' l']; [done|]. injection Hhead as ->.
    specialize (IH (p ++ [v])). cbn [tail] in *.
    rewrite <-app_assoc in IH. apply IH.
    apply (is_path_snoc g a w); [done|]. apply Hsym. by apply Hedge.
Qed.

(** On a graph (an adjacency that is symmetric) [nx.shortest_path]
    returns a path between the two nodes that no path is shorter than,
    or raises [NetworkXNoPath] when no path joins them. *)
Lemma bidirectional_shortest_path_spec s t :
  has_node g s = true → has_node g t = true →
  (∃ p, shortest_path g s t = Ok p ∧ is_path g s t p ∧
        ∀ q, is_path g s t q → length p ≤ length q) ∨
  (shortest_path g s t = Raise NetworkXNoPath ∧ ∀ q, ¬ is_path g s t q).
Proof.
  intros Hs Ht. unfold shortest_path, bidirectional_shortest_path.
  rewrite Hs, Ht. cbn [andb]. unfold bidirectional_pred_succ.
  case_bool_decide as Hst.
  - subst t. left. exists [s]. split_and!.
    + cbn. rewrite !decide_True by done. cbn. by rewrite decide_True.
    + apply is_path_singleton.
    + intros q (Hhead & _). destruct q; [done|]. simpl. lia.
  - destruct (search_loop_spec g s t Hsym (search_fuel g)
                [(s, None)] [(t, None)] [s] [t] 0 0)
      as [(pred & succ & w & kf & kr & -> & Hpred & Hsucc & Hwp & Hws & Hmin)
         |[-> Hnone]].
    + apply search_invariant_start.
    + apply search_invariant_start.
    + intros v ->%list_elem_of_singleton Hv%list_elem_of_singleton. done.
    + unfold search_fuel. simpl. lia.
    + left. cbn [mbind result_bind].
      destruct (proj2 (proj2 (proj2 (proj2 Hpred))) w Hwp)
        as (lp & Hcp & Hkp & Hlp).
      destruct (proj2 (proj2 (proj2 (proj2 Hsucc))) w Hws)
        as (ls & Hcs & Hks & Hls).
      exists (reverse lp ++ tail ls). split_and!.
      * rewrite (follow_chain pred w lp) by done. cbn [mbind result_bind].
        rewrite last_reverse, (chain_head _ _ _ Hcp).
        inversion Hcs as [w' Hw|w' v l Hw Hchain]; subst.
        -- rewrite Hw, follow_None. done.
        -- rewrite Hw, (follow_chain succ v l _ Hchain) by (simpl in Hls; lia).
           done.
      * apply (chain_is_path_on t kr succ w); [done..|].
        by apply (chain_is_path s kf pred).
      * intros q Hq. pose proof (is_path_walk g s t q Hq) as Hwalk.
        apply Hmin in Hwalk. destruct Hq as (Hhead & _).
        rewrite length_app, length_reverse.
        destruct q; [done|]. destruct ls; [by inversion Hcs|].
        simpl in *. lia.
    + right. split; [done|]. intros q Hq.
      apply (Hnone (length q - 1)). by apply is_path_walk.
Qed.

End meeting.

(** The routine that answers with [nx.shortest_path] on every graph
    meets what the wrapper relies on. *)
Lemma graph_shortest_path_spec :
  Networkx.shortest_path_spec Networkx.graph_shortest_path.
Proof.
  intros g s t q Hs Ht Hq. unfold Networkx.graph_shortest_path.
  destruct (decide (Networkx.undirected g)) as [Hg|Hg].
  - destruct (bidirectional_shortest_path_spec g
                (proj1 (undirected_spec g) Hg) s t Hs Ht) as [Hp|[_ Hnone]];
      [done|]. by destruct (Hnone q).
  - by apply (bfs_shortest_path_spec g s t q).
Qed.

Lemma get_path_graph_shortest_path (self : EnvGraph.t) (origin target : list Z) :
  Networkx.undirected (EnvGraph.the_graph self) →
  EnvGraph.get_path Networkx.graph_shortest_path self origin target
  = EnvGraph.get_path Networkx.shortest_path self origin target.
Proof.
  intros Hg. unfold EnvGraph.get_path, Networkx.graph_shortest_path.
  by destruct (decide (Networkx.undirected (EnvGraph.the_graph self))).
Qed.

(** The graph of a map is a graph: [add_edge] enters both directions. *)
Lemma init_undirected (desc : list string) (eg : EnvGraph.t) :
  EnvGraph.init desc = Ok eg → Networkx.undirected (EnvGraph.the_graph eg).
Proof.
  unfold EnvGraph.init. intros Hinit.
  apply bind_Ok in Hinit as (row0 & Hrow0 & Hinit).
  apply bind_Ok in Hinit as (g0 & [_ ->]%empty_graph_Ok & Hinit).
  apply bind_Ok in Hinit as (g & Hloop & [= <-]). cbn.
  rewrite nodes_graph_keys in Hloop.
  apply init_loop_edges in Hloop as [_ Hedges].
  apply undirected_spec. intros u v. rewrite !Hedges. tauto.
Qed.

(** ** The paths of [nx.shortest_path] on small maps *)

(** The theorem at work on the square of three by three cells, from the
    north-west corner to the south-east corner: the two searches meet in
    the north-east corner. *)
Lemma get_path_square_map :
  ∃ cords actions,
    EnvGraph.get_path Networkx.shortest_path
      (Scenarios.graph_of Scenarios.square_map) [0; 0]%Z [2; 2]%Z
    = Ok (cords, actions) ∧
    length cords = 4 ∧ length actions = 4 ∧
    Replay.replay [0; 0]%Z actions = cords.
Proof.
  pose proof (get_path_replay_wide Networkx.graph_shortest_path
                graph_shortest_path_spec
                Scenarios.square_map (Scenarios.graph_of Scenarios.square_map)
                [0; 0]%Z [2; 2]%Z 0%Z 8%Z [0; 1; 2; 5; 8]%Z) as H.
  assert (EnvGraph.init Scenarios.square_map
          = Ok (Scenarios.graph_of Scenarios.square_map)) as Hinit
    by (vm_compute; reflexivity).
  assert (2 ≤ EnvGraph.cols (Scenarios.graph_of Scenarios.square_map))%Z as Hcols.
  { vm_compute. by intros [=]. }
  assert (EnvGraph.right_border_closed Scenarios.square_map
            (EnvGraph.cols (Scenarios.graph_of Scenarios.square_map))) as Hborder.
  { apply right_border_closed_rows.
    repeat (apply Forall_cons; split; [vm_compute; by intros [=]|]).
    apply Forall_nil_2. }
  assert (EnvGraph.in_grid (Scenarios.graph_of Scenarios.square_map) [0; 0]%Z)
    as Horigin.
  { exists 0%Z, 0%Z. split_and!; vm_compute; (reflexivity || by intros [=]). }
  assert (EnvGraph.in_grid (Scenarios.graph_of Scenarios.square_map) [2; 2]%Z)
    as Htarget.
  { exists 2%Z, 2%Z. split_and!; vm_compute; (reflexivity || by intros [=]). }
  assert (Networkx.is_path
            (EnvGraph.the_graph (Scenarios.graph_of Scenarios.square_map))
            0 8 [0; 1; 2; 5; 8]%Z) as Hpath.
  { split_and!; [done..|]. intros i u v Hu Hv.
    do 5 (destruct i as [|i];
          [cbn in Hu, Hv;
           first [discriminate Hv
                 |injection Hu as <-; injection Hv as <-; vm_compute;
                  repeat constructor]|]).
    cbn in Hu. discriminate Hu. }
  specialize (H Hinit Hcols Hborder Horigin Htarget
                ltac:(vm_compute; reflexivity) ltac:(vm_compute; reflexivity)
                Hpath).
  destruct H as (cords & actions & Hget & Hlen & _ & _ & Hreplay).
  rewrite get_path_graph_shortest_path in Hget
    by exact (init_undirected _ _ Hinit).
  exists cords, actions. split; [exact Hget|].
  assert (EnvGraph.get_path Networkx.shortest_path
            (Scenarios.graph_of Scenarios.square_map) [0; 0]%Z [2; 2]%Z
          = Ok ([[0; 1]; [0; 2]; [1; 2]; [2; 2]]%Z, [2; 2; 0; 0]%Z)) as Heval
    by (vm_compute; reflexivity).
  rewrite Heval in Hget. injection Hget as <- <-.
  split_and!; [reflexivity|reflexivity|exact Hreplay].
Defined.

Lemma get_path_distance_witness :
  ∃ cords actions,
    EnvGraph.get_path Networkx.shortest_path
      (Scenarios.graph_of Scenarios.column_map) [0; 0]%Z [1; 0]%Z
    = Ok (cords, actions) ∧
    (∀ q', Networkx.is_path
             (EnvGraph.the_graph (Scenarios.graph_of Scenarios.column_map)) 0 1 q' →
           S (length cords) ≤ length q').
Proof.
  destruct (get_path_distance Networkx.graph_shortest_path
              graph_shortest_path_spec
              (Scenarios.graph_of Scenarios.column_map)
              [0; 0]%Z [1; 0]%Z 0%Z 1%Z [0; 1]%Z)
    as (cords & actions & Hget & _ & Hmin & _).
  - vm_compute. by intros [=].
  - vm_compute. reflexivity.
  - vm_compute. reflexivity.
  - vm_compute. reflexivity.
  - vm_compute. reflexivity.
  - split_and!; [reflexivity..|]. intros i u v Hu Hv.
    destruct i as [|i]; cbn in Hu, Hv;
      [injection Hu as <-; injection Hv as <-; vm_compute; repeat constructor|].
    destruct i; discriminate Hv.
  - rewrite get_path_graph_shortest_path in Hget.
    + exists cords, actions. split; [exact Hget|exact Hmin].
    + apply (init_undirected Scenarios.column_map). vm_compute. reflexivity.
Defined.

(** ** When [__init__] succeeds and when it fails *)

Lemma length_list_ascii_of_string (s : string) :
  length (list_ascii_of_string s) = String.length s.
Proof. induction s as [|a s IH]; [done|]. simpl. by rewrite IH. Qed.

Lemma getitemZ_in_range {A} (l : list A) (i : Z) :
  (0 ≤ i < Z.of_nat (length l))%Z →
  ∃ x, EnvGraph.getitemZ l i = Ok x ∧ l !! Z.to_nat i = Some x.
Proof.
  intros Hi. unfold EnvGraph.getitemZ. rewrite bool_decide_true by done.
  apply getitem_lt. lia.
Qed.

Section graph_nodes.
Import EnvGraph.
Local Open Scope Z_scope.
Implicit Types (g : list (Z * list Z)) (u v w : Z).

Lemma add_node_present u g : u ∈ dict_keys g → add_node u g = g.
Proof.
  intros Hu. unfold add_node, has_node, dict_mem. by rewrite bool_decide_true.
Qed.

Lemma add_edge_keys_present u v g :
  u ∈ dict_keys g → v ∈ dict_keys g → dict_keys (add_edge u v g) = dict_keys g.
Proof.
  intros Hu Hv. unfold add_edge.
  rewrite (add_node_present u g) by done. rewrite (add_node_present v g) by done.
  rewrite add_neighbor_keys; [by rewrite add_neighbor_keys|].
  by rewrite add_neighbor_keys.
Qed.

Lemma add_edge_keys_new u v g :
  v ∉ dict_keys g → (length g < length (add_edge u v g))%nat.
Proof.
  intros Hv. destruct (add_edge_keys u v g) as [extra Hkeys].
  assert (v ∈ dict_keys (add_edge u v g)) as Hin.
  { unfold add_edge.
    destruct (add_node_keys u g) as (e1 & Hk1 & Hu).
    destruct (add_node_keys v (add_node u g)) as (e2 & Hk2 & Hv').
    assert (u ∈ dict_keys (add_node v (add_node u g))) as Hu'.
    { rewrite Hk2. apply elem_of_app. by left. }
    rewrite add_neighbor_keys; [by rewrite add_neighbor_keys|].
    by rewrite add_neighbor_keys. }
  assert (length (dict_keys (add_edge u v g)) = length (add_edge u v g)) as Hl1
    by (unfold dict_keys; apply length_fmap).
  assert (length (dict_keys g) = length g) as Hl2
    by (unfold dict_keys; apply length_fmap).
  rewrite Hkeys in Hin, Hl1. rewrite length_app in Hl1.
  destruct extra as [|x extra]; [|simpl in Hl1; lia].
  rewrite app_nil_r in Hin. done.
Qed.

Lemma add_edge_length u v g : (length g ≤ length (add_edge u v g))%nat.
Proof.
  destruct (add_edge_keys u v g) as [extra Hkeys].
  apply (f_equal length) in Hkeys. unfold dict_keys in Hkeys.
  rewrite length_app, !length_fmap in Hkeys. lia.
Qed.

End graph_nodes.

Section init_outcome.
Import EnvGraph.
Local Open Scope Z_scope.
Variable desc : list string.
Variable rows cols : Z.
Let n := rows * cols.
Hypothesis Hlen : Z.of_nat (length desc) = rows + 2.
Hypothesis Hcols : 0 ≤ cols.
Hypothesis Hcover : rows_cover desc cols.
Hypothesis Hright : right_border_closed desc cols.

Lemma desc_at_in_map (r c : Z) :
  0 ≤ r < rows + 2 → 0 ≤ c ≤ 2 * cols → ∃ ch, desc_at desc r c = Ok ch.
Proof.
  intros Hr Hc. unfold desc_at.
  destruct (getitemZ_in_range desc r) as (row & -> & Hrow); [lia|].
  cbn [mbind result_bind].
  assert (2 * cols < Z.of_nat (String.length row)) as Hrowlen.
  { unfold rows_cover in Hcover. rewrite Forall_lookup in Hcover. eauto. }
  destruct (getitemZ_in_range (list_ascii_of_string row) c) as (ch & -> & _);
    [rewrite length_list_ascii_of_string; lia|by eexists].
Qed.

Lemma node_cell (i : Z) :
  0 ≤ i < n →
  0 < cols ∧ 0 ≤ i `div` cols < rows ∧ 0 ≤ i `mod` cols < cols ∧
  i = i `div` cols * cols + i `mod` cols.
Proof.
  unfold n. intros Hi.
  assert (0 < cols) as Hpos by nia.
  pose proof (Z.div_mod i cols ltac:(lia)) as Hdm.
  pose proof (Z.mod_pos_bound i cols Hpos) as Hmod.
  split_and!; [done| | |lia..].
  - apply Z.div_pos; lia.
  - apply Z.div_lt_upper_bound; lia.
Qed.

(** A turn of the loop at a cell that is not above an opening of the
    bottom border keeps the nodes. *)
Lemma init_node_safe g (i : Z) :
  dict_keys g = seqZ 0 n → 0 ≤ i < n →
  (i `div` cols + 1 < rows ∨
   desc_at desc (rows + 1) (i `mod` cols * 2 + 1) = Ok "-"%char) →
  ∃ g', init_node desc cols g i = Ok g' ∧ dict_keys g' = seqZ 0 n.
Proof.
  intros Hkeys Hi Hsafe.
  destruct (node_cell i Hi) as (Hpos & Hrow & Hcol & Hdm).
  unfold init_node, node_to_cors_with.
  rewrite bool_decide_false by lia. cbn [mbind result_bind].
  set (row := i `div` cols) in *. set (col := i `mod` cols) in *.
  destruct (desc_at_in_map (row + 2) (col * 2 + 1)) as [south Hsouth]; [lia..|].
  destruct (desc_at_in_map (row + 1) (col * 2 + 2)) as [east Heast]; [lia..|].
  rewrite Hsouth. cbn [mbind result_bind]. rewrite Heast. cbn [mbind result_bind].
  assert (cors_to_node_with cols (row + 1) col = i + cols) as ->
    by (unfold cors_to_node_with; lia).
  assert (cors_to_node_with cols row (col + 1) = i + 1) as ->
    by (unfold cors_to_node_with; lia).
  set (g1 := if bool_decide (south ≠ "-"%char) then add_edge i (i + cols) g else g).
  set (g2 := if bool_decide (east = ":"%char) then add_edge i (i + 1) g1 else g1).
  assert (dict_keys g1 = seqZ 0 n) as Hkeys1.
  { unfold g1. case_bool_decide as Hopen; [|done].
    rewrite add_edge_keys_present; [done|rewrite Hkeys, elem_of_seqZ..]; [lia|].
    assert (row + 1 < rows) as Hnext.
    { destruct Hsafe as [?|Hclosed]; [done|].
      destruct (decide (row + 1 = rows)) as [Hlast|]; [|lia].
      replace (row + 2) with (rows + 1) in Hsouth by lia. congruence. }
    unfold n. nia. }
  assert (dict_keys g2 = seqZ 0 n) as Hkeys2.
  { unfold g2. case_bool_decide as Hopen; [|done].
    rewrite add_edge_keys_present; [done|rewrite Hkeys1, elem_of_seqZ..]; [lia|].
    assert (col + 1 < cols) as Hnext.
    { destruct (decide (col + 1 = cols)) as [Hlast|]; [|lia].
      exfalso. apply (Hright (row + 1)).
      replace (2 * cols) with (col * 2 + 2) by lia. by rewrite Heast, Hopen. }
    unfold n. nia. }
  exists g2. split; [|done].
  rewrite bool_decide_true; [done|].
  apply (f_equal length) in Hkeys, Hkeys2. unfold dict_keys in *.
  rewrite length_fmap in Hkeys, Hkeys2. congruence.
Qed.

Lemma init_loop_safe (l : list Z) g :
  dict_keys g = seqZ 0 n →
  (∀ i, i ∈ l → 0 ≤ i < n ∧
     (i `div` cols + 1 < rows ∨
      desc_at desc (rows + 1) (i `mod` cols * 2 + 1) = Ok "-"%char)) →
  ∃ g', for_each (init_node desc cols) l g = Ok g' ∧ dict_keys g' = seqZ 0 n.
Proof.
  revert g. induction l as [|i l IH]; intros g Hkeys Hsafe.
  - by exists g.
  - destruct (Hsafe i) as [Hi Hs]; [by left|].
    destruct (init_node_safe g i Hkeys Hi Hs) as (g1 & Hnode & Hkeys1).
    destruct (IH g1 Hkeys1) as (g' & Hloop & Hkeys').
    { intros j Hj. apply Hsafe. by right. }
    exists g'. split; [|done]. cbn [for_each]. by rewrite Hnode.
Qed.

(** A turn of the loop at a cell of the last row above an opening of the
    bottom border adds a node, which the iteration refuses. *)
Lemma init_node_open_bottom g (i : Z) :
  dict_keys g = seqZ 0 n → 0 ≤ i < n →
  i `div` cols + 1 = rows →
  desc_at desc (rows + 1) (i `mod` cols * 2 + 1) ≠ Ok "-"%char →
  init_node desc cols g i = Raise RuntimeError.
Proof.
  intros Hkeys Hi Hlast Hopen.
  destruct (node_cell i Hi) as (Hpos & Hrow & Hcol & Hdm).
  unfold init_node, node_to_cors_with.
  rewrite bool_decide_false by lia. cbn [mbind result_bind].
  set (row := i `div` cols) in *. set (col := i `mod` cols) in *.
  destruct (desc_at_in_map (row + 2) (col * 2 + 1)) as [south Hsouth]; [lia..|].
  destruct (desc_at_in_map (row + 1) (col * 2 + 2)) as [east Heast]; [lia..|].
  rewrite Hsouth. cbn [mbind result_bind]. rewrite Heast. cbn [mbind result_bind].
  assert (cors_to_node_with cols (row + 1) col = i + cols) as ->
    by (unfold cors_to_node_with; lia).
  replace (row + 2) with (rows + 1) in Hsouth by lia.
  rewrite (bool_decide_true (south ≠ "-"%char)); [|intros ->; by apply Hopen].
  assert (length g < length (add_edge i (i + cols) g))%nat as Hgrow.
  { apply add_edge_keys_new. rewrite Hkeys, elem_of_seqZ. unfold n. nia. }
  rewrite bool_decide_false; [done|].
  case_bool_decide; [|lia].
  pose proof (add_edge_length i (cors_to_node_with cols row (col + 1))
                (add_edge i (i + cols) g)). lia.
Qed.

End init_outcome.

Lemma least_witness (P : Z → Prop) (c : Z) :
  (∀ x, P x ∨ ¬ P x) → (0 ≤ c)%Z → P c →
  ∃ c0, (0 ≤ c0 ≤ c)%Z ∧ P c0 ∧ ∀ x, (0 ≤ x < c0)%Z → ¬ P x.
Proof.
  intros Hdec Hc HP.
  cut (∀ k : nat, (∀ x, (0 ≤ x < Z.of_nat k)%Z → ¬ P x) ∨
                  ∃ c0, (0 ≤ c0 < Z.of_nat k)%Z ∧ P c0 ∧ ∀ x, (0 ≤ x < c0)%Z → ¬ P x).
  { intros Hcut. destruct (Hcut (Z.to_nat c)) as [Hnone|(c0 & Hc0 & HP0 & Hmin)].
    - exists c. split_and!; [lia..|done|]. intros x Hx. apply Hnone. lia.
    - exists c0. split_and!; [lia..|done|done]. }
  induction k as [|k [Hnone|(c0 & Hc0 & HP0 & Hmin)]].
  - left. intros x Hx. lia.
  - destruct (Hdec (Z.of_nat k)) as [Hk|Hk].
    + right. exists (Z.of_nat k). split_and!; [lia..|done|done].
    + left. intros x Hx. destruct (decide (x = Z.of_nat k)) as [->|Hne]; [done|].
      apply Hnone. lia.
  - right. exists c0. split_and!; [lia..|done|done].
Qed.

(** X20.  [EnvGraph(desc)] is built without an error whenever the map
    has at least two rows (so that [len(desc) - 2] is not negative),
    every row of the map reaches past the last cell, the row under the
    grid has ['-'] under every cell and no row has [':'] right after its
    last cell; [rows] and [cols] are then [len(desc) - 2] and
    [len(desc[0]) // 2]. *)
Theorem init_succeeds (desc : list string) (row0 : string) :
  2 ≤ length desc →
  desc !! 0%nat = Some row0 →
  EnvGraph.rows_cover desc (Z.of_nat (String.length row0) `div` 2) →
  EnvGraph.bottom_border_closed desc (Z.of_nat (length desc) - 2)
    (Z.of_nat (String.length row0) `div` 2) →
  EnvGraph.right_border_closed desc (Z.of_nat (String.length row0) `div` 2) →
  ∃ g, EnvGraph.init desc
       = Ok {| EnvGraph.rows := Z.of_nat (length desc) - 2;
               EnvGraph.cols := Z.of_nat (String.length row0) `div` 2;
               EnvGraph.the_graph := g |}.
Proof.
  intros Htwo Hrow0 Hcover Hbottom Hright.
  set (rows := (Z.of_nat (length desc) - 2)%Z) in *.
  set (cols := (Z.of_nat (String.length row0) `div` 2)%Z) in *.
  assert (0 ≤ cols)%Z as Hcols by (apply Z.div_pos; lia).
  assert (0 ≤ rows)%Z as Hrows by (unfold rows; lia).
  assert (Z.of_nat (length desc) = rows + 2)%Z as Hlen by (unfold rows; lia).
  unfold EnvGraph.init.
  destruct (getitemZ_in_range desc 0) as (row0' & Hget & Hrow0').
  { apply lookup_lt_Some in Hrow0. lia. }
  change (Z.to_nat 0) with 0%nat in Hrow0'.
  assert (row0' = row0) as -> by congruence.
  rewrite Hget. cbn [mbind result_bind]. fold rows cols.
  rewrite empty_graph_nonneg by lia. cbn [mbind result_bind].
  rewrite nodes_graph_keys.
  destruct (init_loop_safe desc rows cols Hlen Hcols Hcover Hright
              (seqZ 0 (rows * cols)) (EnvGraph.nodes_graph (rows * cols)))
    as (g & Hloop & _).
  { apply nodes_graph_keys. }
  { intros i Hi%elem_of_seqZ. split; [lia|].
    destruct (node_cell desc rows cols Hlen Hcols i) as (Hpos & Hrow & Hcol & _); [lia|].
    destruct (decide (i `div` cols + 1 < rows)%Z); [by left|right].
    replace (i `mod` cols * 2 + 1)%Z with ((i `mod` cols) * 2 + 1)%Z by done.
    by apply Hbottom. }
  rewrite Hloop. by exists g.
Qed.

Lemma init_succeeds_witness :
  ∃ g, EnvGraph.init Scenarios.square_map
       = Ok {| EnvGraph.rows := 3; EnvGraph.cols := 3; EnvGraph.the_graph := g |}.
Proof.
  apply (init_succeeds Scenarios.square_map "+-----+").
  - vm_compute. lia.
  - reflexivity.
  - repeat (apply Forall_cons; split; [vm_compute; reflexivity|]). apply Forall_nil_2.
  - intros col Hcol.
    assert (col = 0 ∨ col = 1 ∨ col = 2)%Z as [->|[->| ->]]
      by (change (Z.of_nat (String.length "+-----+") `div` 2)%Z with 3%Z in Hcol; lia);
      vm_compute; reflexivity.
  - apply right_border_closed_rows.
    repeat (apply Forall_cons; split; [vm_compute; by intros [=]|]).
    apply Forall_nil_2.
Defined.

(** A map of one row has [rows = -1]: the number of nodes is negative
    and [nx.empty_graph] refuses it. *)
Example init_one_row :
  EnvGraph.init ["+-+"]%string = Raise NetworkXError.
Proof. vm_compute. reflexivity. Qed.

(** X21.  On a map with at least one row of cells whose rows reach past
    the last cell and whose right border is closed, an opening of the
    bottom border (a character other than ['-'] under a cell of the last
    row) makes [EnvGraph(desc)] fail with [RuntimeError]: the edge to the
    south adds a node while the loop iterates over the nodes. *)
Theorem init_open_bottom (desc : list string) (row0 : string) (c : Z) :
  desc !! 0%nat = Some row0 →
  EnvGraph.rows_cover desc (Z.of_nat (String.length row0) `div` 2) →
  EnvGraph.right_border_closed desc (Z.of_nat (String.length row0) `div` 2) →
  (0 < Z.of_nat (length desc) - 2)%Z →
  (0 ≤ c < Z.of_nat (String.length row0) `div` 2)%Z →
  EnvGraph.desc_at desc (Z.of_nat (length desc) - 2 + 1) (c * 2 + 1) ≠ Ok "-"%char →
  EnvGraph.init desc = Raise RuntimeError.
Proof.
  intros Hrow0 Hcover Hright Hrows Hc Hopen.
  set (rows := (Z.of_nat (length desc) - 2)%Z) in *.
  set (cols := (Z.of_nat (String.length row0) `div` 2)%Z) in *.
  assert (0 ≤ cols)%Z as Hcols by lia.
  assert (Z.of_nat (length desc) = rows + 2)%Z as Hlen by (unfold rows; lia).
  destruct (least_witness
              (λ x, EnvGraph.desc_at desc (rows + 1) (x * 2 + 1) ≠ Ok "-"%char) c)
    as (c0 & Hc0 & Hopen0 & Hclosed); [|lia|done|].
  { intros x. destruct (EnvGraph.desc_at desc (rows + 1) (x * 2 + 1)) as [ch|e];
      [|by left].
    destruct (decide (ch = "-"%char)) as [->|Hne]; [right; by intros []|left; congruence]. }
  set (i0 := ((rows - 1) * cols + c0)%Z).
  assert (i0 `div` cols = rows - 1 ∧ i0 `mod` cols = c0)%Z as [Hdiv Hmod].
  { split; symmetry.
    - apply (Z.div_unique _ _ _ c0); [lia|unfold i0; lia].
    - apply (Z.mod_unique _ _ (rows - 1)); [lia|unfold i0; lia]. }
  assert (0 ≤ i0 < rows * cols)%Z as Hi0 by (unfold i0; nia).
  unfold EnvGraph.init.
  destruct (getitemZ_in_range desc 0) as (row0' & Hget & Hrow0').
  { apply lookup_lt_Some in Hrow0. lia. }
  change (Z.to_nat 0) with 0%nat in Hrow0'.
  assert (row0' = row0) as -> by congruence.
  rewrite Hget. cbn [mbind result_bind]. fold rows cols.
  rewrite empty_graph_nonneg by nia. cbn [mbind result_bind].
  rewrite nodes_graph_keys.
  replace (rows * cols)%Z with (i0 + (rows * cols - i0))%Z at 1 by lia.
  rewrite seqZ_app, for_each_app by lia.
  destruct (init_loop_safe desc rows cols Hlen Hcols Hcover Hright
              (seqZ 0 i0) (EnvGraph.nodes_graph (rows * cols)))
    as (g & Hloop & Hkeys).
  { apply nodes_graph_keys. }
  { intros i Hi%elem_of_seqZ. split; [lia|].
    destruct (node_cell desc rows cols Hlen Hcols i) as (Hpos & Hrow & Hcol & Hdm);
      [lia|].
    destruct (decide (i `div` cols + 1 < rows)%Z); [by left|right].
    assert (i `mod` cols < c0)%Z as Hlt by (unfold i0 in Hi; nia).
    destruct (EnvGraph.desc_at desc (rows + 1) (i `mod` cols * 2 + 1)) as [ch|e] eqn:Hch.
    - destruct (decide (ch = "-"%char)) as [->|Hne]; [done|].
      exfalso. apply (Hclosed (i `mod` cols)%Z); [lia|]. rewrite Hch. congruence.
    - exfalso. apply (Hclosed (i `mod` cols)%Z); [lia|]. by rewrite Hch. }
  rewrite Hloop. cbn [mbind result_bind].
  rewrite Z.add_0_l, seqZ_cons by lia. cbn [for_each].
  rewrite (init_node_open_bottom desc rows cols Hlen Hcols Hcover);
    [done|done|done|lia|by rewrite Hmod].
Qed.

Lemma init_open_bottom_witness :
  EnvGraph.init ["+-+"; "| |"; "+ +"]%string = Raise RuntimeError.
Proof.
  apply (init_open_bottom ["+-+"; "| |"; "+ +"]%string "+-+" 0).
  - reflexivity.
  - repeat (apply Forall_cons; split; [vm_compute; reflexivity|]). apply Forall_nil_2.
  - apply right_border_closed_rows.
    repeat (apply Forall_cons; split; [vm_compute; by intros [=]|]).
    apply Forall_nil_2.
  - vm_compute. reflexivity.
  - vm_compute. split; [by intros [=]|reflexivity].
  - vm_compute. by intros [=].
Defined.

(** ** The auction with unequal counts *)

Section auction_general.
Import TaskAllocator Auction.
Variable self : TaskAllocator.t.
Variable biddings : list nat.
Variable h : list (list (nat * Z)).
Variable m : nat.
Let n := num_taxis self.
Hypothesis Hwf : wellformed_bids m n biddings h.

(** One round while a taxi is still free, whatever the number of
    passengers. *)
Lemma auction_round_general (winners : list nat) (h' : list (list (nat * Z)))
    (p : nat) (r : nat) (d : list (nat * Z)) :
  length winners = p → p < n → NoDup winners → (∀ w, w ∈ winners → w < n) →
  biddings !! p = Some r → h !! r = Some d → h' !! r = Some d →
  ∃ w, auction_round self biddings (zip winners (seq 0 p), h') p
         = Ok (zip (winners ++ [w]) (seq 0 (S p)),
               <[r := filter (λ e, e.1 ∉ winners) d]> h') ∧
       lowest_free_bid n (bid_of h biddings p) winners w.
Proof.
  intros <- Hp Hnd Hlt Hr Hd0 Hd'.
  destruct Hwf as (Hbl & Hrefs & Hdicts).
  destruct (Hdicts _ r Hr) as (d0 & Hd0' & Hkeys).
  assert (Some d0 = Some d) as [= ->].
  { etrans; [symmetry; exact Hd0'|exact Hd0]. }
  clear Hd0'.
  assert (NoDup (dict_keys d)) as Hdnd by (rewrite Hkeys; apply NoDup_seq).
  unfold auction_round.
  rewrite (proj2 (getitem_Ok biddings _ r)) by done. cbn [mbind result_bind].
  rewrite (proj2 (getitem_Ok h' r d)) by done. cbn [mbind result_bind].
  rewrite bool_decide_true; cbn [mbind result_bind py_assert].
  2:{ fold n. unfold dict_keys in Hkeys.
      by rewrite <-(length_fmap fst), Hkeys, length_seq. }
  unfold pop_allocated.
  assert (dict_keys (zip winners (seq 0 (length winners))) = winners) as ->.
  { unfold dict_keys. apply fst_zip. by rewrite length_seq. }
  rewrite for_each_pop; [|done|done|].
  2:{ intros w Hw. rewrite Hkeys. apply elem_of_seq. specialize (Hlt w Hw). lia. }
  cbn [mbind result_bind]. set (d' := filter (λ e, e.1 ∉ winners) d).
  assert (d' ≠ []) as Hne.
  { intros Hnil.
    assert (seq 0 n ⊆ winners) as Hsub.
    { intros t Ht. rewrite <-Hkeys in Ht.
      apply list_elem_of_fmap in Ht as ([t' b] & -> & Hin). simpl.
      destruct (decide (t' ∈ winners)) as [|Hfree]; [done|].
      assert ((t', b) ∈ d') as Hin' by (apply list_elem_of_filter; done).
      rewrite Hnil in Hin'. by apply elem_of_nil in Hin'. }
    apply NoDup_submseteq in Hsub; [|apply NoDup_seq].
    apply submseteq_length in Hsub. rewrite length_seq in Hsub. lia. }
  destruct (dict_min_key_spec d' Hne) as (w & d1 & v & d2 & -> & Hsplit & H1 & H2).
  cbn [mbind result_bind].
  assert ((w, v) ∈ d') as Hwin by (rewrite Hsplit; set_solver).
  apply list_elem_of_filter in Hwin as [Hwfree Hwd]. simpl in Hwfree.
  assert (w < n) as Hwn.
  { assert (w ∈ dict_keys d) as Hk by (apply list_elem_of_fmap; by exists (w, v)).
    rewrite Hkeys in Hk. apply elem_of_seq in Hk. lia. }
  exists w. split.
  - f_equal. f_equal.
    rewrite dict_setitem_fresh.
    + rewrite seq_S. by rewrite zip_with_app by (by rewrite length_seq).
    + unfold dict_keys. by rewrite fst_zip by (by rewrite length_seq).
  - split_and!; [done..|].
    intros t Htn Htfree.
    assert (t ∈ dict_keys d) as ([t' b] & -> & Hin)%list_elem_of_fmap.
    { rewrite Hkeys. apply elem_of_seq. lia. }
    simpl in *. unfold bid_of. rewrite Hr, Hd0.
    rewrite (dict_get_elem w v d), (dict_get_elem t' b d) by done. simpl.
    assert ((t', b) ∈ d') as Hin' by (apply list_elem_of_filter; done).
    assert (StronglySorted (λ a b : nat * Z, a.1 < b.1) d') as Hsorted.
    { apply StronglySorted_filter, StronglySorted_keys.
      rewrite Hkeys. apply seq_sorted. }
    rewrite Hsplit in Hin', Hsorted.
    rewrite Forall_forall in H1. rewrite Forall_forall in H2.
    apply elem_of_app in Hin' as [Hin'|Hin'];
      [|apply elem_of_cons in Hin' as [[= -> ->]|Hin']].
    + left. by apply (H1 (t', b)).
    + right. done.
    + apply StronglySorted_app in Hsorted as (_ & _ & Hs).
      apply StronglySorted_cons in Hs as [Hs _]. rewrite Forall_forall in Hs.
      specialize (Hs _ Hin'). specialize (H2 _ Hin'). simpl in *.
      destruct (decide (v = b)); [right|left]; lia.
Qed.

(** The loop over the first [p] passengers, as long as there are taxis
    left for them. *)
Lemma auction_loop_general p :
  p ≤ n → p ≤ m →
  ∃ winners h',
    for_each (auction_round self biddings) (seq 0 p) ([], h)
      = Ok (zip winners (seq 0 p), h') ∧
    length winners = p ∧ NoDup winners ∧ (∀ w, w ∈ winners → w < n) ∧
    (∀ q w, winners !! q = Some w →
       lowest_free_bid n (bid_of h biddings q) (take q winners) w) ∧
    length h' = length h ∧
    (∀ q r d, biddings !! q = Some r → h !! r = Some d →
       h' !! r = Some (if decide (q < p)
                       then filter (λ e, e.1 ∉ take q winners) d else d)).
Proof.
  induction p as [|p IH]; intros Hp Hpm.
  - exists [], h. split_and!; try done.
    + constructor.
    + by intros w Hw%elem_of_nil.
  - destruct IH as (winners & h' & Hloop & Hlen & Hnd & Hlt & Hwin & Hlh & Hheap);
      [lia..|].
    pose proof Hwf as (Hbl & Hrefs & Hdicts).
    destruct (lookup_lt_is_Some_2 biddings p) as [r Hr]; [lia|].
    destruct (Hdicts p r Hr) as (d & Hd & Hkeys).
    assert (h' !! r = Some d) as Hd'.
    { rewrite (Hheap p r d Hr Hd). by rewrite decide_False by lia. }
    destruct (auction_round_general winners h' p r d)
      as (w & Hround & Hw); [done|lia|done..|].
    exists (winners ++ [w]), (<[r := filter (λ e, e.1 ∉ winners) d]> h').
    rewrite seq_S, for_each_app, Hloop. cbn [mbind result_bind for_each].
    rewrite Nat.add_0_l, Hround. cbn [mbind result_bind].
    rewrite <-(Nat.add_0_l p) at 2. rewrite <-seq_S.
    destruct Hw as (Hwn & Hwfree & Hwlow).
    split_and!.
    + done.
    + rewrite length_app. simpl. lia.
    + apply NoDup_app. split_and!; [done| |apply NoDup_singleton].
      intros x Hx ->%list_elem_of_singleton. done.
    + intros x [Hx| ->%list_elem_of_singleton]%elem_of_app; auto.
    + intros q x Hq.
      destruct (decide (q < p)) as [Hqp|Hqp].
      * rewrite lookup_app_l in Hq by lia. rewrite take_app_le by lia. auto.
      * assert (q = p) as ->.
        { apply lookup_lt_Some in Hq. rewrite length_app in Hq. simpl in Hq. lia. }
        rewrite take_app_length' by done.
        rewrite lookup_app_r, Hlen, Nat.sub_diag in Hq by lia.
        injection Hq as <-. done.
    + by rewrite length_insert.
    + intros q r' d' Hr' Hd''.
      destruct (decide (q = p)) as [->|Hne].
      * assert (r' = r) as -> by congruence.
        assert (d' = d) as -> by congruence.
        rewrite list_lookup_insert_eq by (rewrite Hlh; by eapply lookup_lt_Some).
        rewrite decide_True by lia. by rewrite take_app_length'.
      * rewrite list_lookup_insert_ne.
        2:{ intros <-. apply Hne. by eapply NoDup_lookup. }
        rewrite (Hheap q r' d' Hr' Hd'').
        destruct (decide (q < p)).
        -- rewrite decide_True by lia. by rewrite take_app_le by lia.
        -- by rewrite decide_False by lia.
Qed.

(** The round of the first passenger for whom no taxi is left: every
    entry is popped and [min] of the empty dictionary raises. *)
Lemma auction_round_no_taxi_left (winners : list nat)
    (h' : list (list (nat * Z))) (r : nat) (d : list (nat * Z)) :
  length winners = n → NoDup winners → (∀ w, w ∈ winners → w < n) →
  biddings !! n = Some r → h !! r = Some d → h' !! r = Some d →
  auction_round self biddings (zip winners (seq 0 n), h') n = Raise ValueError.
Proof.
  intros Hlen Hnd Hlt Hr Hd0 Hd'.
  destruct Hwf as (Hbl & Hrefs & Hdicts).
  destruct (Hdicts _ r Hr) as (d0 & Hd0' & Hkeys).
  assert (Some d0 = Some d) as [= ->].
  { etrans; [symmetry; exact Hd0'|exact Hd0]. }
  clear Hd0'.
  assert (NoDup (dict_keys d)) as Hdnd by (rewrite Hkeys; apply NoDup_seq).
  unfold auction_round.
  rewrite (proj2 (getitem_Ok biddings _ r)) by done. cbn [mbind result_bind].
  rewrite (proj2 (getitem_Ok h' r d)) by done. cbn [mbind result_bind].
  rewrite bool_decide_true; cbn [mbind result_bind py_assert].
  2:{ fold n. unfold dict_keys in Hkeys.
      by rewrite <-(length_fmap fst), Hkeys, length_seq. }
  unfold pop_allocated.
  assert (dict_keys (zip winners (seq 0 n)) = winners) as ->.
  { unfold dict_keys. apply fst_zip. rewrite length_seq. lia. }
  rewrite for_each_pop; [|done|done|].
  2:{ intros w Hw. rewrite Hkeys. apply elem_of_seq. specialize (Hlt w Hw). lia. }
  cbn [mbind result_bind].
  assert (filter (λ e : nat * Z, e.1 ∉ winners) d = []) as ->; [|done].
  assert (seq 0 n ⊆ winners) as Hall.
  { assert (winners ≡ₚ seq 0 n) as Hperm.
    { apply submseteq_length_Permutation.
      - apply NoDup_submseteq; [done|]. intros w Hw%Hlt. apply elem_of_seq. lia.
      - by rewrite length_seq, Hlen. }
    intros t Ht. by rewrite Hperm. }
  destruct (filter (λ e : nat * Z, e.1 ∉ winners) d) as [|e l] eqn:Hf; [done|].
  assert (e ∈ filter (λ e : nat * Z, e.1 ∉ winners) d) as Hin by (rewrite Hf; left).
  apply list_elem_of_filter in Hin as [Hfree Hin].
  exfalso. apply Hfree, Hall. rewrite <-Hkeys.
  apply list_elem_of_fmap. by exists e.
Qed.

End auction_general.

(** X22.  The auction does not need equal counts: with no more
    passengers than taxis and one dictionary object per passenger, keyed
    by all the taxis in order, it returns an allocation in which every
    passenger has a taxi of its own, the taxi with the lowest bid among
    those that won no earlier passenger, the lowest index breaking
    ties. *)
Theorem taxis_auction_allocation_spare_taxis (self : TaskAllocator.t)
    (biddings : list nat) (h : list (list (nat * Z))) :
  TaskAllocator.num_passengers self ≤ TaskAllocator.num_taxis self →
  Auction.wellformed_bids (TaskAllocator.num_passengers self)
    (TaskAllocator.num_taxis self) biddings h →
  ∃ winners h',
    TaskAllocator.taxis_auction_allocation self biddings h
      = Ok (zip winners (seq 0 (TaskAllocator.num_passengers self)), h') ∧
    length winners = TaskAllocator.num_passengers self ∧
    NoDup winners ∧
    (∀ p w, winners !! p = Some w →
       Auction.lowest_free_bid (TaskAllocator.num_taxis self)
         (Auction.bid_of h biddings p) (take p winners) w).
Proof.
  intros Hle Hwf.
  destruct (auction_loop_general self biddings h _ Hwf
              (TaskAllocator.num_passengers self))
    as (winners & h' & Hloop & Hlen & Hnd & Hlt & Hwin & _); [done..|].
  exists winners, h'. split_and!; [|done..].
  unfold TaskAllocator.taxis_auction_allocation. rewrite Hloop.
  cbn [mbind result_bind].
  rewrite bool_decide_true; [done|].
  by rewrite length_zip, length_seq, Hlen, Nat.min_id.
Qed.

Lemma wellformed_bids_example :
  Auction.wellformed_bids 1 2 [0] [TaskAllocator.bids_dict [3; 3]%Z].
Proof.
  split_and!; [reflexivity|repeat constructor; set_solver|].
  intros [|p] r [= <-]; eexists; split; reflexivity.
Defined.

Lemma taxis_auction_allocation_spare_taxis_witness :
  ∃ winners h',
    TaskAllocator.taxis_auction_allocation
      {| TaskAllocator.num_taxis := 2; TaskAllocator.num_passengers := 1;
         TaskAllocator.distances := [] |} [0]
      [TaskAllocator.bids_dict [3; 3]%Z]
    = Ok (zip winners (seq 0 1), h') ∧ length winners = 1.
Proof.
  destruct (taxis_auction_allocation_spare_taxis
    {| TaskAllocator.num_taxis := 2; TaskAllocator.num_passengers := 1;
       TaskAllocator.distances := [] |} [0]
    [TaskAllocator.bids_dict [3; 3]%Z])
    as (winners & h' & Hres & Hlen & _).
  - simpl. lia.
  - exact wellformed_bids_example.
  - exists winners, h'. split; [exact Hres|exact Hlen].
Defined.

(** X23.  With more passengers than taxis the auction raises
    [ValueError]: the first [num_taxis] passengers take all the taxis,
    and for the next passenger every bid is popped, so [min] is asked for
    the least key of an empty dictionary. *)
Theorem taxis_auction_allocation_surplus_passengers (self : TaskAllocator.t)
    (biddings : list nat) (h : list (list (nat * Z))) :
  TaskAllocator.num_taxis self < TaskAllocator.num_passengers self →
  Auction.wellformed_bids (TaskAllocator.num_passengers self)
    (TaskAllocator.num_taxis self) biddings h →
  TaskAllocator.taxis_auction_allocation self biddings h = Raise ValueError.
Proof.
  intros Hlt Hwf.
  destruct (auction_loop_general self biddings h _ Hwf (TaskAllocator.num_taxis self))
    as (winners & h' & Hloop & Hlen & Hnd & Hwlt & _ & _ & Hheap); [lia..|].
  pose proof Hwf as (Hbl & _ & Hdicts).
  destruct (lookup_lt_is_Some_2 biddings (TaskAllocator.num_taxis self)) as [r Hr];
    [lia|].
  destruct (Hdicts _ r Hr) as (d & Hd & _).
  assert (h' !! r = Some d) as Hd'.
  { rewrite (Hheap _ r d Hr Hd). by rewrite decide_False by lia. }
  unfold TaskAllocator.taxis_auction_allocation.
  replace (TaskAllocator.num_passengers self)
    with (TaskAllocator.num_taxis self
          + S (TaskAllocator.num_passengers self - S (TaskAllocator.num_taxis self)))
    by lia.
  rewrite seq_app, for_each_app, Hloop. cbn [mbind result_bind seq for_each].
  rewrite Nat.add_0_l.
  by rewrite (auction_round_no_taxi_left self biddings h _ Hwf winners h' r d).
Qed.

Lemma wellformed_bids_surplus_example :
  Auction.wellformed_bids 2 1 [0; 1]
    [TaskAllocator.bids_dict [3]%Z; TaskAllocator.bids_dict [2]%Z].
Proof.
  split_and!; [reflexivity|repeat constructor; set_solver|].
  intros [|[|p]] r [= <-]; eexists; split; reflexivity.
Defined.

Lemma taxis_auction_allocation_surplus_passengers_witness :
  TaskAllocator.taxis_auction_allocation
    {| TaskAllocator.num_taxis := 1; TaskAllocator.num_passengers := 2;
       TaskAllocator.distances := [] |} [0; 1]
    [TaskAllocator.bids_dict [3]%Z; TaskAllocator.bids_dict [2]%Z]
  = Raise ValueError.
Proof.
  apply (taxis_auction_allocation_surplus_passengers
    {| TaskAllocator.num_taxis := 1; TaskAllocator.num_passengers := 2;
       TaskAllocator.distances := [] |} [0; 1]
    [TaskAllocator.bids_dict [3]%Z; TaskAllocator.bids_dict [2]%Z]).
  - simpl. lia.
  - exact wellformed_bids_surplus_example.
Defined.

(** ** The dictionaries of [get_taxis_bids] *)

Lemma bids_dict_get (bids : list Z) (t : nat) :
  dict_get t (TaskAllocator.bids_dict bids) = bids !! t.
Proof.
  unfold TaskAllocator.bids_dict.
  rewrite dict_of_pairs_NoDup.
  2:{ rewrite fst_zip by (by rewrite length_seq). apply NoDup_seq. }
  destruct (bids !! t) as [b|] eqn:Hb.
  - apply (dict_get_zip _ _ t); [apply NoDup_seq| |done].
    apply lookup_seq_lt. by eapply lookup_lt_Some.
  - apply dict_get_absent. unfold dict_keys.
    rewrite fst_zip by (by rewrite length_seq).
    intros Hin%elem_of_seq. apply lookup_ge_None in Hb. lia.
Qed.

Lemma bids_on_passengers_spec (taxis_biddings : list (list Z)) (n : nat) :
  Forall (λ bids, length bids = n) taxis_biddings →
  Auction.wellformed_bids (length taxis_biddings) n
    (Auction.bids_on_passengers taxis_biddings).1
    (Auction.bids_on_passengers taxis_biddings).2 ∧
  ∀ p t,
    Auction.bid_of (Auction.bids_on_passengers taxis_biddings).2
      (Auction.bids_on_passengers taxis_biddings).1 p t
    = Assignment.cost_at taxis_biddings (p, t).
Proof.
  intros Hrows. unfold Auction.bids_on_passengers. cbn [fst snd]. split.
  - split_and!; [by rewrite length_seq|apply NoDup_seq|].
    intros p r [Hr Hp]%lookup_seq. simpl in Hr. subst r.
    destruct (lookup_lt_is_Some_2 taxis_biddings p) as [bids Hbids]; [lia|].
    exists (TaskAllocator.bids_dict bids). split.
    + by rewrite list_lookup_fmap, Hbids.
    + rewrite bids_dict_keys. f_equal.
      rewrite Forall_lookup in Hrows. eauto.
  - intros p t. unfold Auction.bid_of, Assignment.cost_at. cbn [fst snd].
    destruct (taxis_biddings !! p) as [bids|] eqn:Hbids.
    + rewrite lookup_seq_lt by (by eapply lookup_lt_Some).
      change (0 + p) with p.
      rewrite list_lookup_fmap, Hbids. cbn. by rewrite bids_dict_get.
    + rewrite lookup_seq_ge; [done|]. by apply lookup_ge_None.
Qed.

(** X24.  The last loop of [get_taxis_bids] turns a bid matrix with one
    row per passenger and one cell per taxi into the input that the
    auction expects: one dictionary object of its own per passenger, with
    the taxis [0 .. n-1] as keys in this order, and the bid of taxi [t] on
    passenger [p] is the cell [(p, t)] of the matrix. *)
Theorem bids_on_passengers_wellformed (taxis_biddings : list (list Z)) (n : nat) :
  Forall (λ bids, length bids = n) taxis_biddings →
  Auction.wellformed_bids (length taxis_biddings) n
    (Auction.bids_on_passengers taxis_biddings).1
    (Auction.bids_on_passengers taxis_biddings).2 ∧
  ∀ p t,
    Auction.bid_of (Auction.bids_on_passengers taxis_biddings).2
      (Auction.bids_on_passengers taxis_biddings).1 p t
    = Assignment.cost_at taxis_biddings (p, t).
Proof. apply bids_on_passengers_spec. Qed.

Lemma bids_on_passengers_wellformed_witness :
  Auction.wellformed_bids 2 2
    (Auction.bids_on_passengers [[3; 3]; [2; 9]]%Z).1
    (Auction.bids_on_passengers [[3; 3]; [2; 9]]%Z).2.
Proof.
  apply (bids_on_passengers_wellformed [[3; 3]; [2; 9]]%Z 2).
  repeat constructor.
Defined.

(** X25.  [get_taxis_bids] followed by the auction, with as many taxis
    as passengers: on the dictionaries built from a square bid matrix the
    auction returns, for the passengers in order, the taxi whose cell in
    the passenger's row is the least among the taxis that won no earlier
    passenger, the lowest index breaking ties; all taxis win once. *)
Theorem taxis_auction_on_bid_matrix (self : TaskAllocator.t)
    (taxis_biddings : list (list Z)) :
  TaskAllocator.num_passengers self = TaskAllocator.num_taxis self →
  length taxis_biddings = TaskAllocator.num_taxis self →
  Forall (λ bids, length bids = TaskAllocator.num_taxis self) taxis_biddings →
  ∃ winners h',
    TaskAllocator.taxis_auction_allocation self
      (Auction.bids_on_passengers taxis_biddings).1
      (Auction.bids_on_passengers taxis_biddings).2
    = Ok (zip winners (seq 0 (TaskAllocator.num_taxis self)), h') ∧
    winners ≡ₚ seq 0 (TaskAllocator.num_taxis self) ∧
    ∀ p w, winners !! p = Some w →
      Auction.lowest_free_bid (TaskAllocator.num_taxis self)
        (λ t, Assignment.cost_at taxis_biddings (p, t)) (take p winners) w.
Proof.
  intros Hsq Hlen Hrows.
  destruct (bids_on_passengers_spec taxis_biddings _ Hrows) as [Hwf Hbid].
  rewrite Hlen in Hwf.
  destruct (auction_loop_general self _ _ _ Hwf (TaskAllocator.num_taxis self))
    as (winners & h' & Hloop & Hwl & Hnd & Hlt & Hwin & _); [done..|].
  exists winners, h'. split_and!.
  - unfold TaskAllocator.taxis_auction_allocation. rewrite Hsq, Hloop.
    cbn [mbind result_bind].
    rewrite bool_decide_true; [done|].
    by rewrite length_zip, length_seq, Hwl, Nat.min_id.
  - apply submseteq_length_Permutation.
    + apply NoDup_submseteq; [done|]. intros w Hw%Hlt. apply elem_of_seq. lia.
    + by rewrite length_seq, Hwl.
  - intros p w Hw. destruct (Hwin p w Hw) as (Hwn & Hfree & Hlow).
    split_and!; [done..|]. intros t Ht Htfree.
    rewrite <-!Hbid. by apply Hlow.
Qed.

Lemma taxis_auction_on_bid_matrix_witness :
  ∃ winners h',
    TaskAllocator.taxis_auction_allocation
      {| TaskAllocator.num_taxis := 2; TaskAllocator.num_passengers := 2;
         TaskAllocator.distances := [] |}
      (Auction.bids_on_passengers [[3; 3]; [2; 9]]%Z).1
      (Auction.bids_on_passengers [[3; 3]; [2; 9]]%Z).2
    = Ok (zip winners (seq 0 2), h') ∧ winners ≡ₚ seq 0 2.
Proof.
  destruct (taxis_auction_on_bid_matrix
    {| TaskAllocator.num_taxis := 2; TaskAllocator.num_passengers := 2;
       TaskAllocator.distances := [] |} [[3; 3]; [2; 9]]%Z)
    as (winners & h' & Hres & Hperm & _).
  - reflexivity.
  - reflexivity.
  - repeat constructor.
  - exists winners, h'. split; [exact Hres|exact Hperm].
Defined.

(** ** The exhaustive solver with any two counts *)

Section dict_of_pairs_entries.
Context {K V : Type} `{EqDecision K}.

Lemma elem_of_dict_setitem (k : K) (v : V) (d : list (K * V)) e :
  e ∈ dict_setitem k v d → e = (k, v) ∨ e ∈ d.
Proof.
  induction d as [|[k0 v0] d IH]; simpl.
  - intros ->%list_elem_of_singleton. by left.
  - case_decide; rewrite !elem_of_cons; naive_solver.
Qed.

Lemma foldl_setitem_entries (l : list (K * V)) (d0 : list (K * V)) e :
  e ∈ foldl (λ d kv, dict_setitem kv.1 kv.2 d) d0 l → e ∈ d0 ∨ e ∈ l.
Proof.
  revert d0. induction l as [|[k v] l IH]; intros d0; simpl; [auto|].
  intros [Hin|Hin]%IH; [|right; by right].
  apply elem_of_dict_setitem in Hin as [->|?]; [right; left|by left].
Qed.

Lemma foldl_setitem_keys (l : list (K * V)) (d0 : list (K * V)) k :
  k ∈ dict_keys d0 ∨ k ∈ l.*1 →
  k ∈ dict_keys (foldl (λ d kv, dict_setitem kv.1 kv.2 d) d0 l).
Proof.
  revert d0. induction l as [|[k1 v1] l IH]; intros d0; simpl.
  - by intros [?|?%elem_of_nil].
  - intros Hk. apply IH. rewrite dict_keys_setitem.
    destruct Hk as [Hk|[->|Hk]%elem_of_cons]; [left|left|by right].
    + case_decide; [done|]. apply elem_of_app. by left.
    + case_decide; [done|]. apply elem_of_app. right. left.
Qed.

End dict_of_pairs_entries.

Section optimal_general.
Import TaskAllocator Assignment.
Variable self : TaskAllocator.t.
Variable B : Z.
Let M := distances self.
Let nt := num_taxis self.
Let np := num_passengers self.
Hypothesis Hshape : shape nt np M.
Hypothesis Hbounded : bounded B M.
Hypothesis Hsmall : (Z.of_nat (nt `min` np) * B < 2 ^ 63)%Z.

Lemma total_of_exact alloc :
  alloc ∈ allocations_of self → total_of self alloc = pairs_cost M alloc.
Proof.
  intros Hin. unfold total_of.
  rewrite (allocation_total_exact self Hshape B); [done|done| |].
  - by apply allocations_in_range.
  - apply list_elem_of_fmap in Hin as (sigma & -> & Hs).
    apply permutations_upto_Permutation in Hs; [|done].
    rewrite length_zip, length_seq, Hs, length_seq. done.
Qed.

Lemma optimal_assignment_least :
  ∃ sigma,
    sigma ≡ₚ seq 0 np ∧
    optimal_assignment self = Ok (zip (seq 0 nt) sigma) ∧
    ∀ tau, tau ≡ₚ seq 0 np →
      (pairs_cost M (zip (seq 0 nt) sigma) ≤ pairs_cost M (zip (seq 0 nt) tau))%Z.
Proof.
  unfold optimal_assignment.
  rewrite (passengers_allocations_cost_Ok self Hshape). cbn [mbind result_bind].
  set (L := (λ a, (a, total_of self a)) <$> allocations_of self).
  assert (L.*1 = allocations_of self) as HL1.
  { unfold L. rewrite <-list_fmap_compose. apply list_fmap_id. }
  assert (L ≠ []) as HL.
  { unfold L, allocations_of. intros Hnil.
    do 2 apply fmap_nil_inv in Hnil. by apply permutations_nonempty in Hnil. }
  destruct (dict_min_key_spec (dict_of_pairs L)) as (k & d1 & v & d2 & Hmin & Hd & H1 & H2);
    [by apply dict_of_pairs_nonempty|].
  unfold optimal_allocation_minimal_value. rewrite Hmin. cbn [mbind result_bind].
  assert (∀ e, e ∈ dict_of_pairs L → e.1 ∈ allocations_of self ∧
                                     e.2 = pairs_cost M e.1) as Hentries.
  { intros e [Hin|Hin]%foldl_setitem_entries; [by apply elem_of_nil in Hin|].
    apply list_elem_of_fmap in Hin as (a & -> & Ha). simpl.
    split; [done|by apply total_of_exact]. }
  destruct (Hentries (k, v)) as [Hk Hv]; [rewrite Hd; set_solver|]. simpl in Hk, Hv.
  apply list_elem_of_fmap in Hk as (sigma & -> & Hs).
  exists sigma. split_and!.
  - by apply permutations_upto_Permutation in Hs.
  - f_equal. apply dict_of_pairs_NoDup. rewrite fst_zip_take, take_seq. apply NoDup_seq.
  - intros tau Htau%permutations_complete. fold nt in Hv. rewrite <-Hv.
    assert (zip (seq 0 nt) tau ∈ dict_keys (dict_of_pairs L)) as Hkey.
    { apply foldl_setitem_keys. right. rewrite HL1.
      apply list_elem_of_fmap. by exists tau. }
    apply list_elem_of_fmap in Hkey as ([a v'] & Ha & Hin). simpl in Ha. subst a.
    destruct (Hentries _ Hin) as [_ Hv']. simpl in Hv'. rewrite <-Hv'.
    rewrite Hd in Hin. rewrite Forall_forall in H1. rewrite Forall_forall in H2.
    apply elem_of_app in Hin as [Hin|[Heq|Hin]%elem_of_cons].
    + specialize (H1 _ Hin). simpl in H1. lia.
    + injection Heq as _ ->. lia.
    + specialize (H2 _ Hin). simpl in H2. lia.
Qed.

End optimal_general.

(** X26.  Whatever the two counts are, on a matrix of shape
    [(num_taxis, num_passengers)] whose sums stay inside [int64] the
    exhaustive solver returns the pairs of taxis [0, 1, ...] with the
    entries of a permutation of the passengers, cut to the shorter side,
    and no other permutation gives a smaller total over these pairs.  With
    fewer taxis than passengers this is the cheapest way to give every
    taxi a passenger of its own. *)
Theorem optimal_assignment_least_cost (self : TaskAllocator.t) (B : Z) :
  Assignment.shape (TaskAllocator.num_taxis self) (TaskAllocator.num_passengers self)
    (TaskAllocator.distances self) →
  Assignment.bounded B (TaskAllocator.distances self) →
  (Z.of_nat (TaskAllocator.num_taxis self `min` TaskAllocator.num_passengers self) * B
   < 2 ^ 63)%Z →
  ∃ sigma,
    sigma ≡ₚ seq 0 (TaskAllocator.num_passengers self) ∧
    TaskAllocator.optimal_assignment self
      = Ok (zip (seq 0 (TaskAllocator.num_taxis self)) sigma) ∧
    ∀ tau, tau ≡ₚ seq 0 (TaskAllocator.num_passengers self) →
      (Assignment.pairs_cost (TaskAllocator.distances self)
         (zip (seq 0 (TaskAllocator.num_taxis self)) sigma)
       ≤ Assignment.pairs_cost (TaskAllocator.distances self)
           (zip (seq 0 (TaskAllocator.num_taxis self)) tau))%Z.
Proof. intros Hshape HB Hsmall. by apply (optimal_assignment_least self B). Qed.

Lemma optimal_assignment_least_cost_witness :
  ∃ sigma,
    sigma ≡ₚ seq 0 3 ∧
    TaskAllocator.optimal_assignment
      {| TaskAllocator.num_taxis := 2; TaskAllocator.num_passengers := 3;
         TaskAllocator.distances := [[5; 2; 4]; [1; 7; 3]]%Z |}
    = Ok (zip (seq 0 2) sigma).
Proof.
  destruct (optimal_assignment_least_cost
    {| TaskAllocator.num_taxis := 2; TaskAllocator.num_passengers := 3;
       TaskAllocator.distances := [[5; 2; 4]; [1; 7; 3]]%Z |} 7%Z)
    as (sigma & Hperm & Hres & _).
  - split; [reflexivity|]. repeat constructor.
  - repeat constructor; lia.
  - simpl. lia.
  - exists sigma. split; [exact Hperm|exact Hres].
Defined.

(** ** Walking the computed path *)

Section walking.
Import SocialTaxi.
Variable shortest_path : list (Z * list Z) → Z → Z → result (list Z).

Lemma compute_shortest_path_lengths (self taxi : SocialTaxi.t)
    (dest : option (list Z)) :
  compute_shortest_path shortest_path self dest = Ok taxi →
  length (path_cords taxi) = length (path_actions taxi).
Proof.
  unfold compute_shortest_path. intros Hres.
  apply bind_Ok in Hres as (loc & _ & Hres).
  assert (∀ d, ('(cord_path, actions) ← get_path shortest_path self loc d;
                Ok (set_path self cord_path actions)) = Ok taxi →
               length (path_cords taxi) = length (path_actions taxi)) as Hgo.
  { intros d Hd. apply bind_Ok in Hd as ([cords actions] & Hpath & [= <-]).
    by apply get_path_lengths in Hpath. }
  destruct (negb (dest_truthy dest)); [|by eapply Hgo].
  destruct (index_truthy (passenger_index self)).
  - apply bind_Ok in Hres as (d & _ & Hres). by eapply Hgo.
  - by injection Hres as <-.
Qed.

(** X27.  After [compute_shortest_path] has returned, whatever the
    destination argument and the passenger, the taxi holds as many
    coordinates as actions: [get_next_step] hands out every coordinate
    with its action, never returns [None] before the path is used up, and
    both lists run out together. *)
Theorem compute_shortest_path_then_steps (self taxi : SocialTaxi.t)
    (dest : option (list Z)) (prev : history) :
  compute_shortest_path shortest_path self dest = Ok taxi →
  length (path_cords taxi) = length (path_actions taxi) ∧
  (next_steps (length (path_cords taxi)) taxi prev).2
    = Some <$> zip (path_cords taxi) (path_actions taxi) ∧
  path_cords (next_steps (length (path_cords taxi)) taxi prev).1.1 = [] ∧
  path_actions (next_steps (length (path_cords taxi)) taxi prev).1.1 = [].
Proof.
  intros Hlen%compute_shortest_path_lengths. split; [done|].
  by apply next_steps_whole_path.
Qed.

(** X28.  The path that [take_social_path] stores from
    [compute_optimal_path] is walked in the same way: while [path_cords]
    is not empty, [get_next_step] returns a pair, so its second component
    can be taken, and after as many calls as there are coordinates both
    lists are empty. *)
Theorem compute_optimal_path_then_steps (self : SocialTaxi.t)
    (cords : list (list Z)) (actions : list Z) (prev : history) :
  compute_optimal_path shortest_path self = Ok (cords, actions) →
  (next_steps (length cords) (set_path self cords actions) prev).2
    = Some <$> zip cords actions ∧
  path_cords (next_steps (length cords) (set_path self cords actions) prev).1.1 = [] ∧
  path_actions (next_steps (length cords) (set_path self cords actions) prev).1.1 = [].
Proof.
  intros (k & loc & start & dest & [c1 a1] & [c2 a2] & _ & _ & _ & _ & H1 & H2
          & -> & ->)%compute_optimal_path_inv.
  apply get_path_lengths in H1, H2. cbn [fst snd].
  apply (next_steps_whole_path (set_path self (c1 ++ c2) (a1 ++ a2)) prev).
  cbn [set_path path_cords path_actions]. rewrite !length_app. lia.
Qed.

End walking.

Lemma compute_shortest_path_then_steps_witness :
  length [[0; 1]; [1; 1]]%Z = length [2; 0]%Z.
Proof.
  destruct (compute_shortest_path_then_steps Networkx.shortest_path
              (Scenarios.taxi Scenarios.corner_env 0 (Some 1))
              (SocialTaxi.set_path (Scenarios.taxi Scenarios.corner_env 0 (Some 1))
                 [[0; 1]; [1; 1]]%Z [2; 0]%Z)
              None
              {| SocialTaxi.previous_coordinate := [0; 0]%Z;
                 SocialTaxi.previous_action := None |})
    as [Hlen _].
  - vm_compute. reflexivity.
  - exact Hlen.
Defined.

Lemma compute_optimal_path_then_steps_witness :
  (SocialTaxi.next_steps 3
     (SocialTaxi.set_path (Scenarios.taxi Scenarios.near_env 0 (Some 0))
        [[0; 1]; [0; 2]; [0; 3]]%Z [2; 2; 2]%Z)
     {| SocialTaxi.previous_coordinate := [0; 0]%Z;
        SocialTaxi.previous_action := None |}).2
  = Some <$> zip [[0; 1]; [0; 2]; [0; 3]]%Z [2; 2; 2]%Z.
Proof.
  destruct (compute_optimal_path_then_steps Networkx.shortest_path
              (Scenarios.taxi Scenarios.near_env 0 (Some 0))
              [[0; 1]; [0; 2]; [0; 3]]%Z [2; 2; 2]%Z
              {| SocialTaxi.previous_coordinate := [0; 0]%Z;
                 SocialTaxi.previous_action := None |})
    as [Hsteps _].
  - vm_compute. reflexivity.
  - exact Hsteps.
Defined.
